(** * uscf-scraper: a shallow embedding of [uscf-scraper.py]

    The scraper reads tournament histories and game tables out of rendered
    HTML.  This development embeds its parsing functions, its retrying
    fetcher and its traversal loop, and states the properties of the
    repository's specification over them.

    Conventions of the embedding.
    - Python [str] values are sequences of code points; the model keeps the
      code points 0..255 (type [ascii], read as Latin-1), which is where all
      the characters the program tests for live ("\xa0" is 160).
    - The [re] patterns of the source are written as values of [regex] and run
      by a backtracking matcher with Python's greedy, leftmost semantics.
    - BeautifulSoup trees are values of [node]; the tree methods the program
      calls are functions over [node].  The HTML parser itself and the network
      are parameters. *)

From Stdlib Require Import ZArith NArith Ascii String List Bool Lia.
From stdpp Require Import base list gmap strings.
Import ListNotations.

Local Open Scope list_scope.
Local Open Scope bool_scope.

(** ** Text *)

Abbreviation str := (list ascii).

(** A string literal of the source, as a sequence of code points. *)
Definition L (s : string) : str := list_ascii_of_string s.

Definition code (c : ascii) : N := N_of_ascii c.

Definition in_range (lo hi : N) (c : ascii) : bool :=
  (lo <=? code c)%N && (code c <=? hi)%N.

Definition is_code (n : N) (c : ascii) : bool := (code c =? n)%N.

Definition chr_eqb (a b : ascii) : bool := (code a =? code b)%N.

(** [str.isspace] on one character, which is also [\s] of [re] for [str]
    patterns: tab..CR, FS..US, space, NEL and the non-breaking space. *)
Definition isspace (c : ascii) : bool :=
  in_range 9 13 c || in_range 28 32 c || is_code 133 c || is_code 160 c.

(** [\d]: the decimal digits; 0..9 are the only ones below code point 256. *)
Definition isdecimal (c : ascii) : bool := in_range 48 57 c.

Definition isalpha (c : ascii) : bool :=
  in_range 65 90 c || in_range 97 122 c || is_code 170 c || is_code 181 c
  || is_code 186 c || in_range 192 214 c || in_range 216 246 c
  || in_range 248 255 c.

(** [\w]: alphanumeric ([str.isalnum]) or underscore. *)
Definition isword (c : ascii) : bool :=
  isalpha c || isdecimal c || is_code 95 c || is_code 178 c || is_code 179 c
  || is_code 185 c || in_range 188 190 c.

(** [str.lower] on one character. *)
Definition lower_char (c : ascii) : ascii :=
  if in_range 65 90 c || (in_range 192 222 c && negb (is_code 215 c))
  then ascii_of_N (code c + 32) else c.

Definition lower (s : str) : str := map lower_char s.

Fixpoint str_eqb (a b : str) : bool :=
  match a, b with
  | [], [] => true
  | x :: a', y :: b' => chr_eqb x y && str_eqb a' b'
  | _, _ => false
  end.

Fixpoint lstrip (s : str) : str :=
  match s with
  | c :: t => if isspace c then lstrip t else s
  | [] => []
  end.

Definition rstrip (s : str) : str := rev (lstrip (rev s)).

(** [s.strip()] *)
Definition strip (s : str) : str := lstrip (rstrip s).

(** [s.split()]: the maximal runs of non-space characters.  [cur] holds the
    run being read, reversed. *)
Fixpoint split_ws_aux (cur : str) (s : str) : list str :=
  match s with
  | [] => match cur with [] => [] | _ => [rev cur] end
  | c :: t =>
      if isspace c
      then match cur with
           | [] => split_ws_aux [] t
           | _ => rev cur :: split_ws_aux [] t
           end
      else split_ws_aux (c :: cur) t
  end.

Definition split_ws (s : str) : list str := split_ws_aux [] s.

Fixpoint startswith (s p : str) : bool :=
  match p, s with
  | [], _ => true
  | x :: p', y :: s' => chr_eqb x y && startswith s' p'
  | _ :: _, [] => false
  end.

(** [p in s] for strings. *)
Fixpoint contains (s p : str) : bool :=
  startswith s p || match s with [] => false | _ :: t => contains t p end.

(** [s.split(sep, 1)] for a non-empty [sep] that occurs in [s]: the text
    before the first occurrence and the text after it. [None] when [sep] does
    not occur. *)
Fixpoint partition_at (sep : str) (s : str) : option (str * str) :=
  if startswith s sep then Some ([], skipn (length sep) s)
  else match s with
       | [] => None
       | c :: t =>
           match partition_at sep t with
           | Some (l, r) => Some (c :: l, r)
           | None => None
           end
       end.

(** [s.replace(a, b)] for single characters. *)
Definition replace_chr (a b : ascii) (s : str) : str :=
  map (fun c => if chr_eqb c a then b else c) s.

(** [sep.join(parts)] *)
Fixpoint join (sep : str) (parts : list str) : str :=
  match parts with
  | [] => []
  | [p] => p
  | p :: ps => p ++ sep ++ join sep ps
  end.

(** ** Regular expressions

    The fragment of [re] the scraper uses.  Repetition is only ever applied to
    a one-character class in the source, so [Star] takes a class. *)

Inductive regex :=
| Eps
| Chr (p : ascii -> bool)
| Seq (r1 r2 : regex)
| Alt (r1 r2 : regex)
| Star (p : ascii -> bool)
| Grp (n : nat) (r : regex)
| Bol
| Eol
| WordB.

(** The matcher's position: the text before the cursor (nearest character
    first), the text after it, and the groups closed so far. *)
Record mstate := MState {
  m_before : str;
  m_after : str;
  m_groups : list (nat * str)
}.

Definition at_word (s : str) : bool :=
  match s with c :: _ => isword c | [] => false end.

(** The matcher returns every way a pattern can match from a position, in
    the order a backtracking engine tries them; the first one is the match
    the engine reports. *)

(** Greedy [p*]: the longest run first, then one character less each time. *)
Fixpoint star (p : ascii -> bool) (before after : str)
    (g : list (nat * str)) : list mstate :=
  match after with
  | c :: t =>
      if p c
      then star p (c :: before) t g ++ [MState before after g]
      else [MState before after g]
  | [] => [MState before after g]
  end.

(** Closing group [n], opened at [st] and ending at [st']. *)
Definition close_group (n : nat) (st st' : mstate) : mstate :=
  let len := length (m_before st') - length (m_before st) in
  MState (m_before st') (m_after st')
         ((n, rev (firstn len (m_before st'))) :: m_groups st').

Fixpoint exec (r : regex) (st : mstate) : list mstate :=
  match r with
  | Eps => [st]
  | Chr p =>
      match m_after st with
      | c :: t => if p c then [MState (c :: m_before st) t (m_groups st)]
                  else []
      | [] => []
      end
  | Seq r1 r2 => flat_map (exec r2) (exec r1 st)
  | Alt r1 r2 => exec r1 st ++ exec r2 st
  | Star p => star p (m_before st) (m_after st) (m_groups st)
  | Grp n r1 => map (close_group n st) (exec r1 st)
  | Bol => match m_before st with [] => [st] | _ => [] end
  | Eol =>
      (* [$] matches at the end and just before a final newline *)
      match m_after st with
      | [] => [st]
      | [c] => if is_code 10 c then [st] else []
      | _ => []
      end
  | WordB => if xorb (at_word (m_before st)) (at_word (m_after st))
             then [st] else []
  end.

(** A match object: where the match started and the matcher's final state. *)
Record match_obj := MatchObj {
  mo_start : str;
  mo_end : mstate
}.

Definition try_at (r : regex) (before after : str) : option match_obj :=
  match exec r (MState before after []) with
  | st :: _ => Some (MatchObj before st)
  | [] => None
  end.

(** [re.match(r, s)] *)
Definition re_match (r : regex) (s : str) : option match_obj :=
  try_at r [] s.

Fixpoint search_from (r : regex) (before after : str) : option match_obj :=
  match try_at r before after with
  | Some m => Some m
  | None =>
      match after with
      | c :: t => search_from r (c :: before) t
      | [] => None
      end
  end.

(** [re.search(r, s)] *)
Definition re_search (r : regex) (s : str) : option match_obj :=
  search_from r [] s.

Definition matched_len (m : match_obj) : nat :=
  length (m_before (mo_end m)) - length (mo_start m).

(** [m.group(0)] *)
Definition group0 (m : match_obj) : str :=
  rev (firstn (matched_len m) (m_before (mo_end m))).

Fixpoint assoc_nat (n : nat) (l : list (nat * str)) : option str :=
  match l with
  | [] => None
  | (k, v) :: l' => if Nat.eqb k n then Some v else assoc_nat n l'
  end.

(** [m.group(n)] for a group that took part in the match. *)
Definition group (n : nat) (m : match_obj) : str :=
  match assoc_nat n (m_groups (mo_end m)) with
  | Some v => v
  | None => []
  end.

Definition is_match (o : option match_obj) : bool :=
  match o with Some _ => true | None => false end.

(** [re.sub(r, repl, s)] for a constant replacement: leftmost matches, not
    overlapping.  [skip] counts the characters of the current match still to
    be dropped. *)
Fixpoint sub_from (r : regex) (repl : str) (before after : str) (skip : nat)
    : str :=
  match after with
  | [] =>
      match skip with
      | S _ => []
      | O => match try_at r before [] with
             | Some _ => repl
             | None => []
             end
      end
  | c :: t =>
      match skip with
      | S n => sub_from r repl (c :: before) t n
      | O =>
          match try_at r before after with
          | Some m =>
              match matched_len m with
              | O => repl ++ c :: sub_from r repl (c :: before) t 0
              | S n => repl ++ sub_from r repl (c :: before) t n
              end
          | None => c :: sub_from r repl (c :: before) t 0
          end
      end
  end.

Definition re_sub (r : regex) (repl : str) (s : str) : str :=
  sub_from r repl [] s 0.

(** Pattern builders. *)
Definition dot : ascii -> bool := fun c => negb (is_code 10 c).
Definition is_chr (a : ascii) : ascii -> bool := fun c => chr_eqb c a.
Definition is_chr_ci (a : ascii) : ascii -> bool :=
  fun c => chr_eqb (lower_char c) (lower_char a).
Definition not_chr (a : ascii) : ascii -> bool := fun c => negb (chr_eqb c a).
Definition one_of_ci (s : str) : ascii -> bool :=
  fun c => existsb (fun a => chr_eqb (lower_char c) (lower_char a)) s.

Definition Plus (p : ascii -> bool) : regex := Seq (Chr p) (Star p).
Definition Opt (r : regex) : regex := Alt r Eps.

Fixpoint Lit (s : str) : regex :=
  match s with
  | [] => Eps
  | c :: t => Seq (Chr (is_chr c)) (Lit t)
  end.

Fixpoint LitCI (s : str) : regex :=
  match s with
  | [] => Eps
  | c :: t => Seq (Chr (is_chr_ci c)) (LitCI t)
  end.

Fixpoint Seqs (rs : list regex) : regex :=
  match rs with
  | [] => Eps
  | [r] => r
  | r :: rs' => Seq r (Seqs rs')
  end.


(** ** The patterns of the source *)

(** [\s+] *)
Definition re_spaces : regex := Plus isspace.

(** The pattern "^(.+,\s*\w\w)\b" *)
Definition re_location : regex :=
  Seqs [Bol;
        Grp 1 (Seqs [Plus dot; Chr (is_chr ","); Star isspace;
                     Chr isword; Chr isword]);
        WordB].

(** The pattern "(\d{4}-\d{2}-\d{2})" *)
Definition re_date : regex :=
  Grp 1 (Seqs [Chr isdecimal; Chr isdecimal; Chr isdecimal; Chr isdecimal;
               Chr (is_chr "-"); Chr isdecimal; Chr isdecimal;
               Chr (is_chr "-"); Chr isdecimal; Chr isdecimal]).

(** The pattern "<td[^>]*>" with IGNORECASE *)
Definition re_open_td : regex :=
  Seqs [LitCI (L "<td"); Star (not_chr ">"); Chr (is_chr ">")].

(** The class of the two quote characters, code points 34 and 39. *)
Definition quote : ascii -> bool := fun c => is_code 34 c || is_code 39 c.

(** [width\s*=\s*Q?1Q?] with IGNORECASE, Q the class of the two quotes *)
Definition re_width1 : regex :=
  Seqs [LitCI (L "width"); Star isspace; Chr (is_chr "="); Star isspace;
        Opt (Chr quote); Chr (is_chr "1"); Opt (Chr quote)].

(** [rowspan\s*=\s*Q?20Q?] with IGNORECASE *)
Definition re_rowspan20 : regex :=
  Seqs [LitCI (L "rowspan"); Star isspace; Chr (is_chr "="); Star isspace;
        Opt (Chr quote); Chr (is_chr "2"); Chr (is_chr "0"); Opt (Chr quote)].

(** The pattern "<[^>]*>" with IGNORECASE|DOTALL *)
Definition re_markup : regex :=
  Seqs [Chr (is_chr "<"); Star (not_chr ">"); Chr (is_chr ">")].

(** The pattern "^[WLDH]\s*\d*$" with IGNORECASE *)
Definition re_result : regex :=
  Seqs [Bol; Chr (one_of_ci (L "WLDH")); Star isspace; Star isdecimal; Eol].

(** The pattern "^R:\s*" with IGNORECASE *)
Definition re_rating_prefix : regex :=
  Seqs [Bol; LitCI (L "R:"); Star isspace].

(** The pattern [^(A)\((B)\)] with group 1 the greedy run A = [.*] and
    group 2 the digits B = [\d+] *)
Definition re_name_id : regex :=
  Seqs [Bol; Grp 1 (Star dot); Chr (is_chr "("); Grp 2 (Plus isdecimal);
        Chr (is_chr ")")].

(** The pattern "R:\s*(\d+)\s*(?:->|=>)\s*(\d+)" with IGNORECASE *)
Definition re_my_rating : regex :=
  Seqs [LitCI (L "R:"); Star isspace; Grp 1 (Plus isdecimal); Star isspace;
        Alt (Lit (L "->")) (Lit (L "=>")); Star isspace;
        Grp 2 (Plus isdecimal)].

(** The pattern "XtblMain\.php\?(\d+)-(\d+)" *)
Definition re_xtbl_main : regex :=
  Seqs [Lit (L "XtblMain.php?"); Grp 1 (Plus isdecimal); Chr (is_chr "-");
        Grp 2 (Plus isdecimal)].

(** [re.compile("Games", re.IGNORECASE)] *)
Definition re_games : regex := LitCI (L "Games").

(** ** Normalizer *)

Definition parse_date_prefix (txt : str) : str :=
  match re_match re_date txt with
  | Some m => group 1 m
  | None => txt
  end.

Definition fix_location (raw_loc : str) : str :=
  let s := strip (re_sub re_spaces (L " ") raw_loc) in
  match re_match re_location s with
  | Some m => group 1 m
  | None => s
  end.

Definition parse_rating_pair (txt : str) : str * str :=
  if contains txt (L "=>")
  then match partition_at (L "=>") txt with
       | Some (before, after) => (strip before, strip after)
       | None => (strip txt, [])
       end
  else (strip txt, []).



(** ** BeautifulSoup trees

    A parsed document is a tree of tags and strings.  Tag and attribute names
    are the lower-case names the parser produces; every attribute value is a
    string.  Comments and doctype nodes are not represented. *)

#[local] Unset Elimination Schemes.
Inductive node :=
| NavigableString (s : str)
| Tag (name : str) (attrs : list (str * str)) (contents : list node).
#[local] Set Elimination Schemes.

Definition contents_of (n : node) : list node :=
  match n with
  | NavigableString _ => []
  | Tag _ _ cs => cs
  end.

(** [tag.descendants]: every node below [n], in document order. *)
Fixpoint descendants (n : node) : list node :=
  match n with
  | NavigableString _ => []
  | Tag _ _ cs =>
      (fix go (l : list node) : list node :=
         match l with
         | [] => []
         | c :: l' => c :: descendants c ++ go l'
         end) cs
  end.

Definition tag_named (name : str) (n : node) : bool :=
  match n with
  | NavigableString _ => false
  | Tag nm _ _ => str_eqb nm name
  end.

Fixpoint assoc_str (key : str) (l : list (str * str)) : option str :=
  match l with
  | [] => None
  | (k, v) :: l' => if str_eqb k key then Some v else assoc_str key l'
  end.

(** [tag.get(key)] *)
Definition get_attr (key : str) (n : node) : option str :=
  match n with
  | NavigableString _ => None
  | Tag _ attrs _ => assoc_str key attrs
  end.

(** Every requested attribute is present with exactly the requested value. *)
Definition has_attrs (want : list (str * str)) (n : node) : bool :=
  forallb (fun kv => match get_attr (fst kv) n with
                     | Some v => str_eqb v (snd kv)
                     | None => false
                     end) want.

(** [tag.find_all(name)], [recursive=True] *)
Definition find_all (name : str) (n : node) : list node :=
  List.filter (fun x => tag_named name x) (descendants n).

(** [tag.find_all(name, recursive=False)] *)
Definition find_all_direct (name : str) (n : node) : list node :=
  List.filter (fun x => tag_named name x) (contents_of n).

(** [tag.find_all(name, attrs)] with a dictionary of attribute values *)
Definition find_all_attrs (name : str) (want : list (str * str)) (n : node)
    : list node :=
  List.filter (fun x => tag_named name x && has_attrs want x) (descendants n).

(** [tag.find_all(name, href=True)] *)
Definition find_all_with (name key : str) (n : node) : list node :=
  List.filter (fun x => tag_named name x &&
                   match get_attr key x with Some _ => true | None => false end)
         (descendants n).

(** [tag.string]: the single string below a tag, through single children. *)
Fixpoint tag_string (n : node) : option str :=
  match n with
  | NavigableString s => Some s
  | Tag _ _ [c] => tag_string c
  | Tag _ _ _ => None
  end.

(** The strings below a node in document order, each stripped, the empty ones
    dropped: what [get_text(strip=True)] joins. *)
Definition stripped_strings (n : node) : list str :=
  flat_map (fun x => match x with
                     | NavigableString s =>
                         match strip s with [] => [] | s' => [s'] end
                     | Tag _ _ _ => []
                     end) (descendants n).

(** [tag.get_text(sep, strip=True)] *)
Definition get_text (sep : str) (n : node) : str :=
  join sep (stripped_strings n).

Fixpoint replace_all (a : ascii) (by_ : str) (s : str) : str :=
  match s with
  | [] => []
  | c :: t => (if chr_eqb c a then by_ else [c]) ++ replace_all a by_ t
  end.

(** The output formatter's entity substitution for text and attribute
    values. *)
Definition substitute_xml (s : str) : str :=
  replace_all ">" (L "&gt;") (replace_all "<" (L "&lt;")
    (replace_all "&" (L "&amp;") s)).

Definition dquote : ascii := ascii_of_N 34.
Definition squote : ascii := ascii_of_N 39.

Definition quoted_attribute_value (v : str) : str :=
  if existsb (chr_eqb dquote) v
  then if existsb (chr_eqb squote) v
       then [dquote] ++ replace_all dquote (L "&quot;") v ++ [dquote]
       else [squote] ++ v ++ [squote]
  else [dquote] ++ v ++ [dquote].

Definition decode_attrs (attrs : list (str * str)) : str :=
  flat_map (fun kv => L " " ++ fst kv ++ L "=" ++
                      quoted_attribute_value (substitute_xml (snd kv))) attrs.

(** The tags written without a closing tag when they have no contents. *)
Definition void_tags : list str :=
  map L ["area"; "base"; "br"; "col"; "embed"; "hr"; "img"; "input";
         "keygen"; "link"; "menuitem"; "meta"; "param"; "source"; "track";
         "wbr"; "basefont"; "bgsound"; "command"; "frame"; "image";
         "isindex"; "nextid"; "spacer"]%string.

(** [str(tag)]: the markup of a node. *)
Fixpoint decode (n : node) : str :=
  match n with
  | NavigableString s => substitute_xml s
  | Tag name attrs cs =>
      match cs with
      | [] =>
          if existsb (str_eqb name) void_tags
          then L "<" ++ name ++ decode_attrs attrs ++ L "/>"
          else L "<" ++ name ++ decode_attrs attrs ++ L ">" ++
               L "</" ++ name ++ L ">"
      | _ =>
          L "<" ++ name ++ decode_attrs attrs ++ L ">" ++
          (fix go (l : list node) : str :=
             match l with
             | [] => []
             | c :: l' => decode c ++ go l'
             end) cs ++
          L "</" ++ name ++ L ">"
      end
  end.

(** ** Game-table extractor *)

Record game := Game {
  result : str;
  color : str;
  opp_score : str;
  opp_pre : str;
  opp_post : str;
  opp_name : str;
  opp_id : str
}.

(** The filler test both extractors apply to a cell: the opening tag of its
    markup declares a width starting with 1 and a rowspan starting with 20. *)
Definition is_filler (td_ : node) : bool :=
  match re_search re_open_td (decode td_) with
  | Some open_td =>
      let td_tag := group0 open_td in
      is_match (re_search re_width1 td_tag) &&
      is_match (re_search re_rowspan20 td_tag)
  | None => false
  end.

Definition remove_filler (tds : list node) : list node :=
  List.filter (fun td_ => negb (is_filler td_)) tds.

Definition nbsp : ascii := ascii_of_N 160.

(** The text of one kept cell. *)
Definition cell_text (c_ : node) : str :=
  let c2 := re_sub re_markup [] (decode c_) in
  let c2 := replace_chr nbsp " " c2 in
  let c2 := re_sub re_spaces (L " ") c2 in
  strip c2.

(** The opponent's name and the id embedded in it. *)
Definition extract_embedded_id (name_text : str) : str * str :=
  match re_match re_name_id name_text with
  | Some mm => (strip (group 1 mm), strip (group 2 mm))
  | None => (name_text, [])
  end.

Definition strip_rating_prefix (txt : str) : str :=
  re_sub re_rating_prefix [] txt.

(** [cols[i]] under the length test that guards it. *)
Definition col (i : nat) (cols : list str) : str := nth i cols [].

(** [s.split()[0]]; the pattern test before it leaves a token to take. *)
Definition first_token (s : str) : str := nth 0 (split_ws s) [].

(** The text columns of a row: its own cells, fillers removed. *)
Definition text_cols_of (tr : node) : list str :=
  map cell_text (remove_filler (find_all_direct (L "td") tr)).

(** The shape gate: six columns and a result code in the first. *)
Definition shape_gate (text_cols : list str) : bool :=
  (length text_cols =? 6) &&
  is_match (re_match re_result (col 0 text_cols)).

(** The record built from six columns. *)
Definition game_of_cols (text_cols : list str) : game :=
  let '(name, id) := extract_embedded_id (col 5 text_cols) in
  {| result := first_token (col 0 text_cols);
     color := col 1 text_cols;
     opp_score := col 2 text_cols;
     opp_pre := strip_rating_prefix (col 3 text_cols);
     opp_post := strip_rating_prefix (col 4 text_cols);
     opp_name := name;
     opp_id := id |}.

(** One turn of the row loop: the record the row appends, if any. *)
Definition row_game (tr : node) : option game :=
  match find_all_direct (L "td") tr with
  | [] => None
  | _ =>
      let text_cols := text_cols_of tr in
      if shape_gate text_cols then Some (game_of_cols text_cols) else None
  end.

Fixpoint games_of_rows (all_tr : list node) : list game :=
  match all_tr with
  | [] => []
  | tr :: rest =>
      match row_game tr with
      | Some g => g :: games_of_rows rest
      | None => games_of_rows rest
      end
  end.

Definition parse_games_in_table (games_table : node) (pass_label : str)
    : list game :=
  let all_tr := find_all (L "tr") games_table in
  games_of_rows all_tr.

(** ** Player rating extractor *)

Definition rating_of_row (r_ : node) : option (str * str) :=
  match find_all_direct (L "td") r_ with
  | [] => None
  | tds =>
      match remove_filler tds with
      | c0 :: c1 :: _ =>
          let lbl := lower (get_text [] c0) in
          let val := get_text (L " ") c1 in
          if str_eqb (L "rating") lbl
          then match re_search re_my_rating (strip val) with
               | Some mrat => Some (group 1 mrat, group 2 mrat)
               | None => None
               end
          else None
      | _ => None
      end
  end.

(** A loop that returns from the function at the first hit. *)
Fixpoint first_hit {A B} (f : A -> option B) (l : list A) : option B :=
  match l with
  | [] => None
  | x :: l' =>
      match f x with
      | Some y => Some y
      | None => first_hit f l'
      end
  end.

Definition rating_table_attrs : list (str * str) :=
  [(L "bgcolor", L "FFFFFF"); (L "width", L "750")].

Definition parse_player_rating_table (soup : node) : str * str :=
  let table_list := find_all_attrs (L "table") rating_table_attrs soup in
  match first_hit (fun t_ => first_hit rating_of_row
                                (find_all_direct (L "tr") t_)) table_list with
  | Some (pre, post) => (pre, post)
  | None => ([], [])
  end.

(** ** Crosstable summary extractor *)

Definition summary_row (data : gmap str str) (r : node) : gmap str str :=
  match find_all (L "td") r with
  | c0 :: c1 :: _ =>
      let lbl := lower (get_text [] c0) in
      let val := get_text (L " ") c1 in
      let val := if str_eqb lbl (L "location") then fix_location val else val in
      <[lbl := val]> data
  | _ => data
  end.

Definition parse_summary_table (soup : node) : gmap str str :=
  let big :=
    match find_all_attrs (L "table")
            [(L "bgcolor", L "FFFFFF"); (L "width", L "750")] soup with
    | t :: _ => Some t
    | [] =>
        match find_all_attrs (L "table")
                [(L "bgcolor", L "FFFFFF"); (L "width", L "800")] soup with
        | t :: _ => Some t
        | [] => None
        end
    end in
  match big with
  | None => ∅
  | Some big => fold_left summary_row (find_all (L "tr") big) ∅
  end.

(** The link of the all-sections variant of a cross-reference link.  The
    source looks the link up in the page and returns its [href], which is the
    string it searched for, and returns that same string when the page has no
    such link. *)
Definition find_all_sections_link (soup : node) (xlink : str) : str :=
  match re_search re_xtbl_main xlink with
  | None => []
  | Some m =>
      let eid := group 1 m in
      let pid := group 2 m in
      let zero := L "XtblMain.php?" ++ eid ++ L ".0-" ++ pid in
      match find_all_attrs (L "a") [(L "href", zero)] soup with
      | link_ :: _ =>
          match get_attr (L "href") link_ with
          | Some h => h
          | None => zero
          end
      | [] => zero
      end
  end.

(** ** Effects: the network, the visited set and exceptions

    [requests.get] followed by [raise_for_status] and [.text] either yields
    the body or raises.  The two [except] clauses of [fetch_html] tell
    timeouts and the other request errors from everything else. *)

Inductive exn :=
| Timeout (msg : str)
| RequestException (msg : str)
| OtherError (msg : str).

Inductive response :=
| Body (text : str)
| Fails (e : exn).

Inductive io_event :=
| Sleep (sec : Z)
| Get (url : str) (timeout_sec : Z).

(** The call sites of [fetch_html]. *)
Inductive site := History | CrossTable | AllSections | PlayerPage.

(** The state a run threads: the set [visited] that [main] creates and
    [parse_crosstable] updates in place, the calls of [fetch_html] so far
    (call site and link, oldest first), and the sleeps and requests so far. *)
Record world := World {
  visited : gset str;
  fetch_log : list (site * str);
  io : list io_event
}.

Inductive outcome (A : Type) :=
| Return (a : A)
| Raise (e : exn).
Arguments Return {A} a.
Arguments Raise {A} e.

Definition M (A : Type) : Type := world -> outcome A * world.

Definition ret {A} (a : A) : M A := fun w => (Return a, w).

Definition bind {A B} (m : M A) (f : A -> M B) : M B :=
  fun w => match m w with
           | (Return a, w') => f a w'
           | (Raise e, w') => (Raise e, w')
           end.

Definition raise {A} (e : exn) : M A := fun w => (Raise e, w).

(** [try: m except e: h e] *)
Definition catch {A} (m : M A) (h : exn -> M A) : M A :=
  fun w => match m w with
           | (Return a, w') => (Return a, w')
           | (Raise e, w') => h e w'
           end.

Notation "'let*' x ':=' c1 'in' c2" := (bind c1 (fun x => c2))
  (at level 10, x pattern, c1 at level 100, c2 at level 200).

Definition get_visited : M (gset str) := fun w => (Return (visited w), w).

Definition set_visited (v : gset str) : M unit :=
  fun w => (Return tt, World v (fetch_log w) (io w)).

(** [visited.add(link)] *)
Definition visited_add (link : str) : M unit :=
  fun w => (Return tt, World ({[link]} ∪ visited w) (fetch_log w) (io w)).

Definition log_fetch (s : site) (link : str) : M unit :=
  fun w => (Return tt, World (visited w) (fetch_log w ++ [(s, link)]) (io w)).

Definition sleep (sec : Z) : M unit :=
  fun w => (Return tt, World (visited w) (fetch_log w) (io w ++ [Sleep sec])).

Definition BASE_URL : str := L "https://www.uschess.org/msa/".

Definition TOURN_HISTORY_URL (player_id : str) : str :=
  BASE_URL ++ L "MbrDtlTnmtHst.php?" ++ player_id.

(** ** Records of the traversal *)

Record event := Event {
  ev_end_date : str;
  ev_event_id : str;
  ev_event_name : str;
  ev_reg_before : str;
  ev_reg_after : str;
  ev_quick_before : str;
  ev_quick_after : str;
  ev_blitz_before : str;
  ev_blitz_after : str;
  ev_xlink : str
}.

Record player_page := PlayerPageResult {
  player_pre_rating : str;
  player_post_rating : str;
  games : list game
}.

Record crosstable := Crosstable {
  summary : gmap str str;
  player_games : list game;
  player_rating_pre : str;
  player_rating_post : str
}.

(** An event row is the dictionary [main] builds and then updates by key. *)
Abbreviation row := (gmap str str).

Record game_row := GameRow {
  pg_event_id : str;
  pg_event_name : str;
  pg_section_name : str;
  pg_round : str;
  pg_result : str;
  pg_color : str;
  pg_my_rating_pre : str;
  pg_my_rating_post : str;
  pg_opp_id : str;
  pg_opp_name : str;
  pg_opp_rating_pre : str;
  pg_opp_rating_post : str;
  pg_location : str;
  pg_event_dates : str
}.

(** Truth of a string in a condition: it is not empty. *)
Definition truthy (s : str) : bool :=
  match s with [] => false | _ => true end.

(** [d.get(key, "")] *)
Definition get_default (key : str) (d : gmap str str) : str :=
  match d !! key with Some v => v | None => [] end.

(** The dictionary literal that opens the loop body of [main]. *)
Definition initial_row (player_id : str) (ev : event) : row :=
  list_to_map
    [(L "player_id", player_id);
     (L "end_date", ev_end_date ev);
     (L "event_id", ev_event_id ev);
     (L "event_name", ev_event_name ev);
     (L "reg_before", ev_reg_before ev);
     (L "reg_after", ev_reg_after ev);
     (L "quick_before", ev_quick_before ev);
     (L "quick_after", ev_quick_after ev);
     (L "blitz_before", ev_blitz_before ev);
     (L "blitz_after", ev_blitz_after ev);
     (L "location", []);
     (L "event_date(s)", []);
     (L "chief_td", [])].

(** The three summary fields copied from the crosstable. *)
Definition set_summary_fields (cdata : crosstable) (r : row) : row :=
  let r := <[L "location" := get_default (L "location") (summary cdata)]> r in
  let r := <[L "event_date(s)" :=
               get_default (L "event date(s)") (summary cdata)]> r in
  <[L "chief_td" := get_default (L "chief td") (summary cdata)]> r.

(** The user rating from the player page: each of the two assignments is
    guarded by the truth of the value it would store. *)
Definition set_player_ratings (my_pre my_post : str) (r : row) : row :=
  let r := if truthy my_pre then <[L "reg_before" := my_pre]> r else r in
  if truthy my_post then <[L "reg_after" := my_post]> r else r.

Definition game_row_of (ev : event) (my_pre my_post : str) (r : row) (gm : game)
    : game_row :=
  {| pg_event_id := ev_event_id ev;
     pg_event_name := ev_event_name ev;
     pg_section_name := [];
     pg_round := [];
     pg_result := result gm;
     pg_color := color gm;
     pg_my_rating_pre := my_pre;
     pg_my_rating_post := my_post;
     pg_opp_id := opp_id gm;
     pg_opp_name := opp_name gm;
     pg_opp_rating_pre := opp_pre gm;
     pg_opp_rating_post := opp_post gm;
     pg_location := get_default (L "location") r;
     pg_event_dates := get_default (L "event date(s)") r |}.

(** The data of an event without a cross-reference link, and of a link
    already visited: every lookup falls back to its default. *)
Definition empty_crosstable : crosstable :=
  {| summary := ∅; player_games := [];
     player_rating_pre := []; player_rating_post := [] |}.

(** The pattern "(\d{9,12})": nine digits and up to three more *)
Definition re_event_id : regex :=
  Grp 1 (Seqs [Chr isdecimal; Chr isdecimal; Chr isdecimal; Chr isdecimal;
               Chr isdecimal; Chr isdecimal; Chr isdecimal; Chr isdecimal;
               Chr isdecimal;
               Opt (Seq (Chr isdecimal)
                        (Opt (Seq (Chr isdecimal) (Opt (Chr isdecimal)))))]).

(** ** Tournament-list extractor *)

Definition history_row_color (n : node) : bool :=
  match get_attr (L "bgcolor") n with
  | Some x => str_eqb x (L "FFFFC0") || str_eqb x (L "FFFF80")
  | None => false
  end.

Definition event_of_row (r : node) : option event :=
  match find_all (L "td") r with
  | td0 :: td1 :: td2 :: td3 :: td4 :: _ =>
      let date_col := get_text [] td0 in
      let end_date := if truthy date_col then first_token date_col else [] in
      let event_id := match re_search re_event_id date_col with
                      | Some me => group 1 me
                      | None => []
                      end in
      let xlink := match find_all_with (L "a") (L "href") td1 with
                   | link_ :: _ => match get_attr (L "href") link_ with Some h => h | None => [] end
                   | [] => []
                   end in
      let '(rb, ra) := parse_rating_pair (get_text [] td2) in
      let '(qb, qa) := parse_rating_pair (get_text [] td3) in
      let '(bb, ba) := parse_rating_pair (get_text [] td4) in
      Some {| ev_end_date := end_date;
              ev_event_id := event_id;
              ev_event_name := get_text [] td1;
              ev_reg_before := rb; ev_reg_after := ra;
              ev_quick_before := qb; ev_quick_after := qa;
              ev_blitz_before := bb; ev_blitz_after := ba;
              ev_xlink := xlink |}
  | _ => None
  end.

Definition parse_tournament_list_soup (soup : node) : list event :=
  omap event_of_row
    (List.filter (fun x => tag_named (L "tr") x && history_row_color x)
            (descendants soup)).

(** The first link of a page that names the player's sub-document; the empty
    string when there is none. *)
Definition find_user_link (soup : node) (player_id : str) : str :=
  match List.filter (fun h => contains h (L "XtblPlr.php?") && contains h player_id)
               (omap (get_attr (L "href"))
                     (find_all_with (L "a") (L "href") soup)) with
  | h :: _ => h
  | [] => []
  end.

(** The sleeps and requests of [k] attempts at one URL. *)
Fixpoint attempts_io (k : nat) (url : str) (timeout_sec sleep_sec : Z)
    : list io_event :=
  match k with
  | O => []
  | S k' => Sleep sleep_sec :: Get url timeout_sec ::
            attempts_io k' url timeout_sec sleep_sec
  end.

(** The errors the two [except] clauses of [fetch_html] catch. *)
Definition retryable (e : exn) : bool :=
  match e with
  | Timeout _ | RequestException _ => true
  | OtherError _ => false
  end.

Definition fails_retryably (r : response) : Prop :=
  exists e, r = Fails e /\ retryable e = true.

(** The state of a fresh process. *)
Definition world0 : world := World ∅ [] [].

(** A network on which every request times out. *)
Definition always_timeout : list io_event -> str -> Z -> response :=
  fun _ _ _ => Fails (Timeout (L "timed out")).

Section Scraper.

(** [BeautifulSoup(html, "html.parser")] *)
Variable BeautifulSoup : str -> node.

(** The answer of the network to a request, which may depend on everything
    the run has done so far. *)
Variable requests_get : list io_event -> str -> Z -> response.

(** The body of the [try] block of [fetch_html]. *)
Definition http_get (url : str) (timeout_sec : Z) : M str :=
  fun w =>
    let w' := World (visited w) (fetch_log w) (io w ++ [Get url timeout_sec]) in
    match requests_get (io w) url timeout_sec with
    | Body text => (Return text, w')
    | Fails e => (Raise e, w')
    end.

(** The loop of [fetch_html] with [n] attempts left, the next one numbered
    [attempt]. *)
Fixpoint fetch_attempts (n : nat) (attempt : Z) (url : str)
    (timeout_sec max_retries sleep_sec : Z) : M str :=
  match n with
  | O => ret []
  | S n' =>
      let* _ := sleep sleep_sec in
      catch (http_get url timeout_sec)
            (fun e =>
               match e with
               | Timeout _ | RequestException _ =>
                   if (attempt =? max_retries)%Z then raise e
                   else fetch_attempts n' (attempt + 1) url
                                       timeout_sec max_retries sleep_sec
               | OtherError _ => raise e
               end)
  end.

(** [range(1, max_retries + 1)] has [max_retries] elements, none when
    [max_retries] is not positive. *)
Definition fetch_html (url : str) (timeout_sec max_retries sleep_sec : Z)
    : M str :=
  fetch_attempts (Z.to_nat max_retries) 1 url timeout_sec max_retries sleep_sec.

Definition parse_tournament_list (html : str) : list event :=
  parse_tournament_list_soup (BeautifulSoup html).

(** The table [parse_player_specific_page] takes for the games table: the
    first table of the page with a bold string matching "Games" below it. *)
Definition has_games_heading (t_ : node) : bool :=
  existsb (fun b => match tag_string b with
                    | Some s => is_match (re_search re_games s)
                    | None => false
                    end) (find_all (L "b") t_).

Definition find_games_table (soup : node) : option node :=
  head (filter has_games_heading (find_all (L "table") soup)).

(** The second pass: every table below the games table, one after the
    other, results appended. *)
Definition pass2 (games_table : node) : list game :=
  flat_map (fun st => parse_games_in_table st (L "Pass2"))
           (find_all (L "table") games_table).

Definition games_of_table (games_table : node) : list game :=
  match parse_games_in_table games_table (L "Pass1") with
  | (_ :: _) as pass1_g => pass1_g
  | [] =>
      match pass2 games_table with
      | (_ :: _) as pass2_c => pass2_c
      | [] => []
      end
  end.

Definition parse_player_specific_soup (soup : node) : player_page :=
  let '(mypre, mypost) := parse_player_rating_table soup in
  match find_games_table soup with
  | None => PlayerPageResult mypre mypost []
  | Some games_table => PlayerPageResult mypre mypost (games_of_table games_table)
  end.

Definition parse_player_specific_page (html : str) : player_page :=
  parse_player_specific_soup (BeautifulSoup html).

Definition sleep_default : Z := 1.

Definition parse_crosstable (xlink player_id : str)
    (timeout_sec max_retries : Z) : M crosstable :=
  let* seen := get_visited in
  if decide (xlink ∈ seen) then ret empty_crosstable
  else
    let* _ := visited_add xlink in
    let* _ := log_fetch CrossTable xlink in
    let* raw := fetch_html (BASE_URL ++ xlink) timeout_sec max_retries
                         sleep_default in
    let soup := BeautifulSoup raw in
    let summ := parse_summary_table soup in
    let userlink := find_user_link soup player_id in
    let* (summ, userlink) :=
      (if truthy userlink then ret (summ, userlink)
       else
         let zero := find_all_sections_link soup xlink in
         let* seen := get_visited in
         if truthy zero && negb (bool_decide (zero ∈ seen))
         then
           let* _ := visited_add zero in
           let* _ := log_fetch AllSections zero in
           let* all_html := fetch_html (BASE_URL ++ zero) timeout_sec max_retries
                                     sleep_default in
           let soup2 := BeautifulSoup all_html in
           let summ2 := parse_summary_table soup2 in
           ret (summ2 ∪ summ, find_user_link soup2 player_id)
         else ret (summ, userlink)) in
    if truthy userlink
    then
      let* _ := log_fetch PlayerPage userlink in
      let* plr_html := fetch_html (BASE_URL ++ userlink) timeout_sec max_retries
                                sleep_default in
      let parsed := parse_player_specific_page plr_html in
      ret {| summary := summ;
             player_games := games parsed;
             player_rating_pre := player_pre_rating parsed;
             player_rating_post := player_post_rating parsed |}
    else
      ret {| summary := summ; player_games := [];
             player_rating_pre := []; player_rating_post := [] |}.

(** One turn of the event loop of [main]: the row and the game rows the
    event adds. *)
Definition main_event (player_id : str) (timeout_sec max_retries : Z)
    (ev : event) : M (row * list game_row) :=
  let r := initial_row player_id ev in
  let* cdata := (if truthy (ev_xlink ev)
               then parse_crosstable (ev_xlink ev) player_id
                                     timeout_sec max_retries
               else ret empty_crosstable) in
  let r := set_summary_fields cdata r in
  let my_pre := player_rating_pre cdata in
  let my_post := player_rating_post cdata in
  let r := set_player_ratings my_pre my_post r in
  ret (r, map (game_row_of ev my_pre my_post r) (player_games cdata)).

(** The event loop: [all_data] and [per_game] grow event by event. *)
Fixpoint main_events (player_id : str) (timeout_sec max_retries : Z)
    (events : list event) : M (list row * list game_row) :=
  match events with
  | [] => ret ([], [])
  | ev :: rest =>
      let* (r, gms) := main_event player_id timeout_sec max_retries ev in
      let* (all_data, per_game) :=
        main_events player_id timeout_sec max_retries rest in
      ret (r :: all_data, gms ++ per_game)
  end.

(** [main] up to the rows it hands to the CSV writer. *)
Definition main (player_id : str) (filter_year : option str)
    (timeout_sec max_retries : Z) : M (list row * list game_row) :=
  let* _ := log_fetch History (L "MbrDtlTnmtHst.php?" ++ player_id) in
  let* main_html := fetch_html (TOURN_HISTORY_URL player_id) timeout_sec
                             max_retries sleep_default in
  let events := parse_tournament_list main_html in
  let events :=
    match filter_year with
    | Some y => if truthy y
                then List.filter (fun e => startswith (ev_end_date e) y) events
                else events
    | None => events
    end in
  let* _ := set_visited ∅ in
  main_events player_id timeout_sec max_retries events.

(** What the network answers to attempt number [i], counted from 0, of a
    call of [fetch_html] entered after the events [h]. *)
Definition attempt_response (h : list io_event) (url : str)
    (timeout_sec sleep_sec : Z) (i : nat) : response :=
  requests_get (h ++ attempts_io i url timeout_sec sleep_sec ++ [Sleep sleep_sec])
               url timeout_sec.

(** What a call of [fetch_html] with [m] attempts ahead leaves behind and
    returns: [k] attempts were made, all but the last failed with errors that
    are retried, and the last one decided the result. *)
Definition fetch_outcome (url : str) (timeout_sec sleep_sec : Z) (m : nat)
    (w : world) (res : outcome str) (w' : world) : Prop :=
  visited w' = visited w /\ fetch_log w' = fetch_log w /\
  exists k, k <= m /\
    io w' = io w ++ attempts_io k url timeout_sec sleep_sec /\
    (forall i, i + 1 < k ->
       fails_retryably (attempt_response (io w) url timeout_sec sleep_sec i)) /\
    match res with
    | Return body =>
        (k = 0 /\ m = 0 /\ body = []) \/
        (0 < k /\
         attempt_response (io w) url timeout_sec sleep_sec (k - 1) = Body body)
    | Raise e =>
        0 < k /\
        attempt_response (io w) url timeout_sec sleep_sec (k - 1) = Fails e /\
        (retryable e = true -> k = m)
    end.

End Scraper.

(** ** Vocabulary of the statements *)

(** Every character of [l] is in the class [p]. *)
Definition all (p : ascii -> bool) (l : str) : Prop :=
  Forall (fun c => p c = true) l.

(** The next character of [s], if any, is in the class [p]. *)
Definition next_in (p : ascii -> bool) (s : str) : bool :=
  match s with c :: _ => p c | [] => false end.

(** [s] holds a parenthesised run of digits somewhere. *)
Definition has_id_group (s : str) : Prop :=
  exists a ds rest, s = a ++ "("%char :: ds ++ ")"%char :: rest /\
                    ds <> [] /\ all isdecimal ds.

(** [s] ends with a parenthesised run of digits. *)
Definition has_id_suffix (s : str) : Prop :=
  exists name ds, s = name ++ "("%char :: ds ++ [")"%char] /\
                  ds <> [] /\ all isdecimal ds.

(** The end of [re_name_id]: an opening parenthesis, the digits of group 2
    and a closing parenthesis. *)
Definition name_id_tail : regex :=
  Seq (Chr (is_chr "(")) (Seq (Grp 2 (Plus isdecimal)) (Chr (is_chr ")"))).

(** The class of [re_result]'s first character: one of W, L, D, H in either
    case. *)
Definition result_letter : ascii -> bool := one_of_ci (L "WLDH").

(** The shape a first column must have: a result letter, then optional
    whitespace, then optional digits. *)
Definition result_code_shape (s : str) : Prop :=
  exists c ws ds, s = c :: ws ++ ds /\ result_letter c = true /\
                  all isspace ws /\ all isdecimal ds.

(** The four result codes of the specification. *)
Definition is_result_code (s : str) : bool :=
  existsb (str_eqb s) [L "W"; L "L"; L "D"; L "H"].

Definition td (attrs : list (str * str)) (text : string) : node :=
  Tag (L "td") attrs [NavigableString (L text)].

Definition tr (cells : list node) : node := Tag (L "tr") [] cells.

(** A games table whose first columns are a letter directly followed by a
    round number, and a lower-case letter. *)
Definition table_with_odd_codes : node :=
  Tag (L "table") []
    [tr [td [] "W1"; td [] "B"; td [] "1.0"; td [] "R: 1200"; td [] "R: 1215";
         td [] "JOHN DOE (123456)"];
     tr [td [] "d"; td [] "W"; td [] "0.5"; td [] "R: 1300"; td [] "R: 1310";
         td [] "JANE ROE (654321)"]].

(** The end-to-end row of the specification, with a filler cell in front. *)
Definition spec_row : node :=
  tr [Tag (L "td") [(L "width", L "1"); (L "rowspan", L "20")] [];
      td [] "W 1"; td [] "B"; td [] "1.0"; td [] "R: 1200"; td [] "R: 1215";
      td [] "JOHN DOE (123456)"].

(** A row of seven columns. *)
Definition seven_column_row : node :=
  tr [td [] "W 1"; td [] "B"; td [] "1.0"; td [] "R: 1200"; td [] "R: 1215";
      td [] "JOHN DOE (123456)"; td [] "extra"].

Definition newline : ascii := ascii_of_N 10.

(** The two layout signatures under which the summary extractor accepts the
    main table. *)
Definition main_table_signature (t : node) : bool :=
  has_attrs [(L "bgcolor", L "FFFFFF"); (L "width", L "750")] t
  || has_attrs [(L "bgcolor", L "FFFFFF"); (L "width", L "800")] t.

(** The rows the rating extractor looks at, table after table. *)
Definition rating_candidate_rows (soup : node) : list node :=
  flat_map (find_all_direct (L "tr"))
           (find_all_attrs (L "table") rating_table_attrs soup).

Definition rating_row : node :=
  tr [td [] "Rating"; td [] "R: 1294 ->1451"].

Definition page_with_table (width : string) : node :=
  Tag (L "[document]") []
    [Tag (L "table") [(L "bgcolor", L "FFFFFF"); (L "width", L width)]
         [rating_row]].

(** The links fetched as cross-reference documents: the entries of the fetch
    log made for a crosstable and for its all-sections variant. *)
Definition is_cross (entry : site * str) : bool :=
  match fst entry with
  | CrossTable | AllSections => true
  | History | PlayerPage => false
  end.

Definition cross_links (log : list (site * str)) : list str :=
  map snd (List.filter is_cross log).

(** What a stretch of the traversal adds to the fetch log and to the visited
    set: the links it fetched as cross-reference documents are pairwise
    distinct, none of them was visited before, and all of them are visited
    afterwards. *)
Definition crawl_step (w w' : world) : Prop :=
  exists new,
    fetch_log w' = fetch_log w ++ new /\
    NoDup (cross_links new) /\
    (forall l, l ∈ cross_links new -> l ∉ visited w) /\
    visited w' = list_to_set (cross_links new) ∪ visited w.

(** A parser that finds nothing in any page, and a network on which the
    all-sections pages time out and every other page is served. *)
Definition blank_parser : str -> node :=
  fun _ => Tag (L "[document]") [] [].

Definition sections_time_out : list io_event -> str -> Z -> response :=
  fun _ url _ =>
    if contains url (L ".0-") then Fails (Timeout (L "timed out"))
    else Body (L "<html></html>").

Definition sample_xlink : str := L "XtblMain.php?201909151232-12641216".

Definition sample_event : event :=
  {| ev_end_date := L "2019-09-15"; ev_event_id := L "201909151232";
     ev_event_name := L "FALL OPEN";
     ev_reg_before := L "1294"; ev_reg_after := L "1451";
     ev_quick_before := []; ev_quick_after := [];
     ev_blitz_before := []; ev_blitz_after := [];
     ev_xlink := sample_xlink |}.

(** The nodes below [n] in document order, each with a mark telling whether
    it lies inside a table nested below [n]; [inside] is the mark of the
    children of [n]. *)
Fixpoint labelled (inside : bool) (n : node) : list (bool * node) :=
  match n with
  | NavigableString _ => []
  | Tag _ _ cs =>
      (fix go (l : list node) : list (bool * node) :=
         match l with
         | [] => []
         | c :: l' =>
             (inside, c) ::
             labelled (inside || tag_named (L "table") c) c ++ go l'
         end) cs
  end.

(** The rows of a table that are its own, and the rows that lie inside the
    tables nested in it, each row once, in document order. *)
Definition own_rows (games_table : node) : list node :=
  map snd (List.filter (fun p => negb (fst p) && tag_named (L "tr") (snd p))
                       (labelled false games_table)).

Definition nested_rows (games_table : node) : list node :=
  map snd (List.filter (fun p => fst p && tag_named (L "tr") (snd p))
                       (labelled false games_table)).

Definition game_cells (code : string) : list node :=
  [td [] code; td [] "B"; td [] "1.0"; td [] "R: 1200"; td [] "R: 1215";
   td [] "JOHN DOE (123456)"].

(** A page whose games table holds only a heading row of its own and wraps
    the two game rows in a nested table. *)
Definition nested_games_table : node :=
  Tag (L "table") []
    [tr [Tag (L "td") [] [Tag (L "b") [] [NavigableString (L "Games")]]];
     tr [Tag (L "td") []
           [Tag (L "table") [] [tr (game_cells "W 1"); tr (game_cells "L 2")]]]].

Definition nested_games_page : node :=
  Tag (L "[document]") [] [nested_games_table].

Definition constant_parser (soup : node) : str -> node := fun _ => soup.

(** Whitespace runs squeezed to single spaces; [in_run] tells that the
    previous character was whitespace. *)
Fixpoint squeeze (in_run : bool) (s : str) : str :=
  match s with
  | [] => []
  | c :: t =>
      if isspace c
      then if in_run then squeeze true t else " "%char :: squeeze true t
      else c :: squeeze false t
  end.

(** The collapsed text of the specification: the words of the input, joined
    by single spaces. *)
Definition collapse_ws (raw : str) : str := join (L " ") (split_ws raw).

(** [p] is a prefix of [s] of the form text, comma, optional whitespace and
    a code of two word characters that ends where the code ends. *)
Definition location_prefix (s p : str) : Prop :=
  exists text ws c1 c2 rest,
    p = text ++ ","%char :: ws ++ [c1; c2] /\ s = p ++ rest /\
    text <> [] /\ all isspace ws /\
    isword c1 = true /\ isword c2 = true /\ next_in isword rest = false.

(** The end of the group of [re_location]: the comma, the whitespace and
    the two word characters. *)
Definition location_tail : regex :=
  Seq (Chr (is_chr ",")) (Seq (Star isspace) (Seq (Chr isword) (Chr isword))).

(** What [re_location] yields from one way [z] of taking the text before
    the comma. *)
Definition location_from (s : str) (z : mstate) : list mstate :=
  flat_map (exec WordB)
           (map (close_group 1 (MState [] s [])) (exec location_tail z)).

(** [st] is the first way the matcher finds, the one a search reports. *)
Definition first_is (l : list mstate) (st : mstate) : Prop :=
  exists others, l = st :: others.

(** The prefix form in the words of the specification: a text, a comma and
    a space, and a code of two letters. *)
Definition letter_code_prefix (s p : str) : Prop :=
  exists text c1 c2 rest,
    p = text ++ L ", " ++ [c1; c2] /\ s = p ++ rest /\ text <> [] /\
    isalpha c1 = true /\ isalpha c2 = true.

(** ** Measures of a pattern *)

(** The fewest characters a pattern can take. *)
Fixpoint min_len (r : regex) : nat :=
  match r with
  | Chr _ => 1
  | Seq r1 r2 => min_len r1 + min_len r2
  | Alt r1 r2 => Nat.min (min_len r1) (min_len r2)
  | Grp _ r1 => min_len r1
  | Eps | Star _ | Bol | Eol | WordB => 0
  end.

(** The most characters a pattern can take, when there is a bound. *)
Fixpoint max_len (r : regex) : option nat :=
  match r with
  | Chr _ => Some 1
  | Seq r1 r2 =>
      match max_len r1, max_len r2 with
      | Some a, Some b => Some (a + b)
      | _, _ => None
      end
  | Alt r1 r2 =>
      match max_len r1, max_len r2 with
      | Some a, Some b => Some (Nat.max a b)
      | _, _ => None
      end
  | Grp _ r1 => max_len r1
  | Star _ => None
  | Eps | Bol | Eol | WordB => Some 0
  end.

(** Every character class of the pattern lies within [P]. *)
Fixpoint classes_in (P : ascii -> Prop) (r : regex) : Prop :=
  match r with
  | Chr p | Star p => forall c, p c = true -> P c
  | Seq r1 r2 | Alt r1 r2 => classes_in P r1 /\ classes_in P r2
  | Grp _ r1 => classes_in P r1
  | Eps | Bol | Eol | WordB => True
  end.

(** The pattern closes no group. *)
Fixpoint groupless (r : regex) : bool :=
  match r with
  | Grp _ _ => false
  | Seq r1 r2 | Alt r1 r2 => groupless r1 && groupless r2
  | Eps | Chr _ | Star _ | Bol | Eol | WordB => true
  end.

(** The shape of a date prefix: four digits, a hyphen, two digits, a hyphen
    and two digits. *)
Definition date_shape (d : str) : bool :=
  match d with
  | [y1; y2; y3; y4; h1; m1; m2; h2; d1; d2] =>
      isdecimal y1 && isdecimal y2 && isdecimal y3 && isdecimal y4 &&
      chr_eqb h1 "-" && isdecimal m1 && isdecimal m2 &&
      chr_eqb h2 "-" && isdecimal d1 && isdecimal d2
  | _ => false
  end.

(** The digits a text starts with. *)
Fixpoint digit_run (s : str) : str :=
  match s with
  | c :: t => if isdecimal c then c :: digit_run t else []
  | [] => []
  end.

(** The leftmost run of at least nine digits, cut after twelve: what the
    pattern of the event id finds in a text. *)
Fixpoint event_id_scan (s : str) : str :=
  match s with
  | [] => []
  | c :: t =>
      if 9 <=? length (digit_run s) then firstn 12 (digit_run s)
      else event_id_scan t
  end.

(** No character of [s] is whitespace. *)
Definition no_space (s : str) : Prop := Forall (fun c => isspace c = false) s.

(** A history page with one event row, laid out as a date string and an id
    string in the first cell with a line break between them. *)
Definition history_row : node :=
  Tag (L "tr") [(L "bgcolor", L "FFFFC0")]
    [Tag (L "td") [(L "width", L "120")]
       [NavigableString (L "2019-09-15"); Tag (L "br") [] [];
        Tag (L "small") [] [NavigableString (L "201909151232")]];
     Tag (L "td") []
       [Tag (L "a") [(L "href", L "XtblMain.php?201909151232-12641216")]
          [NavigableString (L "FALL OPEN")]];
     td [] "1294 => 1451"; td [] " "; td [] " "].

Definition history_page : node :=
  Tag (L "[document]") [] [Tag (L "table") [] [history_row]].

(** The event the extractor reads from that row. *)
Definition history_event : event :=
  {| ev_end_date := L "2019-09-15201909151232";
     ev_event_id := L "152019091512";
     ev_event_name := L "FALL OPEN";
     ev_reg_before := L "1294"; ev_reg_after := L "1451";
     ev_quick_before := []; ev_quick_after := [];
     ev_blitz_before := []; ev_blitz_after := [];
     ev_xlink := L "XtblMain.php?201909151232-12641216" |}.

(** A page without any element. *)
Definition blank_soup : node := Tag (L "[document]") [] [].

(** The table [parse_summary_table] reads: the first one with the width 750
    signature, or failing that the first one with the width 800 signature. *)
Definition summary_table (soup : node) : option node :=
  match find_all_attrs (L "table")
          [(L "bgcolor", L "FFFFFF"); (L "width", L "750")] soup with
  | t :: _ => Some t
  | [] =>
      match find_all_attrs (L "table")
              [(L "bgcolor", L "FFFFFF"); (L "width", L "800")] soup with
      | t :: _ => Some t
      | [] => None
      end
  end.

(** The label and the value a row of the summary table contributes. *)
Definition summary_entry (r : node) : option (str * str) :=
  match find_all (L "td") r with
  | c0 :: c1 :: _ =>
      let lbl := lower (get_text [] c0) in
      let val := get_text (L " ") c1 in
      Some (lbl, if str_eqb lbl (L "location") then fix_location val else val)
  | _ => None
  end.

(** A crosstable page whose summary table names the location twice. *)
Definition summary_page : node :=
  Tag (L "[document]") []
    [Tag (L "table") [(L "bgcolor", L "FFFFFF"); (L "width", L "750")]
       [tr [td [] "Location"; td [] "RENO, NV 89501"];
        tr [td [] "Event Date(s)"; td [] "2019-09-14 thru 2019-09-15"];
        tr [td [] "LOCATION"; td [] "LAS VEGAS, NV  89103"]]].

(** Removing the rating prefix by hand: a text that starts with the letter R
    in either case and a colon loses them and the whitespace that follows;
    any other text stays as it is. *)
Definition drop_rating_prefix (s : str) : str :=
  match s with
  | c1 :: c2 :: rest =>
      if is_chr_ci "R" c1 && is_chr_ci ":" c2 then lstrip rest else s
  | _ => s
  end.

(** The record read from the end-to-end row of the specification. *)
Definition spec_game : game :=
  {| result := L "W"; color := L "B"; opp_score := L "1.0";
     opp_pre := L "1200"; opp_post := L "1215";
     opp_name := L "JOHN DOE"; opp_id := L "123456" |}.

(** A page that wraps its games table in a layout table. *)
Definition layout_table : node :=
  Tag (L "table") [] [tr [Tag (L "td") [] [nested_games_table]]].

Definition layout_page : node := Tag (L "[document]") [] [layout_table].

(** ** The year filter and the CSV stage of [main] *)

(** The events [main] keeps: all of them without a filter year, those whose
    end date starts with the year otherwise. *)
Definition year_filter (filter_year : option str) (events : list event)
    : list event :=
  match filter_year with
  | Some y => if truthy y
              then List.filter (fun e => startswith (ev_end_date e) y) events
              else events
  | None => events
  end.

(** The header line [main] writes to the CSV file. *)
Definition csv_header : list str :=
  map L ["event_id"; "event_name"; "section_name"; "round"; "result"; "color";
         "my_rating_pre"; "my_rating_post"; "opp_id"; "opp_name";
         "opp_rating_pre"; "opp_rating_post"; "location"; "event_date(s)"]%string.

(** The line written for one game: the rating prefix is removed from the
    opponent's ratings once more. *)
Definition csv_row (g : game_row) : list str :=
  let oppp := strip_rating_prefix (pg_opp_rating_pre g) in
  let oppo := strip_rating_prefix (pg_opp_rating_post g) in
  [pg_event_id g; pg_event_name g; pg_section_name g; pg_round g;
   pg_result g; pg_color g; pg_my_rating_pre g; pg_my_rating_post g;
   pg_opp_id g; pg_opp_name g; oppp; oppo; pg_location g; pg_event_dates g].

(** The lines handed to the CSV writer, header first. *)
Definition csv_lines (per_game : list game_row) : list (list str) :=
  csv_header :: map csv_row per_game.

(** The row of an event once the crosstable data are in. *)
Definition final_row (player_id : str) (ev : event) (cdata : crosstable) : row :=
  set_player_ratings (player_rating_pre cdata) (player_rating_post cdata)
    (set_summary_fields cdata (initial_row player_id ev)).

(** An event of the tournament list that carries no link. *)
Definition linkless_event : event :=
  {| ev_end_date := L "2019-09-15"; ev_event_id := L "201909151232";
     ev_event_name := L "FALL OPEN";
     ev_reg_before := L "1294"; ev_reg_after := L "1451";
     ev_quick_before := []; ev_quick_after := [];
     ev_blitz_before := []; ev_blitz_after := [];
     ev_xlink := [] |}.

(** What holds of every game row [main] collects. *)
Definition game_row_ok (events : list event) (gr : game_row) : Prop :=
  pg_section_name gr = [] /\ pg_round gr = []
  /\ (exists ev, In ev events /\ pg_event_id gr = ev_event_id ev
                 /\ pg_event_name gr = ev_event_name ev)
  /\ pg_result gr <> [] /\ no_space (pg_result gr)
  /\ (pg_opp_id gr = [] \/ (pg_opp_id gr <> [] /\ all isdecimal (pg_opp_id gr)))
  /\ strip (pg_opp_name gr) = pg_opp_name gr
  /\ strip (pg_opp_rating_pre gr) = pg_opp_rating_pre gr
  /\ strip (pg_opp_rating_post gr) = pg_opp_rating_post gr.

(** A small site: a network that answers every request with the URL asked
    for, and a parser that reads the history page, the crosstable page and
    the player page off that URL. *)
Definition echo_network : list io_event -> str -> Z -> response :=
  fun _ url _ => Body url.

Definition crosstable_page : node :=
  Tag (L "[document]") []
    [Tag (L "table") [(L "bgcolor", L "FFFFFF"); (L "width", L "750")]
       [tr [td [] "Location"; td [] "LAS VEGAS, NV  89103"];
        tr [Tag (L "td") []
              [Tag (L "a") [(L "href", L "XtblPlr.php?201909151232-001-12641216")]
                 [NavigableString (L "JANE ROE")]];
            td [] "1.5"]]].

Definition site_parser : str -> node :=
  fun html =>
    if contains html (L "MbrDtlTnmtHst.php?") then history_page
    else if contains html (L "XtblPlr.php?") then nested_games_page
    else crosstable_page.

(** A run of [main] over the small site, for the events of 2019. *)
Definition site_run : outcome (list row * list game_row) * world :=
  main site_parser echo_network (L "12641216") (Some (L "2019")) 15 3 world0.

Definition returned {A} (r : outcome A * world) : bool :=
  match fst r with Return _ => true | Raise _ => false end.

(** Removing markup by hand: outside a tag, an opening angle bracket with a
    closing one somewhere behind it starts a tag; inside a tag everything
    up to the next closing bracket is dropped. *)
Fixpoint drop_markup (inside : bool) (s : str) : str :=
  match s with
  | [] => []
  | c :: t =>
      if inside
      then if chr_eqb c ">" then drop_markup false t else drop_markup true t
      else if chr_eqb c "<" && existsb (fun x => chr_eqb x ">") t
           then drop_markup true t
           else c :: drop_markup false t
  end.

(** None of the characters of [s] is [a]. *)
Definition free_of (a : ascii) (s : str) : Prop :=
  Forall (fun c => chr_eqb c a = false) s.

(** A crosstable in two pages: the page of one section and the page of all
    sections give different locations, and neither links to the player. *)
Definition section_page : node :=
  Tag (L "[document]") []
    [Tag (L "table") [(L "bgcolor", L "FFFFFF"); (L "width", L "750")]
       [tr [td [] "Location"; td [] "RENO, NV 89501"];
        tr [td [] "Chief TD"; td [] "A. SMITH"]]].

Definition all_sections_page : node :=
  Tag (L "[document]") []
    [Tag (L "table") [(L "bgcolor", L "FFFFFF"); (L "width", L "750")]
       [tr [td [] "Location"; td [] "LAS VEGAS, NV  89103"];
        tr [td [] "Sections"; td [] "3"]]].

Definition two_page_parser : str -> node :=
  fun html => if contains html (L ".0-") then all_sections_page else section_page.

(** A history page of two events.  The link of the first event is the link
    of the player's own page, the link of the second is a crosstable link;
    every page behind them links to the player's page. *)
Definition player_link : str := L "XtblPlr.php?201909151232-001-12641216".

Definition history_row_to (href : string) : node :=
  Tag (L "tr") [(L "bgcolor", L "FFFFC0")]
    [td [] "2019-09-15 201909151232";
     Tag (L "td") [] [Tag (L "a") [(L "href", L href)]
                        [NavigableString (L "FALL OPEN")]];
     td [] "1294 => 1451"; td [] " "; td [] " "].

Definition two_event_history : node :=
  Tag (L "[document]") []
    [Tag (L "table") []
       [history_row_to "XtblPlr.php?201909151232-001-12641216";
        history_row_to "XtblMain.php?201909151232-12641216"]].

Definition refetch_events : list event :=
  parse_tournament_list_soup two_event_history.

Definition refetch_parser : str -> node :=
  fun html =>
    if contains html (L "MbrDtlTnmtHst.php?") then two_event_history
    else crosstable_page.

Definition refetch_run : outcome (list row * list game_row) * world :=
  main refetch_parser echo_network (L "12641216") None 15 3 world0.

(** The number of requests for [url] among the events of a run. *)
Definition gets_of (url : str) (log : list io_event) : nat :=
  length (List.filter (fun e => match e with
                                | Get u _ => str_eqb u url
                                | Sleep _ => false
                                end) log).

(** * Properties *)

(** ** First checks of the model *)

Example re_demo :
  option_map group0 (re_search (Seqs [Lit (L "ab"); Star isdecimal]) (L "xxab12c"))
  = Some (L "ab12").
Proof. reflexivity. Qed.


Example parse_rating_pair_doc :
  parse_rating_pair (L "1294 =>1451") = (L "1294", L "1451").
Proof. reflexivity. Qed.


(** ** Characters and strings *)

Lemma chr_eqb_eq a b : chr_eqb a b = true <-> a = b.
Proof.
  unfold chr_eqb, code. rewrite N.eqb_eq. split; [|congruence].
  intros H. rewrite <- (ascii_N_embedding a), <- (ascii_N_embedding b). congruence.
Qed.

Lemma chr_eqb_refl a : chr_eqb a a = true.
Proof. by apply chr_eqb_eq. Qed.

Lemma str_eqb_eq a b : str_eqb a b = true <-> a = b.
Proof.
  revert b. induction a as [|x a IH]; intros [|y b]; simpl; try (split; congruence).
  rewrite andb_true_iff, chr_eqb_eq, IH. split; [intros [-> ->]|intros [= -> ->]]; done.
Qed.

Lemma str_eqb_refl a : str_eqb a a = true.
Proof. by apply str_eqb_eq. Qed.

Lemma rev_cons_app {A} (c : A) pre b : rev (c :: pre) ++ b = rev pre ++ c :: b.
Proof. simpl. by rewrite <- List.app_assoc. Qed.

(** ** The matcher *)

Lemma star_last p : forall a b g,
  exists longer, star p b a g = longer ++ [MState b a g].
Proof.
  intros [|c t] b g; simpl.
  - by exists [].
  - destruct (p c); [by eexists|by exists []].
Qed.

Lemma star_in p st g : forall a b,
  In st (star p b a g) <->
  exists pre post, a = pre ++ post /\ all p pre /\ st = MState (rev pre ++ b) post g.
Proof.
  induction a as [|c t IH]; intros b; simpl.
  - split.
    + intros [<-|[]]. exists [], []. repeat split. constructor.
    + intros (pre & post & H & _ & ->). destruct pre; [|discriminate].
      simpl in H. subst. by left.
  - assert (Hz : forall pre post, c :: t = pre ++ post -> all p pre ->
              pre = [] \/ exists pre', pre = c :: pre' /\ t = pre' ++ post /\
                                       p c = true /\ all p pre').
    { intros [|c' pre'] post H Ha; [by left|right]. injection H as -> ->.
      inversion Ha; subst. eauto. }
    destruct (p c) eqn:Hp.
    + rewrite in_app_iff, IH. simpl. split.
      * intros [(pre & post & -> & Ha & ->)|[<-|[]]].
        -- exists (c :: pre), post. rewrite rev_cons_app. repeat split; auto.
           by constructor.
        -- exists [], (c :: t). repeat split. constructor.
      * intros (pre & post & H & Ha & ->).
        destruct (Hz _ _ H Ha) as [->|(pre' & -> & -> & _ & Ha')].
        -- simpl in H. subst. right. by left.
        -- left. exists pre', post. rewrite rev_cons_app. auto.
    + split.
      * intros [<-|[]]. exists [], (c :: t). repeat split. constructor.
      * intros (pre & post & H & Ha & ->).
        destruct (Hz _ _ H Ha) as [->|(pre' & -> & -> & Hc & _)]; [|congruence].
        simpl in H. subst. by left.
Qed.

(** Later alternatives of a greedy run are shorter. *)
Lemma star_order p g : forall a b l1 x l2,
  star p b a g = l1 ++ x :: l2 ->
  forall z, In z l1 -> length (m_before x) < length (m_before z).
Proof.
  induction a as [|c t IH]; intros b l1 x l2; simpl.
  - destruct l1 as [|? [|]]; simpl; intros [= ]; intros z [].
  - assert (Hone : forall y : mstate, [y] = l1 ++ x :: l2 -> forall z, In z l1 -> length (m_before x) < length (m_before z)).
    { intros y H. destruct l1 as [|? l1]; [intros z []|].
      injection H as _ H. by destruct l1. }
    destruct (p c) eqn:Hp; [|apply Hone].
    intros H z Hz.
    destruct (star_last p t (c :: b) g) as [longer Hl].
    destruct l2 as [|y l2'] using rev_ind.
    + (* x is the last element *)
      apply app_inj_tail in H as [H <-]. simpl.
      rewrite <- H in Hz. apply star_in in Hz as (pre & post & _ & _ & ->). simpl.
      rewrite length_app. simpl. lia.
    + clear IHl2'. rewrite app_comm_cons, List.app_assoc in H.
      apply app_inj_tail in H as [H _]. eapply IH; eauto.
Qed.

Lemma hd_flat_map_skip {A B} (F : A -> list B) l1 x l2 :
  (forall z, In z l1 -> F z = []) ->
  flat_map F (l1 ++ x :: l2) = F x ++ flat_map F l2.
Proof.
  intros H. rewrite flat_map_app. simpl.
  replace (flat_map F l1) with (@nil B); [done|].
  symmetry. induction l1 as [|a l1 IH]; simpl; [done|].
  rewrite H by (by left). simpl. apply IH. intros; apply H. by right.
Qed.

Lemma flat_map_nil_iff {A B} (F : A -> list B) l :
  flat_map F l = [] <-> forall z, In z l -> F z = [].
Proof.
  induction l as [|a l IH]; simpl.
  - split; [intros _ z []|done].
  - split.
    + intros H. apply app_eq_nil in H as [H1 H2]. intros z [<-|Hz]; auto. by apply IH.
    + intros H. rewrite (H a) by (by left). simpl. apply IH. intros; apply H; by right.
Qed.

Lemma flat_map_hd_inv {A B} (F : A -> list B) l y ys :
  flat_map F l = y :: ys ->
  exists l1 x l2 ys', l = l1 ++ x :: l2 /\ (forall z, In z l1 -> F z = []) /\
                      F x = y :: ys'.
Proof.
  induction l as [|a l IH]; simpl; [discriminate|].
  destruct (F a) as [|y' ys'] eqn:E; simpl.
  - intros H. destruct (IH H) as (l1 & x & l2 & ys2 & -> & Hn & Hx).
    exists (a :: l1), x, l2, ys2. repeat split; auto.
    intros z [<-|Hz]; auto.
  - intros [= -> <-]. exists [], a, l, ys'. repeat split; auto. intros z [].
Qed.


(** A greedy run over a whole block of class characters: the first
    alternative takes the block, every later one stops before a class
    character. *)
Lemma star_run p g : forall pre b post,
  all p pre -> next_in p post = false ->
  exists tl, star p b (pre ++ post) g = MState (rev pre ++ b) post g :: tl /\
             forall z, In z tl -> next_in p (m_after z) = true.
Proof.
  induction pre as [|c pre IH]; intros b post Ha Hn.
  - simpl. exists []. split; [|intros z []].
    destruct post as [|c t]; simpl in *; [done|]. by rewrite Hn.
  - inversion Ha as [|? ? Hc Ha']; subst. simpl app. cbn [star]. rewrite Hc.
    destruct (IH (c :: b) post Ha' Hn) as (tl & -> & Htl).
    exists (tl ++ [MState b (c :: pre ++ post) g]). split.
    + simpl. by rewrite <- List.app_assoc.
    + intros z Hz. apply in_app_iff in Hz as [Hz|[<-|[]]]; auto.
Qed.

Lemma firstn_length_minus {A} (l : list A) : firstn (length l - 0) l = l.
Proof. rewrite Nat.sub_0_r. apply firstn_all. Qed.

Lemma firstn_rev_app {A} (ds b : list A) :
  rev (firstn (length (rev ds ++ b) - length b) (rev ds ++ b)) = ds.
Proof.
  rewrite length_app, Nat.add_sub, take_app_length. apply rev_involutive.
Qed.

(** Unfolding equations of the matcher. *)
Lemma exec_seq a b st : exec (Seq a b) st = flat_map (exec b) (exec a st).
Proof. reflexivity. Qed.

Lemma exec_chr p b c t g :
  exec (Chr p) (MState b (c :: t) g) = if p c then [MState (c :: b) t g] else [].
Proof. reflexivity. Qed.

Lemma exec_chr_nil p b g : exec (Chr p) (MState b [] g) = [].
Proof. reflexivity. Qed.

Lemma exec_grp n r st : exec (Grp n r) st = map (close_group n st) (exec r st).
Proof. reflexivity. Qed.

Lemma exec_star p b a g : exec (Star p) (MState b a g) = star p b a g.
Proof. reflexivity. Qed.

Lemma flat_map_one {A B} (f : A -> list B) x : flat_map f [x] = f x.
Proof. simpl. apply app_nil_r. Qed.

Lemma is_chr_true a c : is_chr a c = true <-> c = a.
Proof. unfold is_chr. apply chr_eqb_eq. Qed.

Lemma is_chr_refl a : is_chr a a = true.
Proof. by apply is_chr_true. Qed.

Lemma name_id_tail_ok b g ds rest :
  ds <> [] -> all isdecimal ds ->
  exec name_id_tail (MState b ("("%char :: ds ++ ")"%char :: rest) g)
  = [MState (")"%char :: rev ds ++ "("%char :: b) rest ((2, ds) :: g)].
Proof.
  intros Hne Ha. destruct ds as [|d ds]; [done|]. inversion Ha as [|? ? Hd Ha']; subst.
  unfold name_id_tail, Plus.
  rewrite exec_seq, exec_chr, is_chr_refl, flat_map_one.
  rewrite exec_seq, exec_grp, exec_seq.
  change ((d :: ds) ++ ")"%char :: rest) with (d :: (ds ++ ")"%char :: rest)).
  rewrite exec_chr, Hd, flat_map_one, exec_star.
  destruct (star_run isdecimal g ds (d :: "("%char :: b) (")"%char :: rest) Ha' eq_refl)
    as (tl & -> & Htl).
  cbn [map flat_map].
  replace (flat_map (exec (Chr (is_chr ")"))) (map _ tl)) with (@nil mstate).
  - rewrite app_nil_r. unfold close_group. cbn [m_after m_before m_groups].
    rewrite exec_chr, is_chr_refl.
    replace (rev ds ++ d :: "("%char :: b) with (rev (d :: ds) ++ "("%char :: b)
      by (simpl; by rewrite <- List.app_assoc).
    by rewrite (firstn_rev_app (d :: ds) ("("%char :: b)).
  - symmetry. apply flat_map_nil_iff. intros z Hz.
    apply in_map_iff in Hz as (z0 & <- & Hz0). apply Htl in Hz0.
    unfold close_group. destruct (m_after z0) as [|c t]; [done|]. simpl in Hz0.
    rewrite exec_chr.
    destruct (is_chr ")" c) eqn:E; [|done].
    apply is_chr_true in E. subst. discriminate.
Qed.

Lemma name_id_tail_inv b g post st :
  In st (exec name_id_tail (MState b post g)) ->
  exists ds rest, post = "("%char :: ds ++ ")"%char :: rest /\ ds <> [] /\ all isdecimal ds.
Proof.
  unfold name_id_tail, Plus. rewrite exec_seq.
  destruct post as [|c post]; [intros []|]. rewrite exec_chr.
  destruct (is_chr "(" c) eqn:Ec; [|intros []]. apply is_chr_true in Ec. subst c.
  rewrite flat_map_one, exec_seq, exec_grp, exec_seq. intros H.
  apply in_flat_map in H as (z & Hz & H).
  apply in_map_iff in Hz as (z0 & <- & Hz0).
  destruct post as [|d post]; [destruct Hz0|]. rewrite exec_chr in Hz0.
  destruct (isdecimal d) eqn:Hd; [|destruct Hz0].
  rewrite flat_map_one, exec_star in Hz0.
  apply star_in in Hz0 as (pre & post' & -> & Ha & ->).
  unfold close_group in H. cbn [m_after m_before m_groups] in H.
  destruct post' as [|c t]; [destruct H|]. rewrite exec_chr in H.
  destruct (is_chr ")" c) eqn:Ec; [|destruct H]. apply is_chr_true in Ec. subst c.
  exists (d :: pre), t. repeat split; [done|by constructor].
Qed.


(** ** Stripping *)

Lemma lstrip_id s : next_in isspace s = false -> lstrip s = s.
Proof. destruct s as [|c t]; simpl; [done|]. by intros ->. Qed.

Lemma strip_id s :
  next_in isspace s = false -> next_in isspace (rev s) = false -> strip s = s.
Proof.
  intros H1 H2. unfold strip, rstrip.
  rewrite (lstrip_id (rev s)) by done. rewrite rev_involutive. by apply lstrip_id.
Qed.

Lemma digit_not_space c : isdecimal c = true -> isspace c = false.
Proof.
  unfold isdecimal, isspace, in_range, is_code.
  rewrite !andb_true_iff, !N.leb_le. intros [H1 H2].
  repeat (apply orb_false_intro); try apply andb_false_iff;
    rewrite ?N.leb_gt, ?N.eqb_neq; lia.
Qed.

Lemma strip_digits ds : all isdecimal ds -> strip ds = ds.
Proof.
  intros Ha. apply strip_id.
  - destruct Ha; simpl; [done|]. by apply digit_not_space.
  - assert (Hr : all isdecimal (rev ds)) by (by apply Forall_rev).
    destruct Hr; simpl; [done|]. by apply digit_not_space.
Qed.

(** ** The embedded id *)

Lemma name_id_exec s :
  exec re_name_id (MState [] s [])
  = flat_map (exec name_id_tail)
             (map (close_group 1 (MState [] s [])) (star dot [] s [])).
Proof.
  unfold re_name_id. cbn [Seqs]. rewrite exec_seq.
  change (exec Bol (MState [] s [])) with [MState [] s []].
  rewrite flat_map_one. rewrite exec_seq, exec_grp, exec_star. reflexivity.
Qed.

Lemma close_group_start n s pre post :
  close_group n (MState [] s []) (MState (rev pre) post [])
  = MState (rev pre) post [(n, pre)].
Proof.
  unfold close_group. cbn [m_before m_after m_groups length].
  by rewrite firstn_length_minus, rev_involutive.
Qed.

Lemma paren_not_digit : isdecimal "(" = false /\ isdecimal ")" = false.
Proof. split; reflexivity. Qed.

(** A group that starts after the opening parenthesis of a group lies behind
    that group. *)
Lemma later_group_in_rest a ds rest pre' ds' rest' :
  a ++ "("%char :: ds ++ ")"%char :: rest = pre' ++ "("%char :: ds' ++ ")"%char :: rest' ->
  length a < length pre' -> all isdecimal ds -> ds' <> [] -> all isdecimal ds' ->
  has_id_group rest.
Proof.
  intros H Hl Ha Hne Ha'.
  apply app_eq_inv in H as [(k & -> & Hk)|(k & -> & Hk)].
  { rewrite length_app in Hl. lia. }
  destruct k as [|c k]; [rewrite length_app in Hl; simpl in Hl; lia|].
  injection Hk as <- Hk.
  apply app_eq_inv in Hk as [(k2 & -> & Hk)|(k2 & -> & Hk)].
  - apply Forall_app in Ha as [_ Ha2].
    destruct k2 as [|c k2].
    + simpl in Hk. discriminate.
    + injection Hk as <- _. inversion Ha2; subst. discriminate.
  - destruct k2 as [|c k2].
    + simpl in Hk. discriminate.
    + injection Hk as <- ->. exists k2, ds', rest'. auto.
Qed.

Lemma name_id_match a ds rest :
  ds <> [] -> all isdecimal ds -> all dot a -> ~ has_id_group rest ->
  exists st more,
    exec re_name_id (MState [] (a ++ "("%char :: ds ++ ")"%char :: rest) [])
    = st :: more /\ m_groups st = [(2, ds); (1, a)].
Proof.
  intros Hne Hd Ha Hno. rewrite name_id_exec.
  set (s := a ++ "("%char :: ds ++ ")"%char :: rest).
  set (x := MState (rev a ++ []) ("("%char :: ds ++ ")"%char :: rest) []).
  assert (Hx : In x (star dot [] s [])).
  { apply star_in. exists a, ("("%char :: ds ++ ")"%char :: rest). auto. }
  apply in_split in Hx as (l1 & l2 & Hs). rewrite Hs, map_app, map_cons.
  rewrite hd_flat_map_skip.
  - unfold x. rewrite app_nil_r, close_group_start.
    rewrite name_id_tail_ok by done. eexists _, _. split; [reflexivity|]. reflexivity.
  - intros z Hz. apply in_map_iff in Hz as (z0 & <- & Hz0).
    pose proof (star_order _ _ _ _ _ _ _ Hs z0 Hz0) as Hlen.
    assert (Hin : In z0 (star dot [] s [])) by (rewrite Hs; apply in_app_iff; by left).
    apply star_in in Hin as (pre' & post' & Hsplit & _ & ->).
    rewrite app_nil_r, close_group_start.
    destruct (exec name_id_tail _) as [|st more] eqn:E; [done|exfalso].
    assert (Hst : In st (exec name_id_tail (MState (rev pre') post' [(1, pre')])))
      by (rewrite E; by left).
    apply name_id_tail_inv in Hst as (ds' & rest' & -> & Hne' & Hd').
    apply Hno. eapply (later_group_in_rest a ds rest pre'); eauto.
    unfold x in Hlen. cbn [m_before] in Hlen.
    rewrite !length_app, !length_rev in Hlen. simpl in Hlen. lia.
Qed.

Lemma name_id_no_match s :
  ~ has_id_group s -> exec re_name_id (MState [] s []) = [].
Proof.
  intros Hno. rewrite name_id_exec. apply flat_map_nil_iff. intros z Hz.
  apply in_map_iff in Hz as (z0 & <- & Hz0).
  apply star_in in Hz0 as (pre & post & -> & _ & ->).
  rewrite app_nil_r, close_group_start.
  destruct (exec name_id_tail _) as [|st more] eqn:E; [done|exfalso].
  assert (Hst : In st (exec name_id_tail (MState (rev pre) post [(1, pre)])))
    by (rewrite E; by left).
  apply name_id_tail_inv in Hst as (ds' & rest' & -> & Hne' & Hd').
  apply Hno. exists pre, ds', rest'. auto.
Qed.

(** C7 (amended). The id is read from the last parenthesised run of digits of
    the text, wherever it stands: the name is the text before that group,
    stripped, and whatever follows the group is dropped.  A text that ends
    with its only such group is the case of a trailing suffix.  A text
    without any parenthesised run of digits comes back unchanged with an
    empty id. *)
Theorem extract_embedded_id_last_group :
  (forall a ds rest,
     ds <> [] -> all isdecimal ds -> all dot a -> ~ has_id_group rest ->
     extract_embedded_id (a ++ "("%char :: ds ++ ")"%char :: rest) = (strip a, ds))
  /\ (forall s, ~ has_id_group s -> extract_embedded_id s = (s, [])).
Proof.
  split.
  - intros a ds rest Hne Hd Ha Hno.
    destruct (name_id_match a ds rest Hne Hd Ha Hno) as (st & more & E & Hg).
    unfold extract_embedded_id, re_match, try_at. rewrite E.
    unfold group. cbn [mo_end]. rewrite Hg. cbn [assoc_nat Nat.eqb].
    by rewrite (strip_digits ds).
  - intros s Hno. unfold extract_embedded_id, re_match, try_at.
    by rewrite name_id_no_match.
Qed.

Lemma no_group_nil : ~ has_id_group [].
Proof. intros (a & ds & rest & H & _). by destruct a. Qed.

Lemma no_group_without_paren s :
  existsb (chr_eqb "(") s = false -> ~ has_id_group s.
Proof.
  intros H (a & ds & rest & -> & _). rewrite existsb_app in H. simpl in H.
  by rewrite orb_true_r in H.
Qed.

Lemma extract_embedded_id_last_group_witness :
  extract_embedded_id (L "MARK E FRASER (12476390)") = (L "MARK E FRASER", L "12476390")
  /\ extract_embedded_id (L "JOHN (123) DOE") = (L "JOHN", L "123")
  /\ extract_embedded_id (L "NO ID HERE") = (L "NO ID HERE", []).
Proof.
  destruct extract_embedded_id_last_group as [H1 H2].
  split; [|split].
  - apply (H1 (L "MARK E FRASER ") (L "12476390") []).
    + discriminate.
    + repeat constructor.
    + repeat constructor.
    + apply no_group_nil.
  - apply (H1 (L "JOHN ") (L "123") (L " DOE")).
    + discriminate.
    + repeat constructor.
    + repeat constructor.
    + by apply no_group_without_paren.
  - apply (H2 (L "NO ID HERE")). by apply no_group_without_paren.
Defined.

(** C7 as stated fails: a text whose digits in parentheses are not at the
    end has no trailing suffix, yet it comes back changed and with an id. *)
Lemma extract_embedded_id_not_only_trailing :
  ~ has_id_suffix (L "JOHN (123) DOE")
  /\ extract_embedded_id (L "JOHN (123) DOE") = (L "JOHN", L "123")
  /\ extract_embedded_id (L "JOHN (123) DOE") <> (L "JOHN (123) DOE", []).
Proof.
  split; [|split].
  - intros (name & ds & H & _).
    apply (f_equal (@rev ascii)) in H.
    rewrite rev_app_distr in H. simpl in H. rewrite rev_app_distr in H. simpl in H.
    discriminate.
  - reflexivity.
  - discriminate.
Qed.


Lemma lstrip_head s : next_in isspace (lstrip s) = false.
Proof.
  induction s as [|c t IH]; simpl; [done|].
  destruct (isspace c) eqn:E; [done|]. simpl. done.
Qed.

Lemma lstrip_suffix s : exists pre, s = pre ++ lstrip s.
Proof.
  induction s as [|c t [pre IH]]; simpl; [by exists []|].
  destruct (isspace c); [|by exists []].
  exists (c :: pre). simpl. by f_equal.
Qed.

(** Stripped text neither starts nor ends with whitespace. *)
Lemma strip_head s : next_in isspace (strip s) = false.
Proof. apply lstrip_head. Qed.

Lemma strip_last s : next_in isspace (rev (strip s)) = false.
Proof.
  unfold strip. destruct (lstrip_suffix (rstrip s)) as [pre Hpre].
  destruct (lstrip (rstrip s)) as [|c t] eqn:E; [done|].
  assert (H : next_in isspace (rev (rstrip s)) = false).
  { unfold rstrip. rewrite rev_involutive. apply lstrip_head. }
  rewrite Hpre, rev_app_distr in H.
  destruct (rev (c :: t)) as [|x xs] eqn:Er; [|done].
  apply (f_equal (@length _)) in Er. rewrite length_rev in Er. discriminate.
Qed.

(** ** The result pattern *)

Lemma re_result_exec s :
  exec re_result (MState [] s [])
  = match s with
    | c :: t =>
        if result_letter c
        then flat_map (fun st => flat_map (exec Eol) (exec (Star isdecimal) st))
                      (star isspace [c] t [])
        else []
    | [] => []
    end.
Proof.
  unfold re_result. cbn [Seqs]. rewrite exec_seq.
  change (exec Bol (MState [] s [])) with [MState [] s []].
  rewrite flat_map_one, exec_seq. destruct s as [|c t]; [done|].
  rewrite exec_chr. fold result_letter. destruct (result_letter c); [|done].
  rewrite flat_map_one, exec_seq, exec_star. apply flat_map_ext. intros st.
  by rewrite exec_seq.
Qed.

Lemma is_code_10 c : is_code 10 c = true <-> c = newline.
Proof.
  unfold is_code, code. rewrite N.eqb_eq. split.
  - intros H. rewrite <- (ascii_N_embedding c), H. reflexivity.
  - by intros ->.
Qed.

Lemma re_result_match s :
  is_match (re_match re_result s) = true <->
  exists c ws ds tail, s = c :: ws ++ ds ++ tail /\ result_letter c = true /\
    all isspace ws /\ all isdecimal ds /\ (tail = [] \/ tail = [newline]).
Proof.
  unfold re_match, try_at. rewrite re_result_exec. split.
  - destruct s as [|c t]; [discriminate|].
    destruct (result_letter c) eqn:Hc; [|discriminate].
    destruct (flat_map _ _) as [|st more] eqn:E; [discriminate|]. intros _.
    assert (Hin : In st (st :: more)) by (by left). rewrite <- E in Hin.
    apply in_flat_map in Hin as (z & Hz & Hin).
    apply in_flat_map in Hin as (z2 & Hz2 & Hin).
    apply star_in in Hz as (ws & post & -> & Hws & ->).
    rewrite exec_star in Hz2.
    apply star_in in Hz2 as (ds & tail & -> & Hds & ->).
    exists c, ws, ds, tail. repeat split; auto.
    cbn [exec m_after] in Hin. destruct tail as [|x [|]]; auto.
    + destruct (is_code 10 x) eqn:Ex; [|destruct Hin]. apply is_code_10 in Ex.
      subst. by right.
    + destruct Hin.
  - intros (c & ws & ds & tail & -> & Hc & Hws & Hds & Htail). rewrite Hc.
    set (final := MState (rev ds ++ rev ws ++ [c]) tail []).
    assert (Hin : In final
      (flat_map (fun st => flat_map (exec Eol) (exec (Star isdecimal) st))
                (star isspace [c] (ws ++ ds ++ tail) []))).
    { apply in_flat_map. exists (MState (rev ws ++ [c]) (ds ++ tail) []). split.
      - apply star_in. eauto.
      - apply in_flat_map. exists final. split.
        + rewrite exec_star. apply star_in. eauto.
        + unfold final. cbn [exec m_after].
          destruct Htail as [->| ->]; [by left|]. simpl. by left. }
    destruct (flat_map _ _); [destruct Hin|done].
Qed.

Lemma newline_space : isspace newline = true.
Proof. reflexivity. Qed.

(** On text without trailing whitespace the pattern is the shape. *)
Lemma re_result_shape s :
  next_in isspace (rev s) = false ->
  (is_match (re_match re_result s) = true <-> result_code_shape s).
Proof.
  intros Hlast. rewrite re_result_match. split.
  - intros (c & ws & ds & tail & -> & Hc & Hws & Hds & [->| ->]).
    + rewrite app_nil_r. by exists c, ws, ds.
    + exfalso. rewrite app_comm_cons, !List.app_assoc, rev_app_distr in Hlast.
      simpl in Hlast. discriminate.
  - intros (c & ws & ds & -> & Hc & Hws & Hds).
    exists c, ws, ds, []. rewrite app_nil_r. repeat split; auto.
Qed.

(** ** The first token *)

Lemma split_ws_aux_run blk : forall cur post,
  Forall (fun c => isspace c = false) blk ->
  split_ws_aux cur (blk ++ post) = split_ws_aux (rev blk ++ cur) post.
Proof.
  induction blk as [|c blk IH]; intros cur post Hr; [done|].
  inversion Hr; subst. simpl app at 1. cbn [split_ws_aux].
  rewrite H1, IH by done. by rewrite rev_cons_app.
Qed.

Lemma split_ws_aux_emit cur post :
  cur <> [] -> (post = [] \/ next_in isspace post = true) ->
  exists more, split_ws_aux cur post = rev cur :: more.
Proof.
  intros Hne [->|Hsp].
  - simpl. destruct cur; [done|]. by eexists.
  - destruct post as [|c t]; [discriminate|]. simpl in Hsp. simpl. rewrite Hsp.
    destruct cur; [done|]. by eexists.
Qed.

Lemma result_letter_not_space c : result_letter c = true -> isspace c = false.
Proof.
  destruct c as [[] [] [] [] [] [] [] []]; vm_compute; congruence.
Qed.

(** The first token of a first column of the right shape. *)
Lemma first_token_shape c ws ds :
  result_letter c = true -> all isspace ws -> all isdecimal ds ->
  first_token (c :: ws ++ ds) = match ws with [] => c :: ds | _ => [c] end.
Proof.
  intros Hc Hws Hds. unfold first_token, split_ws.
  cbn [split_ws_aux]. rewrite (result_letter_not_space c Hc).
  destruct ws as [|w ws].
  - simpl app. rewrite <- (app_nil_r ds) at 1.
    rewrite split_ws_aux_run.
    + destruct (split_ws_aux_emit (rev ds ++ [c]) []) as [more ->]; auto.
      { by destruct (rev ds). }
      simpl. rewrite rev_app_distr, rev_involutive. done.
    + eapply Forall_impl; [exact Hds|]. intros x. apply digit_not_space.
  - inversion Hws; subst.
    destruct (split_ws_aux_emit [c] ((w :: ws) ++ ds)) as [more ->]; auto.
Qed.


(** ** Rows of the games table *)

Lemma row_game_gate tr :
  row_game tr = if shape_gate (text_cols_of tr)
                then Some (game_of_cols (text_cols_of tr)) else None.
Proof.
  unfold row_game, text_cols_of.
  destruct (find_all_direct (L "td") tr) eqn:E; [reflexivity|]. reflexivity.
Qed.

Lemma col_stripped i tr : next_in isspace (rev (col i (text_cols_of tr))) = false.
Proof.
  unfold col, text_cols_of.
  destruct (nth_in_or_default i (map cell_text (remove_filler (find_all_direct (L "td") tr))) [])
    as [Hin| ->]; [|done].
  apply in_map_iff in Hin as (x & <- & _). unfold cell_text. apply strip_last.
Qed.

Lemma shape_gate_spec tr :
  shape_gate (text_cols_of tr) = true <->
  length (text_cols_of tr) = 6 /\ result_code_shape (col 0 (text_cols_of tr)).
Proof.
  unfold shape_gate. rewrite andb_true_iff, Nat.eqb_eq.
  by rewrite (re_result_shape _ (col_stripped 0 tr)).
Qed.


Lemma games_of_rows_in rows g :
  In g (games_of_rows rows) <-> exists tr, In tr rows /\ row_game tr = Some g.
Proof.
  induction rows as [|tr rows IH]; simpl.
  - split; [intros []|by intros (? & [] & _)].
  - destruct (row_game tr) as [g'|] eqn:E; simpl; rewrite IH; split.
    + intros [<-|(tr' & H1 & H2)]; eauto.
    + intros (tr' & [<-|H1] & H2); [left; congruence|eauto].
    + intros (tr' & H1 & H2); eauto.
    + intros (tr' & [<-|H1] & H2); [congruence|eauto].
Qed.

Lemma row_game_some_iff tr :
  (exists g, row_game tr = Some g) <->
  length (text_cols_of tr) = 6 /\ result_code_shape (col 0 (text_cols_of tr)).
Proof.
  rewrite <- shape_gate_spec, row_game_gate.
  destruct (shape_gate (text_cols_of tr)); split; eauto.
  - by intros [g Hg].
  - discriminate.
Qed.



Example spec_row_game :
  row_game spec_row
  = Some {| result := L "W"; color := L "B"; opp_score := L "1.0";
            opp_pre := L "1200"; opp_post := L "1215";
            opp_name := L "JOHN DOE"; opp_id := L "123456" |}.
Proof. reflexivity. Qed.

Example seven_column_row_skipped :
  length (text_cols_of seven_column_row) = 7 /\ row_game seven_column_row = None.
Proof. split; reflexivity. Qed.

(** C1 (amended). The result field of a game record is the first
    whitespace-delimited token of the row's first column.  It starts with the
    result letter exactly as the page writes it, upper or lower case; it is
    that one letter when whitespace or nothing follows the letter, and the
    letter with the digits when the digits follow it directly. *)
Theorem result_is_first_token games_table pass_label g :
  In g (parse_games_in_table games_table pass_label) ->
  exists tr c ws ds,
    In tr (find_all (L "tr") games_table) /\ row_game tr = Some g /\
    col 0 (text_cols_of tr) = c :: ws ++ ds /\
    result_letter c = true /\ all isspace ws /\ all isdecimal ds /\
    result g = match ws with [] => c :: ds | _ => [c] end.
Proof.
  unfold parse_games_in_table. rewrite games_of_rows_in.
  intros (tr & Hin & Hg). exists tr.
  assert (Hsh : exists g, row_game tr = Some g) by eauto.
  apply row_game_some_iff in Hsh as (Hlen & c & ws & ds & Hcol & Hc & Hws & Hds).
  exists c, ws, ds. repeat split; auto.
  rewrite row_game_gate in Hg.
  destruct (shape_gate (text_cols_of tr)); [|discriminate].
  injection Hg as <-. unfold game_of_cols.
  destruct (extract_embedded_id _). cbn [result]. rewrite Hcol.
  by apply first_token_shape.
Qed.

Lemma result_is_first_token_witness :
  let g := {| result := L "W"; color := L "B"; opp_score := L "1.0";
              opp_pre := L "1200"; opp_post := L "1215";
              opp_name := L "JOHN DOE"; opp_id := L "123456" |} in
  In g (parse_games_in_table (Tag (L "table") [] [spec_row]) (L "Pass1")) /\
  exists tr c ws ds,
    In tr (find_all (L "tr") (Tag (L "table") [] [spec_row])) /\
    row_game tr = Some g /\
    col 0 (text_cols_of tr) = c :: ws ++ ds /\
    result_letter c = true /\ all isspace ws /\ all isdecimal ds /\
    result g = match ws with [] => c :: ds | _ => [c] end.
Proof.
  intros g. split.
  - left. reflexivity.
  - apply (result_is_first_token (Tag (L "table") [] [spec_row]) (L "Pass1") g).
    left. reflexivity.
Defined.

(** C1 as stated fails: the result is neither reduced to the letter nor
    put in upper case. *)
Lemma result_not_normalised :
  map result (parse_games_in_table table_with_odd_codes (L "Pass1"))
  = [L "W1"; L "d"]
  /\ is_result_code (L "W1") = false /\ is_result_code (L "d") = false.
Proof. repeat split; reflexivity. Qed.


(** ** The rating-resolution step of [main] *)

Lemma set_player_ratings_before (my_pre my_post : str) (r : row) :
  set_player_ratings my_pre my_post r !! L "reg_before"
  = if truthy my_pre then Some my_pre else r !! L "reg_before".
Proof.
  unfold set_player_ratings.
  destruct (truthy my_post), (truthy my_pre);
    rewrite ?lookup_insert_ne by discriminate; rewrite ?lookup_insert_eq; done.
Qed.

Lemma set_player_ratings_after (my_pre my_post : str) (r : row) :
  set_player_ratings my_pre my_post r !! L "reg_after"
  = if truthy my_post then Some my_post else r !! L "reg_after".
Proof.
  unfold set_player_ratings.
  destruct (truthy my_post), (truthy my_pre);
    rewrite ?lookup_insert_eq; rewrite ?lookup_insert_ne by discriminate; done.
Qed.

Lemma set_player_ratings_frame (my_pre my_post : str) (r : row) (k : str) :
  k <> L "reg_before" -> k <> L "reg_after" ->
  set_player_ratings my_pre my_post r !! k = r !! k.
Proof.
  intros H1 H2. unfold set_player_ratings.
  destruct (truthy my_post), (truthy my_pre);
    rewrite ?lookup_insert_ne by done; done.
Qed.

Lemma set_summary_fields_frame (cdata : crosstable) (r : row) (k : str) :
  k <> L "location" -> k <> L "event_date(s)" -> k <> L "chief_td" ->
  set_summary_fields cdata r !! k = r !! k.
Proof.
  intros H1 H2 H3. unfold set_summary_fields. by rewrite !lookup_insert_ne.
Qed.

(** C10. The two assignments of the player-page ratings are each guarded by
    the value being non-empty: a non-empty rating replaces the regular
    rating of the tournament list, an empty one leaves it, and no other key
    of the row changes.  In the row [main] ends up with, the quick and blitz
    pairs, the event name, the end date and the ids are those of the
    tournament list. *)
Theorem player_ratings_guarded_overwrite :
  (forall (my_pre my_post : str) (r : row),
     let r' := set_player_ratings my_pre my_post r in
     r' !! L "reg_before" = (if truthy my_pre then Some my_pre else r !! L "reg_before")
     /\ r' !! L "reg_after" = (if truthy my_post then Some my_post else r !! L "reg_after")
     /\ forall k, k <> L "reg_before" -> k <> L "reg_after" -> r' !! k = r !! k)
  /\ (forall (player_id : str) (ev : event) (cdata : crosstable),
        let r := set_player_ratings (player_rating_pre cdata) (player_rating_post cdata)
                   (set_summary_fields cdata (initial_row player_id ev)) in
        r !! L "reg_before"
          = Some (if truthy (player_rating_pre cdata) then player_rating_pre cdata
                  else ev_reg_before ev)
        /\ r !! L "reg_after"
          = Some (if truthy (player_rating_post cdata) then player_rating_post cdata
                  else ev_reg_after ev)
        /\ r !! L "quick_before" = Some (ev_quick_before ev)
        /\ r !! L "quick_after" = Some (ev_quick_after ev)
        /\ r !! L "blitz_before" = Some (ev_blitz_before ev)
        /\ r !! L "blitz_after" = Some (ev_blitz_after ev)
        /\ r !! L "event_name" = Some (ev_event_name ev)
        /\ r !! L "end_date" = Some (ev_end_date ev)
        /\ r !! L "event_id" = Some (ev_event_id ev)
        /\ r !! L "player_id" = Some player_id)
  /\ (forall BeautifulSoup requests_get (player_id : str) timeout_sec max_retries
             (ev : event) (w w' : world) (r : row) (gms : list game_row),
        main_event BeautifulSoup requests_get player_id timeout_sec max_retries
                   ev w = (Return (r, gms), w') ->
        exists cdata : crosstable,
          r = set_player_ratings (player_rating_pre cdata) (player_rating_post cdata)
                (set_summary_fields cdata (initial_row player_id ev))).
Proof.
  split; [|split].
  - intros my_pre my_post r r'. subst r'. split; [|split].
    + apply set_player_ratings_before.
    + apply set_player_ratings_after.
    + intros k. apply set_player_ratings_frame.
  - intros player_id ev cdata r. subst r.
    rewrite set_player_ratings_before, set_player_ratings_after.
    rewrite !set_player_ratings_frame by discriminate.
    rewrite !set_summary_fields_frame by discriminate.
    unfold initial_row.
    repeat split; try (destruct (truthy _)); try reflexivity.
  - intros BeautifulSoup requests_get player_id timeout_sec max_retries ev w w' r gms.
    unfold main_event, bind.
    destruct ((if truthy (ev_xlink ev)
               then parse_crosstable BeautifulSoup requests_get (ev_xlink ev)
                      player_id timeout_sec max_retries
               else ret empty_crosstable) w) as [[cdata|e] w1]; [|discriminate].
    unfold ret. intros [= <- _ _]. by exists cdata.
Qed.

Lemma player_ratings_guarded_overwrite_witness :
  let r := initial_row (L "12641216")
             (Event (L "2019-09-15") (L "201909151232") (L "OPEN") (L "1294")
                    (L "1451") [] [] [] [] (L "XtblMain.php?201909151232-12641216")) in
  set_player_ratings (L "1300") [] r !! L "quick_before" = r !! L "quick_before".
Proof.
  intros r.
  apply (proj2 (proj2 (proj1 player_ratings_guarded_overwrite (L "1300") [] r)));
    discriminate.
Defined.


(** ** The player rating extractor *)

Lemma first_hit_app {A B} (f : A -> option B) l1 l2 :
  first_hit f (l1 ++ l2)
  = match first_hit f l1 with Some y => Some y | None => first_hit f l2 end.
Proof.
  induction l1 as [|x l1 IH]; [done|]. simpl. destruct (f x); [done|apply IH].
Qed.

Lemma first_hit_flat_map {A B C} (f : B -> option C) (rows : A -> list B) l :
  first_hit (fun t => first_hit f (rows t)) l = first_hit f (flat_map rows l).
Proof.
  induction l as [|t l IH]; [done|]. simpl. rewrite first_hit_app, IH. done.
Qed.

Lemma first_hit_none {A B} (f : A -> option B) l :
  first_hit f l = None <-> forall x, In x l -> f x = None.
Proof.
  induction l as [|x l IH]; simpl.
  - split; [intros _ ? []|done].
  - destruct (f x) eqn:E.
    + split; [discriminate|]. intros H. rewrite <- E. apply H. by left.
    + rewrite IH. split.
      * intros H y [<-|Hy]; auto.
      * intros H y Hy. apply H. by right.
Qed.

Lemma first_hit_first {A B} (f : A -> option B) l1 x l2 y :
  (forall z, In z l1 -> f z = None) -> f x = Some y ->
  first_hit f (l1 ++ x :: l2) = Some y.
Proof.
  intros Hn Hx. rewrite first_hit_app.
  rewrite (proj2 (first_hit_none f l1) Hn). simpl. by rewrite Hx.
Qed.

Lemma rating_of_row_some r_ pre post :
  rating_of_row r_ = Some (pre, post) <->
  exists c0 c1 others mrat,
    remove_filler (find_all_direct (L "td") r_) = c0 :: c1 :: others /\
    lower (get_text [] c0) = L "rating" /\
    re_search re_my_rating (strip (get_text (L " ") c1)) = Some mrat /\
    pre = group 1 mrat /\ post = group 2 mrat.
Proof.
  unfold rating_of_row.
  assert (Hnil : remove_filler [] = []) by reflexivity.
  destruct (find_all_direct (L "td") r_) as [|t0 ts] eqn:Etds.
  { rewrite Hnil. split; [discriminate|]. by intros (? & ? & ? & ? & ? & _). }
  destruct (remove_filler (t0 :: ts)) as [|c0 [|c1 others]].
  1,2: split; [discriminate|]; by intros (? & ? & ? & ? & ? & _).
  destruct (str_eqb (L "rating") (lower (get_text [] c0))) eqn:El.
  - apply str_eqb_eq in El.
    destruct (re_search re_my_rating (strip (get_text (L " ") c1))) as [m|] eqn:Em.
    + split.
      * intros [= <- <-]. by exists c0, c1, others, m.
      * intros (? & ? & ? & m' & [= <- <- <-] & _ & Hm & -> & ->). congruence.
    + split; [discriminate|].
      intros (? & ? & ? & m' & [= <- <- <-] & _ & Hm & _). congruence.
  - split; [discriminate|].
    intros (? & ? & ? & m' & [= <- <- <-] & Hl & _).
    rewrite Hl, str_eqb_refl in El. discriminate.
Qed.

(** ** The first match of a pattern, piece by piece *)

Lemma first_seq r1 r2 st st1 st2 :
  first_is (exec r1 st) st1 -> first_is (exec r2 st1) st2 ->
  first_is (exec (Seq r1 r2) st) st2.
Proof.
  intros [o1 H1] [o2 H2]. rewrite exec_seq, H1. cbn [flat_map]. rewrite H2.
  by eexists.
Qed.

Lemma first_chr p b c t g :
  p c = true -> first_is (exec (Chr p) (MState b (c :: t) g)) (MState (c :: b) t g).
Proof. intros H. rewrite exec_chr, H. by exists []. Qed.

Lemma first_star p b pre post g :
  all p pre -> next_in p post = false ->
  first_is (exec (Star p) (MState b (pre ++ post) g)) (MState (rev pre ++ b) post g).
Proof.
  intros Ha Hn. rewrite exec_star.
  destruct (star_run p g pre b post Ha Hn) as (tl & -> & _). by eexists.
Qed.

Lemma first_grp n r st st' :
  first_is (exec r st) st' -> first_is (exec (Grp n r) st) (close_group n st st').
Proof. intros [o H]. rewrite exec_grp, H. by eexists. Qed.

Lemma first_alt_l r1 r2 st st' :
  first_is (exec r1 st) st' -> first_is (exec (Alt r1 r2) st) st'.
Proof. intros [o H]. cbn [exec]. rewrite H. by eexists. Qed.

Lemma first_alt_r r1 r2 st st' :
  exec r1 st = [] -> first_is (exec r2 st) st' -> first_is (exec (Alt r1 r2) st) st'.
Proof. intros H1 [o H]. cbn [exec]. rewrite H1, H. by eexists. Qed.

Lemma first_plus p b c pre post g :
  p c = true -> all p pre -> next_in p post = false ->
  first_is (exec (Plus p) (MState b (c :: pre ++ post) g))
           (MState (rev pre ++ c :: b) post g).
Proof.
  intros Hc Ha Hn. unfold Plus. eapply first_seq; [by apply first_chr|].
  by apply first_star.
Qed.

Lemma next_in_app p (a b : str) :
  next_in p (a ++ b) = match a with [] => next_in p b | c :: _ => p c end.
Proof. by destruct a. Qed.

Lemma digits_then_not_space (d : str) rest :
  d <> [] -> all isdecimal d -> next_in isspace (d ++ rest) = false.
Proof.
  intros Hne Ha. destruct Ha as [|c d Hc _]; [done|]. simpl. by apply digit_not_space.
Qed.

Lemma space_not_digit c : isspace c = true -> isdecimal c = false.
Proof.
  intros H. destruct (isdecimal c) eqn:E; [|done].
  apply digit_not_space in E. congruence.
Qed.

Lemma spaces_then p (ws rest : str) :
  all isspace ws -> (forall c, isspace c = true -> p c = false) ->
  next_in p rest = false -> next_in p (ws ++ rest) = false.
Proof.
  intros Ha Hp Hr. destruct Ha as [|c ws Hc _]; [done|]. simpl. by apply Hp.
Qed.

Lemma close_group_digits n b c (pre post a0 : str) g g0 :
  close_group n (MState b a0 g0) (MState (rev pre ++ c :: b) post g)
  = MState (rev pre ++ c :: b) post ((n, c :: pre) :: g).
Proof.
  unfold close_group. cbn [m_before m_after m_groups]. do 3 f_equal.
  replace (rev pre ++ c :: b) with (rev (c :: pre) ++ b)
    by (simpl; by rewrite <- List.app_assoc).
  apply firstn_rev_app.
Qed.

Ltac first_of_arrow :=
  cbn [Lit L list_ascii_of_string app];
  eapply first_seq; [by apply first_chr|];
  eapply first_seq; [by apply first_chr|]; by exists [].

(** The rating pattern on a text that starts with "R:", a rating, an arrow
    and a rating: the search finds it at once and the groups are the two
    ratings in full. *)
Lemma my_rating_groups (c : ascii) (ws1 d1 ws2 arrow ws3 d2 rest : str) :
  c = "R"%char \/ c = "r"%char ->
  all isspace ws1 -> d1 <> [] -> all isdecimal d1 -> all isspace ws2 ->
  arrow = L "->" \/ arrow = L "=>" ->
  all isspace ws3 -> d2 <> [] -> all isdecimal d2 ->
  next_in isdecimal rest = false ->
  exists mrat,
    re_search re_my_rating
      (c :: ":"%char :: ws1 ++ d1 ++ ws2 ++ arrow ++ ws3 ++ d2 ++ rest) = Some mrat
    /\ group 1 mrat = d1 /\ group 2 mrat = d2.
Proof.
  intros Hc Hw1 Hn1 Hd1 Hw2 Harrow Hw3 Hn2 Hd2 Hrest.
  destruct d1 as [|x1 d1]; [done|]. destruct d2 as [|x2 d2]; [done|].
  inversion Hd1 as [|? ? Hx1 Hd1']; inversion Hd2 as [|? ? Hx2 Hd2']; subst.
  set (s := c :: ":"%char :: ws1 ++ (x1 :: d1) ++ ws2 ++ arrow ++ ws3 ++ (x2 :: d2) ++ rest).
  assert (Harrow_space : next_in isspace (arrow ++ ws3 ++ (x2 :: d2) ++ rest) = false).
  { by destruct Harrow as [-> | ->]. }
  assert (Harrow_digit : next_in isdecimal (arrow ++ ws3 ++ (x2 :: d2) ++ rest) = false).
  { by destruct Harrow as [-> | ->]. }
  assert (Hfirst : exists st, first_is (exec re_my_rating (MState [] s [])) st
                              /\ m_groups st = [(2, x2 :: d2); (1, x1 :: d1)]).
  { unfold re_my_rating. cbn [Seqs LitCI L list_ascii_of_string].
    destruct Harrow as [-> | ->].
    all: eexists; split;
      [ eapply first_seq;
          [ eapply first_seq; [apply first_chr; by destruct Hc as [-> | ->]|];
            eapply first_seq; [by apply first_chr|]; by exists [] |];
        eapply first_seq;
          [ apply first_star; [exact Hw1|]; simpl; by apply digit_not_space |];
        eapply first_seq;
          [ apply first_grp; simpl app; apply first_plus; [exact Hx1|exact Hd1'|];
            by apply spaces_then; [|apply space_not_digit|] |];
        rewrite close_group_digits;
        eapply first_seq; [by apply first_star|];
        eapply first_seq;
          [ first [ apply first_alt_l; first_of_arrow
                  | apply first_alt_r; [reflexivity|]; first_of_arrow ] |];
        eapply first_seq;
          [ apply first_star; [exact Hw3|]; simpl; by apply digit_not_space |];
        apply first_grp; simpl app; by apply first_plus
      | rewrite close_group_digits; reflexivity ]. }
  destruct Hfirst as (st & [others Hst] & Hg).
  exists (MatchObj [] st). split.
  - unfold re_search. destruct s as [|c0 t] eqn:Es; [done|].
    cbn [search_from]. unfold try_at. by rewrite Hst.
  - unfold group. cbn [mo_end]. rewrite Hg. split; reflexivity.
Qed.

(** C6 (amended). The rating extractor scans the tables that carry
    bgcolor FFFFFF and width 750 - that one width only, not the 800 variant
    the summary extractor also accepts - in document order, and in each the
    rows that are its direct children, in order.  A row counts when, fillers
    removed, it has at least two cells, the text of the first is "rating"
    once lower-cased, and the pattern finds "R:", digits, an arrow -> or =>,
    digits in the text of the second - on a text "R: 1294 ->1451" the two
    ratings in full.  The first such row decides the result and ends the
    scan; without one both ratings are empty. *)
Theorem rating_first_match_in_750_tables (soup : node) :
  parse_player_rating_table soup
  = match first_hit rating_of_row (rating_candidate_rows soup) with
    | Some (pre, post) => (pre, post)
    | None => ([], [])
    end
  /\ (forall earlier r_ later pre post,
        rating_candidate_rows soup = earlier ++ r_ :: later ->
        (forall x, In x earlier -> rating_of_row x = None) ->
        rating_of_row r_ = Some (pre, post) ->
        parse_player_rating_table soup = (pre, post))
  /\ ((forall x, In x (rating_candidate_rows soup) -> rating_of_row x = None) ->
      parse_player_rating_table soup = ([], []))
  /\ (forall r_ pre post,
        rating_of_row r_ = Some (pre, post) <->
        exists c0 c1 others mrat,
          remove_filler (find_all_direct (L "td") r_) = c0 :: c1 :: others /\
          lower (get_text [] c0) = L "rating" /\
          re_search re_my_rating (strip (get_text (L " ") c1)) = Some mrat /\
          pre = group 1 mrat /\ post = group 2 mrat)
  /\ (forall (c : ascii) (ws1 d1 ws2 arrow ws3 d2 rest : str),
        c = "R"%char \/ c = "r"%char ->
        all isspace ws1 -> d1 <> [] -> all isdecimal d1 -> all isspace ws2 ->
        arrow = L "->" \/ arrow = L "=>" ->
        all isspace ws3 -> d2 <> [] -> all isdecimal d2 ->
        next_in isdecimal rest = false ->
        exists mrat,
          re_search re_my_rating
            (c :: ":"%char :: ws1 ++ d1 ++ ws2 ++ arrow ++ ws3 ++ d2 ++ rest)
          = Some mrat
          /\ group 1 mrat = d1 /\ group 2 mrat = d2).
Proof.
  assert (Heq : parse_player_rating_table soup
    = match first_hit rating_of_row (rating_candidate_rows soup) with
      | Some (pre, post) => (pre, post)
      | None => ([], [])
      end).
  { unfold parse_player_rating_table, rating_candidate_rows.
    by rewrite first_hit_flat_map. }
  split; [exact Heq|]. split; [|split].
  - intros earlier r_ later pre post Hrows Hearlier Hr. rewrite Heq, Hrows.
    by rewrite (first_hit_first _ _ _ _ _ Hearlier Hr).
  - intros Hnone. rewrite Heq.
    by rewrite (proj2 (first_hit_none _ _) Hnone).
  - split; [apply rating_of_row_some|]. intros. by apply my_rating_groups.
Qed.

Lemma rating_first_match_in_750_tables_witness :
  parse_player_rating_table (page_with_table "750") = (L "1294", L "1451").
Proof.
  apply (proj1 (proj2 (rating_first_match_in_750_tables (page_with_table "750")))
           [] rating_row [] (L "1294") (L "1451")).
  - reflexivity.
  - intros x [].
  - reflexivity.
Defined.

(** C6 as stated fails: a table of the 800 variant carries the signature of
    the main table, the summary extractor reads it, its row matches, and the
    rating extractor still returns two empty strings. *)
Lemma rating_in_800_table_missed :
  (exists t_, In t_ (find_all (L "table") (page_with_table "800")) /\
              main_table_signature t_ = true /\
              In rating_row (find_all_direct (L "tr") t_))
  /\ rating_of_row rating_row = Some (L "1294", L "1451")
  /\ parse_summary_table (page_with_table "800") !! L "rating"
     = Some (L "R: 1294 ->1451")
  /\ parse_player_rating_table (page_with_table "800") = ([], []).
Proof.
  split; [|split; [|split]].
  - eexists. split; [left; reflexivity|]. split; [reflexivity|]. left. reflexivity.
  - reflexivity.
  - vm_compute. reflexivity.
  - reflexivity.
Qed.


(** ** The fetcher *)

Section Fetcher.

Variable requests_get : list io_event -> str -> Z -> response.
Variables (url : str) (timeout_sec max_retries sleep_sec : Z).

Local Abbreviation resp h := (attempt_response requests_get h url timeout_sec sleep_sec).
Local Abbreviation tries k := (attempts_io k url timeout_sec sleep_sec).

Lemma attempt_response_shift h i :
  resp (h ++ [Sleep sleep_sec; Get url timeout_sec]) i = resp h (S i).
Proof.
  unfold attempt_response. f_equal. simpl. by rewrite <- List.app_assoc.
Qed.

Lemma fetch_attempts_outcome : forall m attempt w,
  (Z.of_nat m + attempt = max_retries + 1)%Z ->
  fetch_outcome requests_get url timeout_sec sleep_sec m w
    (fst (fetch_attempts requests_get m attempt url timeout_sec max_retries sleep_sec w))
    (snd (fetch_attempts requests_get m attempt url timeout_sec max_retries sleep_sec w)).
Proof.
  induction m as [|m IH]; intros attempt w Hm.
  - simpl. split; [done|]. split; [done|]. exists 0. simpl. rewrite app_nil_r.
    split; [done|]. split; [done|]. split; [intros; lia|]. by left.
  - cbn [fetch_attempts]. unfold bind, sleep, catch, http_get. cbn [io visited fetch_log].
    assert (Hr0 : requests_get (io w ++ [Sleep sleep_sec]) url timeout_sec = resp (io w) 0)
      by reflexivity.
    rewrite Hr0.
    assert (Hio : (io w ++ [Sleep sleep_sec]) ++ [Get url timeout_sec] = io w ++ tries 1).
    { by rewrite <- List.app_assoc. }
    rewrite Hio.
    assert (Hone : forall res, match res with
                     | Return body => resp (io w) 0 = Body body
                     | Raise e => resp (io w) 0 = Fails e /\ (retryable e = true -> m = 0)
                     end ->
              fetch_outcome requests_get url timeout_sec sleep_sec (S m) w res (World (visited w) (fetch_log w) (io w ++ tries 1))).
    { intros res Hres. split; [done|]. split; [done|]. exists 1.
      split; [lia|]. split; [done|]. split; [intros; lia|].
      destruct res; simpl.
      - right. split; [lia|done].
      - destruct Hres as [? Hm0]. split; [lia|]. split; [done|].
        intros Hre. by rewrite (Hm0 Hre). }
    destruct (resp (io w) 0) as [text|e] eqn:E0; [by apply Hone|].
    assert (Hretry : retryable e = true ->
      fetch_outcome requests_get url timeout_sec sleep_sec (S m) w
        (fst ((if (attempt =? max_retries)%Z then raise e
               else fetch_attempts requests_get m (attempt + 1) url timeout_sec
                      max_retries sleep_sec)
              (World (visited w) (fetch_log w) (io w ++ tries 1))))
        (snd ((if (attempt =? max_retries)%Z then raise e
               else fetch_attempts requests_get m (attempt + 1) url timeout_sec
                      max_retries sleep_sec)
              (World (visited w) (fetch_log w) (io w ++ tries 1))))).
    { intros Hre. destruct (attempt =? max_retries)%Z eqn:Ea.
      - apply Z.eqb_eq in Ea. apply (Hone (Raise e)). split; [done|]. intros _. lia.
      - apply Z.eqb_neq in Ea.
        set (w1 := World (visited w) (fetch_log w) (io w ++ tries 1)).
        destruct (IH (attempt + 1)%Z w1 ltac:(lia)) as (Hv & Hl & k & Hk & Hio' & Hprev & Hres).
        split; [by rewrite Hv|]. split; [by rewrite Hl|]. exists (S k).
        split; [lia|]. split.
        { rewrite Hio'. cbn [w1 io]. by rewrite <- List.app_assoc. }
        split.
        { intros [|i] Hi.
          - exists e. by rewrite E0.
          - rewrite <- attempt_response_shift. apply Hprev. lia. }
        cbn [w1 io] in Hres. simpl tries in Hres.
        destruct (fst _) as [body|e'].
        + destruct Hres as [(-> & -> & ->)|(Hk0 & Hb)].
          * exfalso. lia.
          * right. split; [lia|]. rewrite attempt_response_shift in Hb.
            replace (S k - 1) with (S (k - 1)) by lia. done.
        + destruct Hres as (Hk0 & Hb & Hlast). split; [lia|].
          rewrite attempt_response_shift in Hb.
          replace (S k - 1) with (S (k - 1)) by lia. split; [done|].
          intros Hre'. by rewrite (Hlast Hre'). }
    destruct e; cbn match.
    + by apply Hretry.
    + by apply Hretry.
    + apply (Hone (Raise (OtherError msg))). split; [done|]. discriminate.
Qed.

(** C5 (amended). With [max_retries] at least 1, [fetch_html] makes at most
    [max_retries] attempts, each a sleep of the fixed delay followed by a
    request, the first included; it returns the body of the first attempt
    that succeeds; it raises a timeout or request error exactly when all
    [max_retries] attempts fail with such errors, and the error is the last
    attempt's.  With [max_retries] at most 0 it makes no attempt and returns
    the empty string without raising. *)
Theorem fetch_html_contract (w : world) :
  let n := Z.to_nat max_retries in
  let run := fetch_html requests_get url timeout_sec max_retries sleep_sec w in
  let res := fst run in
  let w' := snd run in
  visited w' = visited w /\ fetch_log w' = fetch_log w
  /\ (exists k, k <= n /\ io w' = io w ++ tries k /\
        (forall i, i + 1 < k -> fails_retryably (resp (io w) i)) /\
        match res with
        | Return body => (k = 0 /\ n = 0 /\ body = []) \/
                         (0 < k /\ resp (io w) (k - 1) = Body body)
        | Raise e => 0 < k /\ resp (io w) (k - 1) = Fails e /\
                     (retryable e = true -> k = n)
        end)
  /\ (0 < n ->
      ((exists e, res = Raise e /\ retryable e = true) <->
       (forall i, i < n -> fails_retryably (resp (io w) i))))
  /\ (0 < n -> forall e, res = Raise e -> retryable e = true ->
      resp (io w) (n - 1) = Fails e)
  /\ (n = 0 -> res = Return [] /\ w' = w).
Proof.
  intros n run res w'.
  assert (Hout : fetch_outcome requests_get url timeout_sec sleep_sec n w res w').
  { subst res w' run n. unfold fetch_html.
    destruct (Z.to_nat max_retries) as [|m] eqn:En.
    - simpl. split; [done|]. split; [done|]. exists 0. simpl. rewrite app_nil_r.
      split; [done|]. split; [done|]. split; [intros; lia|]. left. done.
    - apply fetch_attempts_outcome. lia. }
  destruct Hout as (Hv & Hl & k & Hk & Hio & Hprev & Hres).
  split; [done|]. split; [done|]. split; [by exists k|]. split; [|split].
  - intros Hn. split.
    + intros (e & He & Hre) i Hi. rewrite He in Hres.
      destruct Hres as (Hk0 & Hlast & Hkn). specialize (Hkn Hre). subst k.
      destruct (decide (i + 1 < n)) as [Hlt|Hge]; [by apply Hprev|].
      replace i with (n - 1) by lia. by exists e.
    + intros Hall. destruct res as [body|e].
      * destruct Hres as [(-> & ? & _)|(Hk0 & Hb)]; [lia|].
        destruct (Hall (k - 1)) as (e & He & _); [lia|]. congruence.
      * destruct Hres as (Hk0 & Hlast & _).
        destruct (Hall (k - 1)) as (e' & He & Hre); [lia|].
        exists e. split; [done|]. congruence.
  - intros Hn e He Hre. rewrite He in Hres.
    destruct Hres as (Hk0 & Hlast & Hkn). by rewrite <- (Hkn Hre).
  - intros Hn. subst res w' run. unfold fetch_html. fold n. rewrite Hn. done.
Qed.

End Fetcher.

Lemma fetch_html_contract_witness :
  0 < Z.to_nat 3 /\
  ((exists e, fst (fetch_html always_timeout (L "https://www.uschess.org/msa/x")
                              15 3 1 world0) = Raise e /\ retryable e = true) <->
   (forall i, i < Z.to_nat 3 ->
      fails_retryably (attempt_response always_timeout (io world0)
                         (L "https://www.uschess.org/msa/x") 15 1 i))).
Proof.
  pose proof (fetch_html_contract always_timeout (L "https://www.uschess.org/msa/x")
                15 3 1 world0) as H.
  cbv zeta in H. destruct H as (_ & _ & _ & H & _).
  split; [simpl; lia|]. apply H. simpl. lia.
Defined.

(** C5 as stated fails for a retry count of 0: the loop body never runs, so
    on a network where every request times out no error reaches the caller;
    the empty string is returned and nothing was requested. *)
Lemma fetch_html_zero_retries_returns_empty :
  (forall h i, fails_retryably
                 (attempt_response always_timeout h
                    (L "https://www.uschess.org/msa/x") 15 1 i))
  /\ fetch_html always_timeout (L "https://www.uschess.org/msa/x") 15 0 1 world0
     = (Return [], world0).
Proof.
  split; [|reflexivity].
  intros h i. eexists. split; reflexivity.
Qed.


(** ** The traversal *)

Section Traversal.

Variable BeautifulSoup : str -> node.
Variable requests_get : list io_event -> str -> Z -> response.

Lemma fetch_attempts_frame url timeout_sec max_retries sleep_sec :
  forall m attempt w,
    let w' := snd (fetch_attempts requests_get m attempt url timeout_sec
                                  max_retries sleep_sec w) in
    visited w' = visited w /\ fetch_log w' = fetch_log w.
Proof.
  induction m as [|m IH]; intros attempt w; [done|].
  cbn [fetch_attempts]. unfold bind, sleep, catch, http_get. cbn [io visited fetch_log].
  destruct (requests_get _ _ _) as [text|e]; [done|].
  set (w1 := World _ _ _).
  assert (Hraise : let w' := snd (@raise str e w1) in
                   visited w' = visited w /\ fetch_log w' = fetch_log w) by done.
  assert (Hretry : let w' := snd ((if (attempt =? max_retries)%Z then raise e
               else fetch_attempts requests_get m (attempt + 1) url timeout_sec
                      max_retries sleep_sec) w1) in
            visited w' = visited w /\ fetch_log w' = fetch_log w).
  { destruct (attempt =? max_retries)%Z; [done|]. apply (IH (attempt + 1)%Z w1). }
  destruct e; assumption.
Qed.

Lemma fetch_html_frame url timeout_sec max_retries sleep_sec w :
  let w' := snd (fetch_html requests_get url timeout_sec max_retries sleep_sec w) in
  visited w' = visited w /\ fetch_log w' = fetch_log w.
Proof. apply fetch_attempts_frame. Qed.

Lemma cross_links_app l1 l2 : cross_links (l1 ++ l2) = cross_links l1 ++ cross_links l2.
Proof. unfold cross_links. by rewrite List.filter_app, map_app. Qed.

Lemma crawl_step_refl w : crawl_step w w.
Proof.
  exists []. rewrite app_nil_r. split; [done|]. split; [constructor|].
  split; [intros l Hl; inversion Hl|]. simpl. by rewrite (left_id_L ∅ (∪)).
Qed.

Lemma crawl_step_trans w1 w2 w3 :
  crawl_step w1 w2 -> crawl_step w2 w3 -> crawl_step w1 w3.
Proof.
  intros (n1 & Hl1 & Hd1 & Hf1 & Hv1) (n2 & Hl2 & Hd2 & Hf2 & Hv2).
  exists (n1 ++ n2). rewrite cross_links_app. split.
  { by rewrite Hl2, Hl1, <- List.app_assoc. }
  split.
  { apply NoDup_app. split; [done|]. split; [|done].
    intros l Hin1 Hin2. apply Hf2 in Hin2.
    apply Hin2. rewrite Hv1. apply elem_of_union_l, elem_of_list_to_set. done. }
  split.
  { intros l Hin. apply elem_of_app in Hin as [Hin|Hin]; [by apply Hf1|].
    apply Hf2 in Hin. rewrite Hv1 in Hin. by apply not_elem_of_union in Hin as [_ Hin]. }
  rewrite Hv2, Hv1, list_to_set_app_L.
  by rewrite (assoc_L (∪)), (comm_L (∪) (list_to_set (cross_links n2))).
Qed.

Lemma crawl_step_frame w w' :
  visited w' = visited w -> fetch_log w' = fetch_log w -> crawl_step w w'.
Proof.
  intros Hv Hl. exists []. rewrite app_nil_r. split; [done|]. split; [constructor|].
  split; [intros l H; inversion H|]. rewrite Hv. simpl. by rewrite (left_id_L ∅ (∪)).
Qed.

Lemma crawl_step_cross s link w i :
  is_cross (s, link) = true -> link ∉ visited w ->
  crawl_step w (World ({[link]} ∪ visited w) (fetch_log w ++ [(s, link)]) i).
Proof.
  intros Hs Hn. exists [(s, link)]. unfold cross_links. cbn [List.filter]. rewrite Hs.
  cbn [map snd fetch_log visited]. split; [done|]. split; [apply NoDup_singleton|].
  split.
  - intros l Hl. apply list_elem_of_singleton in Hl. by subst.
  - simpl. by rewrite (right_id_L ∅ (∪)).
Qed.

Lemma crawl_step_player link w i :
  crawl_step w (World (visited w) (fetch_log w ++ [(PlayerPage, link)]) i).
Proof.
  exists [(PlayerPage, link)]. unfold cross_links. cbn. split; [done|].
  split; [constructor|]. split; [intros l H; inversion H|]. simpl. by rewrite (left_id_L ∅ (∪)).
Qed.

Lemma fetch_html_step url timeout_sec max_retries sleep_sec w :
  crawl_step w (snd (fetch_html requests_get url timeout_sec max_retries sleep_sec w)).
Proof.
  destruct (fetch_html_frame url timeout_sec max_retries sleep_sec w).
  by apply crawl_step_frame.
Qed.

(** The result of a bind steps on from the state its first part leaves. *)
Lemma bind_step {A B} (m : M A) (f : A -> M B) w :
  crawl_step w (snd (m w)) ->
  (forall a, fst (m w) = Return a -> crawl_step (snd (m w)) (snd (f a (snd (m w))))) ->
  crawl_step w (snd (bind m f w)).
Proof.
  unfold bind. destruct (m w) as [[a|e] w1]; simpl; [|done].
  intros H1 H2. eapply crawl_step_trans; [exact H1|]. by apply H2.
Qed.

Lemma bind_add_log {A} link s (k : M A) w :
  is_cross (s, link) = true -> link ∉ visited w ->
  crawl_step (World ({[link]} ∪ visited w) (fetch_log w ++ [(s, link)]) (io w))
             (snd (k (World ({[link]} ∪ visited w) (fetch_log w ++ [(s, link)]) (io w)))) ->
  crawl_step w (snd (bind (visited_add link)
                          (fun _ => bind (log_fetch s link) (fun _ => k)) w)).
Proof.
  intros Hs Hn Hk. unfold bind, visited_add, log_fetch. cbn [visited fetch_log io].
  eapply crawl_step_trans; [by apply crawl_step_cross|]. exact Hk.
Qed.

Lemma parse_crosstable_step xlink player_id timeout_sec max_retries w :
  crawl_step w (snd (parse_crosstable BeautifulSoup requests_get xlink player_id
                                      timeout_sec max_retries w)).
Proof.
  unfold parse_crosstable.
  apply bind_step; [apply crawl_step_refl|]. intros seen [= <-]. cbn [get_visited snd].
  destruct (decide (xlink ∈ visited w)) as [Hin|Hnew]; [apply crawl_step_refl|].
  apply bind_add_log; [done|done|]. set (w1 := World _ _ _).
  apply bind_step; [apply fetch_html_step|]. intros raw _.
  set (w2 := snd (fetch_html _ _ _ _ _ _)).
  apply bind_step.
  - destruct (truthy (find_user_link _ _)); [apply crawl_step_refl|].
    apply bind_step; [apply crawl_step_refl|]. intros seen2 [= <-]. cbn [get_visited snd].
    destruct (truthy _ && _) eqn:Ez; [|apply crawl_step_refl].
    apply andb_true_iff in Ez as [_ Ez]. apply negb_true_iff, bool_decide_eq_false in Ez.
    apply bind_add_log; [done|done|].
    apply bind_step; [apply fetch_html_step|]. intros all_html _. apply crawl_step_refl.
  - intros [summ userlink] _. set (w3 := snd _).
    destruct (truthy userlink); [|apply crawl_step_refl].
    apply bind_step; [apply crawl_step_player|]. intros _ _.
    apply bind_step; [apply fetch_html_step|]. intros plr_html _. apply crawl_step_refl.
Qed.

Lemma parse_crosstable_marks xlink player_id timeout_sec max_retries w :
  xlink ∈ visited (snd (parse_crosstable BeautifulSoup requests_get xlink player_id
                                         timeout_sec max_retries w)).
Proof.
  unfold parse_crosstable. unfold bind at 1, get_visited.
  destruct (decide (xlink ∈ visited w)) as [Hin|Hnew]; [done|].
  unfold bind at 1, visited_add. unfold bind at 1, log_fetch.
  cbn [visited fetch_log io]. set (w1 := World _ _ _).
  match goal with |- _ ∈ visited (snd (?k w1)) =>
    assert (Hk : crawl_step w1 (snd (k w1))) end.
  { apply bind_step; [apply fetch_html_step|]. intros raw _.
    apply bind_step.
    - destruct (truthy (find_user_link _ _)); [apply crawl_step_refl|].
      apply bind_step; [apply crawl_step_refl|]. intros seen2 [= <-].
      cbn [get_visited snd].
      destruct (truthy _ && _) eqn:Ez; [|apply crawl_step_refl].
      apply andb_true_iff in Ez as [_ Ez].
      apply negb_true_iff, bool_decide_eq_false in Ez.
      apply bind_add_log; [done|done|].
      apply bind_step; [apply fetch_html_step|]. intros all_html _.
      apply crawl_step_refl.
    - intros [summ userlink] _.
      destruct (truthy userlink); [|apply crawl_step_refl].
      apply bind_step; [apply crawl_step_player|]. intros _ _.
      apply bind_step; [apply fetch_html_step|]. intros plr_html _.
      apply crawl_step_refl. }
  destruct Hk as (new & _ & _ & _ & ->). cbn [w1 visited].
  apply elem_of_union_r, elem_of_union_l, elem_of_singleton_2. reflexivity.
Qed.

Lemma main_event_step player_id timeout_sec max_retries ev w :
  crawl_step w (snd (main_event BeautifulSoup requests_get player_id
                                timeout_sec max_retries ev w)).
Proof.
  unfold main_event. apply bind_step.
  - destruct (truthy (ev_xlink ev)); [apply parse_crosstable_step|apply crawl_step_refl].
  - intros cdata _. apply crawl_step_refl.
Qed.

Lemma main_events_step player_id timeout_sec max_retries events : forall w,
  crawl_step w (snd (main_events BeautifulSoup requests_get player_id
                                 timeout_sec max_retries events w)).
Proof.
  induction events as [|ev rest IH]; intros w; [apply crawl_step_refl|].
  cbn [main_events]. apply bind_step; [apply main_event_step|].
  intros [r gms] _. apply bind_step; [apply IH|].
  intros [all_data per_game] _. apply crawl_step_refl.
Qed.

Lemma crawl_step_old_not_fetched w w' :
  crawl_step w w' ->
  exists new, fetch_log w' = fetch_log w ++ new /\ NoDup (cross_links new) /\
    (forall l, l ∈ visited w -> l ∉ cross_links new) /\
    (forall l, l ∈ cross_links new -> l ∈ visited w').
Proof.
  intros (new & Hl & Hd & Hf & Hv). exists new. split; [done|]. split; [done|]. split.
  - intros l Hin Hc. by apply (Hf l Hc).
  - intros l Hc. rewrite Hv. apply elem_of_union_l, elem_of_list_to_set. done.
Qed.

Lemma parse_crosstable_visited xlink player_id timeout_sec max_retries w :
  xlink ∈ visited w ->
  parse_crosstable BeautifulSoup requests_get xlink player_id timeout_sec
                   max_retries w = (Return empty_crosstable, w).
Proof.
  intros Hin. unfold parse_crosstable, bind, get_visited.
  by destruct (decide (xlink ∈ visited w)).
Qed.

Lemma main_run_log player_id filter_year timeout_sec max_retries w :
  exists new,
    fetch_log (snd (main BeautifulSoup requests_get player_id filter_year
                         timeout_sec max_retries w))
    = fetch_log w ++ new /\ NoDup (cross_links new).
Proof.
  unfold main, bind at 1, log_fetch. cbn [visited fetch_log io].
  set (w0 := World _ _ _). unfold bind at 1.
  pose proof (fetch_html_frame (TOURN_HISTORY_URL player_id) timeout_sec max_retries
                sleep_default w0) as [Hv Hl].
  destruct (fetch_html _ _ _ _ _ w0) as [[main_html|e] w1]; cbn [fst snd] in *.
  - unfold bind at 1, set_visited.
    match goal with
    | |- context [main_events _ _ _ _ _ ?evs ?w2] =>
        destruct (main_events_step player_id timeout_sec max_retries evs w2)
          as (new & Hlog & Hd & _)
    end.
    exists ((History, L "MbrDtlTnmtHst.php?" ++ player_id) :: new). split.
    + rewrite Hlog. cbn [fetch_log]. rewrite Hl. cbn [w0 fetch_log].
      by rewrite <- List.app_assoc.
    + exact Hd.
  - exists [(History, L "MbrDtlTnmtHst.php?" ++ player_id)]. split.
    + rewrite Hl. done.
    + constructor.
Qed.

(** C3 (amended). In a run of [main], the links fetched as cross-reference
    documents - crosstable links and their all-sections variants alike - are
    pairwise distinct: each is fetched at most once as such a document.
    From any state of the run on, a link that is in the visited set is not
    fetched as a cross-reference document by the events that follow, and an
    event whose link is in the set fetches nothing at all.  The fetch of the
    player's page is outside this guarantee: it does not consult the set. *)
Theorem visited_links_fetched_once player_id timeout_sec max_retries :
  (forall filter_year,
     NoDup (cross_links (fetch_log (snd (main BeautifulSoup requests_get player_id
                                              filter_year timeout_sec max_retries
                                              world0)))))
  /\ (forall filter_year w, exists new,
        fetch_log (snd (main BeautifulSoup requests_get player_id filter_year
                             timeout_sec max_retries w))
        = fetch_log w ++ new /\ NoDup (cross_links new))
  /\ (forall events w, exists new,
        let w' := snd (main_events BeautifulSoup requests_get player_id
                                   timeout_sec max_retries events w) in
        fetch_log w' = fetch_log w ++ new /\ NoDup (cross_links new) /\
        (forall l, l ∈ visited w -> l ∉ cross_links new) /\
        (forall l, l ∈ cross_links new -> l ∈ visited w'))
  /\ (forall xlink w, xlink ∈ visited w ->
        parse_crosstable BeautifulSoup requests_get xlink player_id timeout_sec
                         max_retries w = (Return empty_crosstable, w)).
Proof.
  split; [|split; [|split]].
  - intros filter_year.
    destruct (main_run_log player_id filter_year timeout_sec max_retries world0)
      as (new & -> & Hd). exact Hd.
  - intros. apply main_run_log.
  - intros events w. apply crawl_step_old_not_fetched, main_events_step.
  - intros. by apply parse_crosstable_visited.
Qed.

(** C9. [parse_crosstable] puts a link into the visited set before it
    fetches it, the crosstable link and the all-sections variant alike.
    When that fetch raises, the error leaves [parse_crosstable] with the
    link still in the set; the error ends the run of [main] on the spot, and
    the events after it would not fetch the link either. *)
Theorem visited_kept_when_fetch_raises xlink player_id timeout_sec max_retries w :
  xlink ∉ visited w ->
  let w1 := World ({[xlink]} ∪ visited w) (fetch_log w ++ [(CrossTable, xlink)])
                  (io w) in
  let fetch1 := fetch_html requests_get (BASE_URL ++ xlink) timeout_sec
                           max_retries sleep_default w1 in
  let r := parse_crosstable BeautifulSoup requests_get xlink player_id
                            timeout_sec max_retries w in
  (forall e, fst fetch1 = Raise e ->
     r = (Raise e, snd fetch1) /\ xlink ∈ visited (snd r))
  /\ (forall raw, fst fetch1 = Return raw ->
      let soup := BeautifulSoup raw in
      let zero := find_all_sections_link soup xlink in
      let w2 := snd fetch1 in
      let w3 := World ({[zero]} ∪ visited w2)
                      (fetch_log w2 ++ [(AllSections, zero)]) (io w2) in
      let fetch2 := fetch_html requests_get (BASE_URL ++ zero) timeout_sec
                               max_retries sleep_default w3 in
      truthy (find_user_link soup player_id) = false ->
      truthy zero = true -> zero ∉ visited w2 ->
      forall e, fst fetch2 = Raise e ->
        r = (Raise e, snd fetch2) /\ zero ∈ visited (snd r) /\ xlink ∈ visited (snd r))
  /\ (forall e ev rest,
        ev_xlink ev = xlink -> truthy xlink = true -> fst r = Raise e ->
        main_events BeautifulSoup requests_get player_id timeout_sec max_retries
                    (ev :: rest) w = (Raise e, snd r))
  /\ (forall events, exists new,
        fetch_log (snd (main_events BeautifulSoup requests_get player_id
                                    timeout_sec max_retries events (snd r)))
        = fetch_log (snd r) ++ new /\ xlink ∉ cross_links new).
Proof.
  intros Hnew w1 fetch1 r.
  assert (Hr : r = bind (fetch_html requests_get (BASE_URL ++ xlink) timeout_sec
                           max_retries sleep_default)
                 (fun raw =>
                    let soup := BeautifulSoup raw in
                    let summ := parse_summary_table soup in
                    let userlink := find_user_link soup player_id in
                    bind (if truthy userlink then ret (summ, userlink)
                          else
                            let zero := find_all_sections_link soup xlink in
                            bind get_visited (fun seen =>
                            if truthy zero && negb (bool_decide (zero ∈ seen))
                            then
                              bind (visited_add zero) (fun _ =>
                              bind (log_fetch AllSections zero) (fun _ =>
                              bind (fetch_html requests_get (BASE_URL ++ zero)
                                      timeout_sec max_retries sleep_default)
                                   (fun all_html =>
                                      let soup2 := BeautifulSoup all_html in
                                      let summ2 := parse_summary_table soup2 in
                                      ret (summ2 ∪ summ,
                                           find_user_link soup2 player_id))))
                            else ret (summ, userlink)))
                      (fun '(summ, userlink) =>
                         if truthy userlink
                         then
                           bind (log_fetch PlayerPage userlink) (fun _ =>
                           bind (fetch_html requests_get (BASE_URL ++ userlink)
                                   timeout_sec max_retries sleep_default)
                                (fun plr_html =>
                                   let parsed := parse_player_specific_page
                                                   BeautifulSoup plr_html in
                                   ret {| summary := summ;
                                          player_games := games parsed;
                                          player_rating_pre := player_pre_rating parsed;
                                          player_rating_post := player_post_rating parsed |}))
                         else
                           ret {| summary := summ; player_games := [];
                                  player_rating_pre := []; player_rating_post := [] |}))
                 w1).
  { subst r. unfold parse_crosstable. unfold bind at 1, get_visited.
    destruct (decide (xlink ∈ visited w)) as [Hin|_]; [done|].
    unfold bind at 1, visited_add. unfold bind at 1, log_fetch. reflexivity. }
  assert (Hv1 : forall w', visited w' = visited w1 -> xlink ∈ visited w').
  { intros w' ->. cbn [w1 visited]. apply elem_of_union_l, elem_of_singleton_2. reflexivity. }
  split; [|split; [|split]].
  - intros e He. assert (Hre : r = (Raise e, snd fetch1)).
    { rewrite Hr. unfold bind at 1. fold fetch1.
      destruct fetch1 as [[raw|e'] w2]; simpl in He; [discriminate|]. by injection He as ->. }
    split; [done|]. rewrite Hre. cbn [snd]. apply Hv1.
    apply (fetch_html_frame (BASE_URL ++ xlink) timeout_sec max_retries sleep_default w1).
  - intros raw Hraw soup zero w2 w3 fetch2 Huser Hzero Hz e He.
    subst fetch2 w3 w2 zero soup fetch1.
    pose proof (fetch_html_frame (BASE_URL ++ xlink) timeout_sec max_retries
                  sleep_default w1) as [Hv2 _].
    destruct (fetch_html requests_get (BASE_URL ++ xlink) timeout_sec max_retries
                sleep_default w1) as [[raw'|e'] w2] eqn:E1;
      simpl in Hraw; [|discriminate].
    injection Hraw as ->. cbn [snd] in *.
    set (zero := find_all_sections_link (BeautifulSoup raw) xlink) in *.
    set (w3 := World ({[zero]} ∪ visited w2) (fetch_log w2 ++ [(AllSections, zero)])
                     (io w2)) in *.
    pose proof (fetch_html_frame (BASE_URL ++ zero) timeout_sec max_retries
                  sleep_default w3) as [Hv3 _].
    destruct (fetch_html requests_get (BASE_URL ++ zero) timeout_sec max_retries
                sleep_default w3) as [[all_html|e'] w4] eqn:E2;
      simpl in He; [discriminate|].
    injection He as ->. cbn [snd] in *.
    assert (Hre : r = (Raise e, w4)).
    { rewrite Hr. unfold bind at 1. rewrite E1. cbv zeta. rewrite Huser.
      fold zero. unfold bind at 1. unfold bind at 1, get_visited.
      rewrite Hzero. rewrite (bool_decide_eq_false_2 _ Hz). cbn [andb negb].
      unfold bind at 1, visited_add. unfold bind at 1, log_fetch.
      unfold bind at 1. cbn [visited fetch_log io]. fold w3. rewrite E2.
      reflexivity. }
    split; [done|]. rewrite Hre. cbn [snd]. rewrite Hv3. cbn [w3 visited].
    rewrite Hv2. cbn [w1 visited]. split.
    + apply elem_of_union_l, elem_of_singleton_2. reflexivity.
    + apply elem_of_union_r, elem_of_union_l, elem_of_singleton_2. reflexivity.
  - intros e ev rest Hx Ht He. cbn [main_events]. unfold bind at 1, main_event.
    unfold bind at 1. rewrite Hx, Ht. fold r.
    destruct r as [[cdata|e'] w']; simpl in He; [discriminate|]. by injection He as ->.
  - intros events.
    destruct (main_events_step player_id timeout_sec max_retries events (snd r))
      as (new & Hlog & _ & Hf & _).
    exists new. split; [done|]. intros Hc. apply (Hf _ Hc).
    apply parse_crosstable_marks.
Qed.

End Traversal.

Lemma visited_kept_when_fetch_raises_witness :
  (sample_xlink ∉ visited world0)
  /\ (let r := parse_crosstable blank_parser always_timeout sample_xlink
                                (L "12641216") 15 2 world0 in
      fst r = Raise (Timeout (L "timed out")) /\ sample_xlink ∈ visited (snd r))
  /\ (let r := parse_crosstable blank_parser sections_time_out sample_xlink
                                (L "12641216") 15 2 world0 in
      fst r = Raise (Timeout (L "timed out"))
      /\ L "XtblMain.php?201909151232.0-12641216" ∈ visited (snd r)
      /\ sample_xlink ∈ visited (snd r)).
Proof.
  assert (Hnew : sample_xlink ∉ visited world0) by apply not_elem_of_empty.
  split; [exact Hnew|]. split.
  - pose proof (visited_kept_when_fetch_raises blank_parser always_timeout
                  sample_xlink (L "12641216") 15 2 world0 Hnew) as H.
    cbv zeta in H. destruct H as (H & _).
    destruct (H (Timeout (L "timed out")) eq_refl) as [Hr Hin].
    cbv zeta. split; [by rewrite Hr|exact Hin].
  - pose proof (visited_kept_when_fetch_raises blank_parser sections_time_out
                  sample_xlink (L "12641216") 15 2 world0 Hnew) as H.
    cbv zeta in H. destruct H as (_ & H & _).
    assert (Hz : L "XtblMain.php?201909151232.0-12641216"
                 ∉ ({[sample_xlink]} ∪ (∅ : gset str))).
    { rewrite elem_of_union, elem_of_singleton. intros [Heq|Hin].
      - discriminate Heq.
      - by apply not_elem_of_empty in Hin. }
    destruct (H (L "<html></html>") eq_refl eq_refl eq_refl Hz
                (Timeout (L "timed out")) eq_refl) as (Hr & Hin0 & Hin).
    cbv zeta. split; [by rewrite Hr|]. split; [exact Hin0|exact Hin].
Defined.

Lemma visited_links_fetched_once_witness :
  let w := World {[sample_xlink]} [] [] in
  sample_xlink ∈ visited w
  /\ parse_crosstable blank_parser always_timeout sample_xlink (L "12641216")
                      15 3 w = (Return empty_crosstable, w).
Proof.
  intros w.
  assert (Hin : sample_xlink ∈ visited w).
  { unfold w. cbn [visited]. apply elem_of_singleton_2. reflexivity. }
  split; [exact Hin|].
  apply (proj2 (proj2 (proj2 (visited_links_fetched_once blank_parser always_timeout
                                 (L "12641216") 15 3))) sample_xlink w Hin).
Defined.

(** C3 as stated fails: the fetch of the player's page is not guarded by the
    visited set.  In this run the link of the first event is fetched as a
    crosstable, which puts it into the set, and fetched again as the
    player's page by the same event; the second event, run from a state
    whose set holds the link, fetches it a third time. *)
Lemma visited_link_fetched_again :
  returned refetch_run = true
  /\ fetch_log (snd refetch_run)
     = [(History, L "MbrDtlTnmtHst.php?12641216");
        (CrossTable, player_link); (PlayerPage, player_link);
        (CrossTable, sample_xlink); (PlayerPage, player_link)]
  /\ gets_of (BASE_URL ++ player_link) (io (snd refetch_run)) = 3
  /\ ~ NoDup (map snd (fetch_log (snd refetch_run)))
  /\ map ev_xlink refetch_events = [player_link; sample_xlink]
  /\ (let w1 := snd (main_events refetch_parser echo_network (L "12641216") 15 3
                       (firstn 1 refetch_events) world0) in
      player_link ∈ visited w1
      /\ fetch_log (snd (main_events refetch_parser echo_network (L "12641216") 15 3
                           (skipn 1 refetch_events) w1))
         = fetch_log w1 ++ [(CrossTable, sample_xlink); (PlayerPage, player_link)]).
Proof.
  assert (Hlog : fetch_log (snd refetch_run)
     = [(History, L "MbrDtlTnmtHst.php?12641216");
        (CrossTable, player_link); (PlayerPage, player_link);
        (CrossTable, sample_xlink); (PlayerPage, player_link)])
    by (vm_compute; reflexivity).
  split; [vm_compute; reflexivity|]. split; [exact Hlog|].
  split; [vm_compute; reflexivity|]. split.
  { rewrite Hlog. cbn [map snd]. intros Hd.
    apply NoDup_cons in Hd as [_ Hd]. apply NoDup_cons in Hd as [Hn _].
    apply Hn. left. }
  split; [vm_compute; reflexivity|].
  cbv zeta. split.
  - apply (bool_decide_unpack _). vm_compute. exact I.
  - vm_compute. reflexivity.
Qed.


(** ** Trees *)

Lemma node_induction (P : node -> Prop) :
  (forall s, P (NavigableString s)) ->
  (forall name attrs cs, Forall P cs -> P (Tag name attrs cs)) ->
  forall n, P n.
Proof.
  intros Hs Ht. fix IH 1. intros [s|name attrs cs]; [apply Hs|].
  apply Ht. induction cs as [|c cs IHcs]; constructor; [apply IH|exact IHcs].
Qed.

Lemma descendants_tag name attrs cs :
  descendants (Tag name attrs cs) = flat_map (fun c => c :: descendants c) cs.
Proof.
  simpl. induction cs as [|c cs IH]; [done|]. simpl. by rewrite IH.
Qed.

Lemma labelled_tag inside name attrs cs :
  labelled inside (Tag name attrs cs)
  = flat_map (fun c => (inside, c) ::
                       labelled (inside || tag_named (L "table") c) c) cs.
Proof.
  simpl. induction cs as [|c cs IH]; [done|]. simpl. by rewrite IH.
Qed.

Lemma labelled_nodes n : forall inside, map snd (labelled inside n) = descendants n.
Proof.
  induction n as [s|name attrs cs IH] using node_induction; intros inside; [done|].
  rewrite labelled_tag, descendants_tag.
  induction IH as [|c cs Hc _ IHcs]; [done|].
  cbn [flat_map map snd app]. rewrite map_app, Hc, IHcs. done.
Qed.

(** A node below a node below [n] is below [n]. *)
Lemma descendants_trans n : forall c x,
  In c (descendants n) -> In x (descendants c) -> In x (descendants n).
Proof.
  induction n as [s|name attrs cs IH] using node_induction; intros c x Hc Hx;
    [destruct Hc|].
  rewrite descendants_tag in *. apply in_flat_map in Hc as (child & Hchild & Hc).
  apply in_flat_map. exists child. split; [done|].
  destruct Hc as [->|Hc]; [by right|]. right.
  rewrite Forall_forall in IH. eapply IH; eauto. by apply list_elem_of_In.
Qed.

Lemma find_all_nested name gt st x :
  In st (find_all (L "table") gt) -> In x (find_all name st) -> In x (find_all name gt).
Proof.
  unfold find_all. rewrite !filter_In. intros [Hst _] [Hx Hn]. split; [|done].
  eapply descendants_trans; eauto.
Qed.

(** ** The two passes *)

Lemma games_of_rows_nil rows :
  games_of_rows rows = [] <-> forall tr, In tr rows -> row_game tr = None.
Proof.
  induction rows as [|tr rows IH]; simpl.
  - split; [intros _ ? []|done].
  - destruct (row_game tr) eqn:E.
    + split; [discriminate|]. intros H.
      specialize (H tr (or_introl eq_refl)). congruence.
    + rewrite IH. split.
      * intros H x [<-|Hx]; auto.
      * intros H x Hx. apply H. by right.
Qed.

(** When the first pass finds nothing, neither does the second: every row
    below a nested table is a row below the games table. *)
Lemma pass2_nothing_new games_table :
  parse_games_in_table games_table (L "Pass1") = [] ->
  forall st, In st (find_all (L "table") games_table) ->
    parse_games_in_table st (L "Pass2") = [].
Proof.
  unfold parse_games_in_table. rewrite games_of_rows_nil. intros H st Hst.
  apply games_of_rows_nil. intros tr Htr. apply H.
  eapply find_all_nested; eauto.
Qed.

Lemma pass2_nil games_table :
  parse_games_in_table games_table (L "Pass1") = [] -> pass2 games_table = [].
Proof.
  intros H. unfold pass2. apply flat_map_nil_iff. intros st Hst.
  by apply (pass2_nothing_new games_table).
Qed.

Lemma games_of_table_pass1 games_table :
  games_of_table games_table = parse_games_in_table games_table (L "Pass1").
Proof.
  unfold games_of_table.
  destruct (parse_games_in_table games_table (L "Pass1")) eqn:E; [|done].
  by rewrite pass2_nil.
Qed.

Lemma games_of_rows_split (l : list (bool * node)) :
  games_of_rows (map snd (List.filter
                   (fun p => negb (fst p) && tag_named (L "tr") (snd p)) l)) = [] ->
  games_of_rows (map snd (List.filter (fun p => tag_named (L "tr") (snd p)) l))
  = games_of_rows (map snd (List.filter
                     (fun p => fst p && tag_named (L "tr") (snd p)) l)).
Proof.
  induction l as [|[inside x] l IH]; [done|]. cbn [List.filter fst snd].
  destruct (tag_named (L "tr") x); [|rewrite !andb_false_r; exact IH].
  destruct inside; cbn [negb andb map snd games_of_rows].
  - intros H. by rewrite (IH H).
  - destruct (row_game x); [intros H; discriminate H|]. exact IH.
Qed.

Lemma filter_map_snd (f : node -> bool) (l : list (bool * node)) :
  List.filter f (map snd l) = map snd (List.filter (fun p => f (snd p)) l).
Proof.
  induction l as [|p l IH]; [done|]. simpl. destruct (f (snd p)); simpl; by rewrite IH.
Qed.

Lemma pass1_nested_rows games_table pass_label :
  games_of_rows (own_rows games_table) = [] ->
  parse_games_in_table games_table pass_label
  = games_of_rows (nested_rows games_table).
Proof.
  intros Hown. unfold parse_games_in_table, find_all, nested_rows.
  rewrite <- (labelled_nodes games_table false), filter_map_snd.
  by apply games_of_rows_split.
Qed.

(** C2. When the pass over the games table yields no record, the extractor
    is run on every table nested in it and the results are concatenated.
    For a page whose games table has no matching row of its own while the
    tables nested in it hold N matching rows, the games of the page are the
    records of exactly these N rows, one for each, in document order.  (The
    first pass already reads the rows of the nested tables, so the second
    pass, when it runs, has nothing to add.) *)
Theorem two_pass_fallback (BeautifulSoup : str -> node) (html : str)
    (games_table : node) (N : nat) :
  find_games_table (BeautifulSoup html) = Some games_table ->
  games_of_rows (own_rows games_table) = [] ->
  length (games_of_rows (nested_rows games_table)) = N ->
  let out := games (parse_player_specific_page BeautifulSoup html) in
  (parse_games_in_table games_table (L "Pass1") = [] ->
     out = flat_map (fun st => parse_games_in_table st (L "Pass2"))
                    (find_all (L "table") games_table)
     /\ forall st, In st (find_all (L "table") games_table) ->
          length (parse_games_in_table st (L "Pass2")) = length out)
  /\ out = games_of_rows (nested_rows games_table)
  /\ length out = N.
Proof.
  intros Hgt Hown HN out.
  assert (Hout : out = games_of_table games_table).
  { subst out. unfold parse_player_specific_page, parse_player_specific_soup.
    destruct (parse_player_rating_table _). by rewrite Hgt. }
  split; [|split].
  - intros Hp1. split.
    + rewrite Hout. unfold games_of_table. rewrite Hp1. fold (pass2 games_table).
      by destruct (pass2 games_table).
    + intros st Hst. rewrite Hout, games_of_table_pass1, Hp1.
      by rewrite (pass2_nothing_new _ Hp1 st Hst).
  - rewrite Hout, games_of_table_pass1. by apply pass1_nested_rows.
  - rewrite Hout, games_of_table_pass1, (pass1_nested_rows _ _ Hown). exact HN.
Qed.

Lemma two_pass_fallback_witness :
  let out := games (parse_player_specific_page (constant_parser nested_games_page) []) in
  find_games_table nested_games_page = Some nested_games_table
  /\ games_of_rows (own_rows nested_games_table) = []
  /\ length (games_of_rows (nested_rows nested_games_table)) = 2
  /\ length out = 2
  /\ map result out = [L "W"; L "L"].
Proof.
  intros out.
  assert (H1 : find_games_table (constant_parser nested_games_page [])
               = Some nested_games_table) by reflexivity.
  assert (H2 : games_of_rows (own_rows nested_games_table) = []) by reflexivity.
  assert (H3 : length (games_of_rows (nested_rows nested_games_table)) = 2)
    by reflexivity.
  pose proof (two_pass_fallback (constant_parser nested_games_page) []
                nested_games_table 2 H1 H2 H3) as H.
  cbv zeta in H. destruct H as (_ & Hout & Hlen).
  split; [exact H1|]. split; [exact H2|]. split; [exact H3|]. split; [exact Hlen|].
  subst out. rewrite Hout. reflexivity.
Defined.


(** ** Collapsing whitespace *)

Lemma spaces_exec b a :
  exec re_spaces (MState b a [])
  = match a with
    | c :: t => if isspace c then star isspace (c :: b) t [] else []
    | [] => []
    end.
Proof.
  unfold re_spaces, Plus. rewrite exec_seq. destruct a as [|c t]; [done|].
  rewrite exec_chr. destruct (isspace c); [|done]. by rewrite flat_map_one, exec_star.
Qed.

(** Every string splits into its leading whitespace and the rest. *)
Lemma leading_spaces s :
  exists blk rest, s = blk ++ rest /\ all isspace blk /\ next_in isspace rest = false.
Proof.
  induction s as [|c t (blk & rest & -> & Hb & Hr)].
  - exists [], []. repeat split. constructor.
  - destruct (isspace c) eqn:E.
    + exists (c :: blk), rest. repeat split; [by constructor|done].
    + exists [], (c :: blk ++ rest). repeat split; [constructor|done].
Qed.

Lemma sub_skip r repl blk : forall b rest,
  sub_from r repl b (blk ++ rest) (length blk) = sub_from r repl (rev blk ++ b) rest 0.
Proof.
  induction blk as [|c blk IH]; intros b rest; [done|].
  rewrite rev_cons_app. simpl app. cbn [length sub_from]. apply IH.
Qed.

Lemma squeeze_skip blk rest :
  all isspace blk -> squeeze true (blk ++ rest) = squeeze true rest.
Proof.
  induction 1 as [|c blk Hc _ IH]; [done|]. simpl. by rewrite Hc.
Qed.

Lemma squeeze_true_false rest :
  next_in isspace rest = false -> squeeze true rest = squeeze false rest.
Proof. destruct rest as [|c t]; [done|]. simpl. by intros ->. Qed.

Lemma sub_spaces_squeeze : forall n a b,
  length a <= n -> sub_from re_spaces (L " ") b a 0 = squeeze false a.
Proof.
  induction n as [|n IH]; intros a b Hn.
  - destruct a; [|simpl in Hn; lia]. cbn [sub_from]. unfold try_at.
    by rewrite spaces_exec.
  - destruct a as [|c t]; [cbn [sub_from]; unfold try_at; by rewrite spaces_exec|].
    cbn [sub_from squeeze]. unfold try_at. rewrite spaces_exec.
    simpl in Hn. destruct (isspace c) eqn:Ec.
    + destruct (leading_spaces t) as (blk & rest & -> & Hb & Hr).
      destruct (star_run isspace [] blk (c :: b) rest Hb Hr) as (tl & -> & _).
      unfold matched_len. cbn [mo_end mo_start m_before].
      rewrite length_app, length_rev. cbn [length].
      replace (length blk + S (length b) - length b) with (S (length blk)) by lia.
      cbn [L list_ascii_of_string app]. f_equal.
      rewrite sub_skip, squeeze_skip, squeeze_true_false by done.
      apply IH. rewrite length_app in Hn. lia.
    + f_equal. apply IH. lia.
Qed.

Lemma re_sub_spaces raw : re_sub re_spaces (L " ") raw = squeeze false raw.
Proof. unfold re_sub. by apply (sub_spaces_squeeze (length raw)). Qed.

(** Facts about stripping on the right. *)
Lemma lstrip_app u v :
  lstrip (u ++ v) = match lstrip u with [] => lstrip v | _ => lstrip u ++ v end.
Proof.
  induction u as [|c u IH]; simpl.
  - by destruct (lstrip v).
  - destruct (isspace c); [exact IH|done].
Qed.

Lemma rstrip_app x y :
  rstrip (x ++ y) = match rstrip y with [] => rstrip x | _ => x ++ rstrip y end.
Proof.
  unfold rstrip. rewrite rev_app_distr, lstrip_app.
  destruct (lstrip (rev y)) as [|c t] eqn:E; [done|].
  rewrite rev_app_distr, rev_involutive.
  destruct (rev (c :: t)) eqn:E2; [|done].
  apply (f_equal (@length _)) in E2. rewrite length_rev in E2. discriminate.
Qed.

Lemma rstrip_id s : next_in isspace (rev s) = false -> rstrip s = s.
Proof. intros H. unfold rstrip. by rewrite lstrip_id, rev_involutive. Qed.

Lemma rstrip_space : rstrip (L " ") = [].
Proof. reflexivity. Qed.

(** The words of a text are not empty and do not start with whitespace. *)
Lemma split_ws_aux_words s : forall cur,
  (cur = [] \/ next_in isspace (rev cur) = false) ->
  Forall (fun w => w <> [] /\ next_in isspace w = false) (split_ws_aux cur s).
Proof.
  induction s as [|c t IH]; intros cur Hcur; simpl.
  - destruct cur as [|x cur]; [constructor|].
    destruct Hcur as [?|Hcur]; [done|]. constructor; [|constructor].
    split; [|done]. intros E. apply (f_equal (@length _)) in E.
    rewrite length_rev in E. discriminate.
  - destruct (isspace c) eqn:Ec.
    + destruct cur as [|x cur]; [apply IH; by left|].
      destruct Hcur as [?|Hcur]; [done|]. constructor; [|apply IH; by left].
      split; [|done]. intros E. apply (f_equal (@length _)) in E.
      rewrite length_rev in E. discriminate.
    + apply IH. right. destruct cur as [|x cur]; [simpl; by rewrite Ec|].
      destruct Hcur as [?|Hcur]; [done|].
      change (rev (c :: x :: cur)) with (rev (x :: cur) ++ [c]).
      destruct (rev (x :: cur)) eqn:E; [|done].
      apply (f_equal (@length _)) in E. rewrite length_rev in E. discriminate.
Qed.

Lemma join_cons_nonempty sep w ws :
  w <> [] -> join sep (w :: ws) <> [].
Proof. destruct w; [done|]. intros _. by destruct ws. Qed.

Lemma join_cons2 sep w w' ws :
  join sep (w :: w' :: ws) = w ++ sep ++ join sep (w' :: ws).
Proof. reflexivity. Qed.

(** The squeezed text, stripped on the right, is the words joined by single
    spaces: once for a text read from the start of a word, once for a text
    read from inside a whitespace run. *)
Lemma squeeze_words s :
  (forall cur, cur <> [] -> next_in isspace cur = false ->
     rstrip (rev cur ++ squeeze false s) = join (L " ") (split_ws_aux cur s))
  /\ rstrip (squeeze true s) = join (L " ") (split_ws_aux [] s).
Proof.
  induction s as [|c t [IHw IHs]].
  - split; [|done]. intros cur Hne Hsp. cbn [squeeze split_ws_aux]. rewrite app_nil_r.
    destruct cur as [|x cur]; [done|]. cbn [join]. apply rstrip_id.
    by rewrite rev_involutive.
  - assert (Hword : forall cur, next_in isspace (c :: cur) = false ->
              rstrip (rev (c :: cur) ++ squeeze false t)
              = join (L " ") (split_ws_aux (c :: cur) t)).
    { intros cur Hsp. by apply IHw. }
    split.
    + intros cur Hne Hsp. cbn [squeeze split_ws_aux]. destruct (isspace c) eqn:Ec.
      * destruct cur as [|x cur]; [done|].
        pose proof (split_ws_aux_words t [] (or_introl eq_refl)) as Hwords.
        change (rev (x :: cur) ++ " "%char :: squeeze true t)
          with (rev (x :: cur) ++ L " " ++ squeeze true t).
        rewrite rstrip_app, rstrip_app, IHs.
        destruct (split_ws_aux [] t) as [|w ws].
        -- simpl join. rewrite rstrip_space. apply rstrip_id.
           change (rev cur ++ [x]) with (rev (x :: cur)). by rewrite rev_involutive.
        -- inversion Hwords as [|? ? [Hw _] _]; subst. rewrite join_cons2.
           destruct (join (L " ") (w :: ws)) eqn:Ej; [|reflexivity].
           by apply join_cons_nonempty in Ej.
      * replace (rev cur ++ c :: squeeze false t)
          with (rev (c :: cur) ++ squeeze false t) by apply rev_cons_app.
        apply Hword. simpl. exact Ec.
    + cbn [squeeze split_ws_aux]. destruct (isspace c) eqn:Ec; [exact IHs|].
      apply (Hword []). simpl. exact Ec.
Qed.

Lemma rstrip_space_cons x :
  lstrip (rstrip (" "%char :: x)) = lstrip (rstrip x).
Proof.
  change (" "%char :: x) with (L " " ++ x). rewrite rstrip_app.
  destruct (rstrip x); [done|]. reflexivity.
Qed.

Lemma squeeze_false_true s :
  lstrip (rstrip (squeeze false s)) = lstrip (rstrip (squeeze true s)).
Proof.
  destruct s as [|c t]; [done|]. simpl. destruct (isspace c); [|done].
  apply rstrip_space_cons.
Qed.

(** The first step of [fix_location] leaves the words of its input joined
    by single spaces. *)
Lemma collapse_words raw :
  strip (re_sub re_spaces (L " ") raw) = collapse_ws raw.
Proof.
  rewrite re_sub_spaces. unfold strip, collapse_ws, split_ws.
  rewrite squeeze_false_true, (proj2 (squeeze_words raw)).
  pose proof (split_ws_aux_words raw [] (or_introl eq_refl)) as Hwords.
  destruct (split_ws_aux [] raw) as [|w ws]; [done|].
  inversion Hwords as [|? ? [Hne Hsp] _]; subst. apply lstrip_id.
  destruct w as [|x w]; [done|]. destruct ws; [done|]. done.
Qed.


(** ** The location pattern *)

Lemma space_not_word c : isspace c = true -> isword c = false.
Proof. destruct c as [[] [] [] [] [] [] [] []]; vm_compute; congruence. Qed.

Lemma word_not_space c : isword c = true -> isspace c = false.
Proof. destruct c as [[] [] [] [] [] [] [] []]; vm_compute; congruence. Qed.

Lemma space_or_dot c : isspace c = false \/ c = " "%char -> dot c = true.
Proof.
  intros [H| ->]; [|reflexivity]. unfold dot.
  destruct (is_code 10 c) eqn:E; [|done]. apply is_code_10 in E. by subst.
Qed.

Lemma squeeze_chars s : forall in_run,
  Forall (fun c => isspace c = false \/ c = " "%char) (squeeze in_run s).
Proof.
  induction s as [|c t IH]; intros in_run; simpl; [constructor|].
  destruct (isspace c) eqn:E.
  - destruct in_run; [apply IH|]. constructor; [by right|apply IH].
  - constructor; [by left|apply IH].
Qed.

Lemma Forall_lstrip (P : ascii -> Prop) s : Forall P s -> Forall P (lstrip s).
Proof.
  intros H. destruct (lstrip_suffix s) as [pre Hpre]. rewrite Hpre in H.
  by apply Forall_app in H as [_ H].
Qed.

Lemma Forall_strip (P : ascii -> Prop) s : Forall P s -> Forall P (strip s).
Proof.
  intros H. unfold strip, rstrip. apply Forall_lstrip, Forall_rev, Forall_lstrip.
  by apply Forall_rev.
Qed.

(** The collapsed text has no line break. *)
Lemma collapse_ws_dot raw : all dot (collapse_ws raw).
Proof.
  rewrite <- collapse_words, re_sub_spaces.
  eapply Forall_impl; [apply Forall_strip, squeeze_chars|]. apply space_or_dot.
Qed.

Lemma location_tail_ok b g ws c1 c2 rest :
  all isspace ws -> isword c1 = true -> isword c2 = true ->
  exec location_tail (MState b (","%char :: ws ++ c1 :: c2 :: rest) g)
  = [MState (c2 :: c1 :: rev ws ++ ","%char :: b) rest g].
Proof.
  intros Hws H1 H2. unfold location_tail.
  rewrite exec_seq, exec_chr, is_chr_refl, flat_map_one, exec_seq, exec_star.
  destruct (star_run isspace g ws (","%char :: b) (c1 :: c2 :: rest) Hws)
    as (tl & -> & Htl).
  { simpl. by apply word_not_space. }
  cbn [flat_map]. rewrite exec_seq, exec_chr, H1, flat_map_one, exec_chr, H2.
  replace (flat_map _ tl) with (@nil mstate); [done|].
  symmetry. apply flat_map_nil_iff. intros z Hz. apply Htl in Hz.
  rewrite exec_seq. destruct z as [zb [|c t] zg]; [done|]. simpl in Hz.
  rewrite exec_chr, (space_not_word c Hz). done.
Qed.

Lemma location_tail_inv b g post st :
  In st (exec location_tail (MState b post g)) ->
  exists ws c1 c2 rest,
    post = ","%char :: ws ++ c1 :: c2 :: rest /\ all isspace ws /\
    isword c1 = true /\ isword c2 = true /\
    st = MState (c2 :: c1 :: rev ws ++ ","%char :: b) rest g.
Proof.
  unfold location_tail. rewrite exec_seq.
  destruct post as [|c post]; [intros []|]. rewrite exec_chr.
  destruct (is_chr "," c) eqn:Ec; [|intros []]. apply is_chr_true in Ec. subst c.
  rewrite flat_map_one, exec_seq, exec_star. intros H.
  apply in_flat_map in H as (z & Hz & H).
  apply star_in in Hz as (ws & post' & -> & Hws & ->).
  rewrite exec_seq in H. destruct post' as [|c1 post']; [destruct H|].
  rewrite exec_chr in H. destruct (isword c1) eqn:H1; [|destruct H].
  rewrite flat_map_one in H. destruct post' as [|c2 rest]; [destruct H|].
  rewrite exec_chr in H. destruct (isword c2) eqn:H2; [|destruct H].
  destruct H as [<-|[]]. by exists ws, c1, c2, rest.
Qed.

Lemma flat_map_map_flat_map {A B C D} (f : C -> list D) (g : B -> C)
    (h : A -> list B) l :
  flat_map f (map g (flat_map h l)) = flat_map (fun z => flat_map f (map g (h z))) l.
Proof.
  induction l as [|x l IH]; [done|]. simpl.
  by rewrite map_app, flat_map_app, IH.
Qed.

Lemma location_exec s :
  exec re_location (MState [] s [])
  = flat_map (location_from s)
             (match s with
              | c :: t => if dot c then star dot [c] t [] else []
              | [] => []
              end).
Proof.
  unfold re_location. cbn [Seqs]. rewrite exec_seq.
  change (exec Bol (MState [] s [])) with [MState [] s []].
  rewrite flat_map_one, exec_seq, exec_grp.
  change (Seq (Plus dot) (Seq (Chr (is_chr ",")) (Seq (Star isspace)
            (Seq (Chr isword) (Chr isword)))))
    with (Seq (Plus dot) location_tail).
  rewrite exec_seq, flat_map_map_flat_map. unfold Plus. rewrite exec_seq.
  destruct s as [|c t]; [done|]. rewrite exec_chr.
  destruct (dot c); [|done]. by rewrite flat_map_one, exec_star.
Qed.

Lemma rev_location_prefix text ws c1 c2 :
  rev (c2 :: c1 :: rev ws ++ ","%char :: rev text) = text ++ ","%char :: ws ++ [c1; c2].
Proof.
  simpl. rewrite rev_app_distr. simpl. rewrite !rev_involutive.
  rewrite <- !List.app_assoc. reflexivity.
Qed.

Lemma firstn_length_nil {A} (l : list A) : firstn (length l - length (@nil A)) l = l.
Proof. apply firstn_length_minus. Qed.

Lemma location_from_ok s text ws c1 c2 rest :
  all isspace ws -> isword c1 = true -> isword c2 = true ->
  next_in isword rest = false ->
  location_from s (MState (rev text) (","%char :: ws ++ c1 :: c2 :: rest) [])
  = [MState (c2 :: c1 :: rev ws ++ ","%char :: rev text) rest
            [(1, text ++ ","%char :: ws ++ [c1; c2])]].
Proof.
  intros Hws H1 H2 Hb. unfold location_from.
  rewrite location_tail_ok by done. cbn [map]. rewrite flat_map_one.
  unfold close_group. cbn [m_before m_after m_groups exec].
  rewrite firstn_length_nil, rev_location_prefix.
  change (at_word (c2 :: c1 :: rev ws ++ ","%char :: rev text)) with (isword c2).
  change (at_word rest) with (next_in isword rest).
  by rewrite H2, Hb.
Qed.

Lemma location_from_inv s text post st :
  In st (location_from s (MState (rev text) post [])) ->
  exists ws c1 c2 rest,
    post = ","%char :: ws ++ c1 :: c2 :: rest /\ all isspace ws /\
    isword c1 = true /\ isword c2 = true /\ next_in isword rest = false /\
    m_groups st = [(1, text ++ ","%char :: ws ++ [c1; c2])].
Proof.
  unfold location_from. intros H. apply in_flat_map in H as (z & Hz & H).
  apply in_map_iff in Hz as (z0 & <- & Hz0).
  apply location_tail_inv in Hz0 as (ws & c1 & c2 & rest & -> & Hws & H1 & H2 & ->).
  exists ws, c1, c2, rest.
  unfold close_group in H. cbn [m_before m_after m_groups exec] in H.
  rewrite firstn_length_nil, rev_location_prefix in H.
  change (at_word (c2 :: c1 :: rev ws ++ ","%char :: rev text)) with (isword c2) in H.
  change (at_word rest) with (next_in isword rest) in H. rewrite H2 in H.
  destruct (next_in isword rest) eqn:Hb; [destruct H|].
  destruct H as [<-|[]]. repeat split; auto.
Qed.

Lemma comma_class : isspace "," = false /\ isword "," = false.
Proof. split; reflexivity. Qed.

(** The whitespace between comma and code is determined by the text. *)
Lemma code_position ws : forall ws' c1 c1' t t',
  ws ++ c1 :: t = ws' ++ c1' :: t' ->
  all isspace ws -> all isspace ws' -> isword c1 = true -> isword c1' = true ->
  length ws = length ws'.
Proof.
  induction ws as [|w ws IH]; intros [|w' ws'] c1 c1' t t' H Hws Hws' H1 H1'.
  - done.
  - injection H as -> _. inversion Hws'; subst.
    rewrite (space_not_word w') in H1 by done. discriminate.
  - injection H as -> _. inversion Hws; subst.
    rewrite (space_not_word c1') in H1' by done. discriminate.
  - injection H as -> H. inversion Hws; inversion Hws'; subst. simpl. f_equal.
    eapply IH; eauto.
Qed.

(** A comma behind a comma-and-code lies behind the code. *)
Lemma comma_after_code ws : forall k c1 c2 rest X,
  ws ++ c1 :: c2 :: rest = k ++ ","%char :: X ->
  all isspace ws -> isword c1 = true -> isword c2 = true ->
  length ws + 2 <= length k.
Proof.
  induction ws as [|w ws IH]; intros k c1 c2 rest X H Hws H1 H2.
  - destruct k as [|a [|b k]]; simpl in *.
    + injection H as -> _. discriminate.
    + injection H as _ -> _. discriminate.
    + lia.
  - inversion Hws; subst. destruct k as [|a k]; simpl in *.
    + injection H as -> _. discriminate.
    + injection H as _ H. apply IH in H; auto. lia.
Qed.

Lemma prefix_rest (text ws : str) c1 c2 rest :
  (text ++ ","%char :: ws ++ [c1; c2]) ++ rest
  = text ++ ","%char :: ws ++ c1 :: c2 :: rest.
Proof. rewrite <- List.app_assoc. simpl. by rewrite <- List.app_assoc. Qed.

Lemma location_prefix_in s p text ws c1 c2 rest :
  p = text ++ ","%char :: ws ++ [c1; c2] -> s = p ++ rest -> text <> [] ->
  all dot s ->
  In (MState (rev text) (","%char :: ws ++ c1 :: c2 :: rest) [])
     (match s with
      | c :: t => if dot c then star dot [c] t [] else []
      | [] => []
      end).
Proof.
  intros -> -> Hne Hdot. rewrite prefix_rest in *.
  destruct text as [|c text]; [done|]. simpl app in *.
  inversion Hdot as [|? ? Hc Hdot']; subst. rewrite Hc. apply star_in.
  exists text, (","%char :: ws ++ c1 :: c2 :: rest). split; [done|].
  split; [|reflexivity].
  apply Forall_app in Hdot' as [Hd _]. exact Hd.
Qed.

Lemma plus_dot_in s z :
  In z (match s with
        | c :: t => if dot c then star dot [c] t [] else []
        | [] => []
        end) ->
  exists text post, s = text ++ post /\ text <> [] /\ z = MState (rev text) post [].
Proof.
  destruct s as [|c t]; [intros []|]. destruct (dot c); [|intros []].
  intros H. apply star_in in H as (pre & post & -> & _ & ->).
  exists (c :: pre), post. split; [done|]. split; [done|]. reflexivity.
Qed.

Lemma plus_dot_order s l1 x l2 z :
  match s with
  | c :: t => if dot c then star dot [c] t [] else []
  | [] => []
  end = l1 ++ x :: l2 ->
  In z l1 -> length (m_before x) < length (m_before z).
Proof.
  destruct s as [|c t]; [by destruct l1|]. destruct (dot c); [|by destruct l1].
  intros H. by apply (star_order _ _ _ _ _ _ _ H).
Qed.

(** C8 (amended). [fix_location] first collapses the whitespace of its
    input: the words are joined by single spaces.  If the collapsed text
    starts with a text, a comma, optional whitespace and a code of two word
    characters (letters, digits, underscore) that ends at a word boundary,
    the result is that prefix, the longest one if there are several, so
    everything behind the code is cut; if it does not, the result is the
    collapsed text as it is. *)
Theorem fix_location_truncates raw :
  let s := collapse_ws raw in
  strip (re_sub re_spaces (L " ") raw) = s
  /\ ((exists p, location_prefix s p) ->
      location_prefix s (fix_location raw) /\
      forall p, location_prefix s p -> length p <= length (fix_location raw))
  /\ ((forall p, ~ location_prefix s p) -> fix_location raw = s).
Proof.
  intros s. split; [apply collapse_words|].
  unfold fix_location. rewrite collapse_words. fold s.
  unfold re_match, try_at. rewrite location_exec.
  set (splits := match s with
                 | c :: t => if dot c then star dot [c] t [] else []
                 | [] => []
                 end).
  assert (Hdot : all dot s) by apply collapse_ws_dot.
  assert (Hin : forall p, location_prefix s p ->
            exists text ws c1 c2 rest,
              p = text ++ ","%char :: ws ++ [c1; c2] /\ s = p ++ rest /\
              all isspace ws /\ isword c1 = true /\ isword c2 = true /\
              In (MState (rev text) (","%char :: ws ++ c1 :: c2 :: rest) []) splits /\
              location_from s (MState (rev text) (","%char :: ws ++ c1 :: c2 :: rest) [])
              <> []).
  { intros p (text & ws & c1 & c2 & rest & Hp & Hs & Hne & Hws & H1 & H2 & Hb).
    exists text, ws, c1, c2, rest. repeat split; auto.
    - by apply (location_prefix_in s p).
    - by rewrite location_from_ok. }
  destruct (flat_map (location_from s) splits) as [|st more] eqn:E.
  - (* no match *)
    split; [|done]. intros [p Hp]. exfalso.
    destruct (Hin p Hp) as (text & ws & c1 & c2 & rest & _ & _ & _ & _ & _ & Hz & Hne).
    apply Hne. by apply (proj1 (flat_map_nil_iff _ _) E).
  - (* the first match *)
    apply flat_map_hd_inv in E as (l1 & x & l2 & ys & Hsplits & Hnone & Hx).
    assert (Hxin : In x splits) by (rewrite Hsplits; apply in_app_iff; right; by left).
    apply plus_dot_in in Hxin as (text & post & Hs & Hne & ->).
    assert (Hst : In st (location_from s (MState (rev text) post [])))
      by (rewrite Hx; by left).
    apply location_from_inv in Hst as (ws & c1 & c2 & rest & -> & Hws & H1 & H2 & Hb & Hg).
    unfold group. cbn [mo_end]. rewrite Hg. cbn [assoc_nat Nat.eqb].
    set (p := text ++ ","%char :: ws ++ [c1; c2]).
    assert (Hp : location_prefix s p).
    { exists text, ws, c1, c2, rest. repeat split; auto.
      rewrite Hs. unfold p. by rewrite prefix_rest. }
    split; [|intros Hno; by destruct (Hno p)].
    intros _. split; [exact Hp|].
    intros p' Hp'.
    destruct (Hin p' Hp') as (text' & ws' & c1' & c2' & rest' & -> & Hs' & Hws' & H1'
                              & H2' & Hz' & Hne').
    rewrite Hsplits in Hz'. apply in_app_iff in Hz' as [Hz'|[Hz'|Hz']].
    + (* a longer text before the comma would have matched first *)
      by destruct Hne'; apply Hnone.
    + (* the same text before the comma *)
      injection Hz' as Hrev Hpost. apply (f_equal (@rev ascii)) in Hrev.
      rewrite !rev_involutive in Hrev. subst text'.
      apply code_position in Hpost; auto. unfold p. rewrite !length_app. simpl.
      rewrite !length_app. simpl. lia.
    + (* a shorter text before the comma *)
      apply in_split in Hz' as (l2a & l2b & ->).
      assert (Hlen : length text' < length text).
      { replace (l1 ++ MState (rev text) (","%char :: ws ++ c1 :: c2 :: rest) []
                    :: l2a ++ MState (rev text') (","%char :: ws' ++ c1' :: c2' :: rest') []
                    :: l2b)
          with ((l1 ++ MState (rev text) (","%char :: ws ++ c1 :: c2 :: rest) [] :: l2a)
                ++ MState (rev text') (","%char :: ws' ++ c1' :: c2' :: rest') [] :: l2b)
          in Hsplits by (by rewrite <- List.app_assoc).
        pose proof (plus_dot_order s _ _ _
                      (MState (rev text) (","%char :: ws ++ c1 :: c2 :: rest) [])
                      Hsplits) as Ho.
        cbn [m_before] in Ho. rewrite !length_rev in Ho. apply Ho.
        apply in_app_iff. right. by left. }
      rewrite Hs, prefix_rest in Hs'.
      apply app_eq_inv in Hs' as [(k & Ht & Hk)|(k & Ht & Hk)].
      * destruct k as [|a k].
        { rewrite app_nil_r in Ht. subst. lia. }
        injection Hk as <- Hk.
        apply comma_after_code in Hk; auto.
        unfold p. subst text. rewrite !length_app. simpl. rewrite !length_app. simpl.
        lia.
      * subst text'. rewrite length_app in Hlen. lia.
Qed.

Example fix_location_las_vegas :
  fix_location (L "LAS VEGAS, NV  89103") = L "LAS VEGAS, NV".
Proof. reflexivity. Qed.

Example fix_location_online : fix_location (L "ONLINE") = L "ONLINE".
Proof. reflexivity. Qed.

Lemma no_comma_no_prefix s p :
  existsb (chr_eqb ",") s = false -> ~ location_prefix s p.
Proof.
  intros H (text & ws & c1 & c2 & rest & -> & -> & _).
  rewrite !existsb_app in H. simpl in H. rewrite orb_true_r in H. discriminate.
Qed.

Lemma fix_location_truncates_witness :
  location_prefix (collapse_ws (L "LAS VEGAS, NV  89103"))
                  (fix_location (L "LAS VEGAS, NV  89103"))
  /\ fix_location (L "ONLINE") = collapse_ws (L "ONLINE").
Proof.
  split.
  - apply (proj1 (proj2 (fix_location_truncates (L "LAS VEGAS, NV  89103")))).
    exists (L "LAS VEGAS, NV"), (L "LAS VEGAS"), (L " "), "N"%char, "V"%char, (L " 89103").
    split; [reflexivity|]. split; [reflexivity|]. split; [discriminate|].
    split; [repeat constructor|]. split; [reflexivity|]. split; reflexivity.
  - apply (proj2 (proj2 (fix_location_truncates (L "ONLINE")))).
    intros p. by apply no_comma_no_prefix.
Defined.

(** C8 as stated fails: a postal code written right behind the state code
    leaves a prefix of the stated form - text, comma, space, two letters -
    and yet nothing is cut, because the pattern wants the code to end at a
    word boundary. *)
Lemma fix_location_needs_word_boundary :
  letter_code_prefix (collapse_ws (L "LAS VEGAS, NV89103")) (L "LAS VEGAS, NV")
  /\ fix_location (L "LAS VEGAS, NV89103") = L "LAS VEGAS, NV89103"
  /\ fix_location (L "LAS VEGAS, NV89103") <> L "LAS VEGAS, NV".
Proof.
  split; [|split].
  - exists (L "LAS VEGAS"), "N"%char, "V"%char, (L "89103").
    split; [reflexivity|]. split; [reflexivity|]. split; [discriminate|].
    split; reflexivity.
  - reflexivity.
  - discriminate.
Qed.


(** ** What a match takes from the text *)

Ltac took_nothing :=
  split; [done|]; split; [done|]; split; [simpl; lia|];
  split; [intros ? [= <-]; simpl; lia|intros _; constructor].

(** Every way a pattern matches takes a stretch of the text after the
    cursor, within the bounds of the pattern and within its classes. *)
Lemma exec_consumes (P : ascii -> Prop) r : forall s st,
  In st (exec r s) ->
  exists pre,
    m_after s = pre ++ m_after st /\ m_before st = rev pre ++ m_before s /\
    min_len r <= length pre /\
    (forall n, max_len r = Some n -> length pre <= n) /\
    (classes_in P r -> Forall P pre).
Proof.
  induction r as [|p|r1 IH1 r2 IH2|r1 IH1 r2 IH2|p|n r IH| | |]; intros s st Hin.
  - destruct Hin as [<-|[]]. exists []. by took_nothing.
  - simpl in Hin. destruct (m_after s) as [|c t] eqn:Ea; [destruct Hin|].
    destruct (p c) eqn:Hp; [|destruct Hin]. destruct Hin as [<-|[]].
    exists [c]. split; [done|]. split; [done|]. split; [simpl; lia|].
    split; [by intros n [= <-]|].
    intros H. constructor; [by apply H|constructor].
  - rewrite exec_seq in Hin. apply in_flat_map in Hin as (mid & Hmid & Hst).
    destruct (IH1 _ _ Hmid) as (p1 & Ha1 & Hb1 & Hmin1 & Hmax1 & Hc1).
    destruct (IH2 _ _ Hst) as (p2 & Ha2 & Hb2 & Hmin2 & Hmax2 & Hc2).
    exists (p1 ++ p2). rewrite length_app. repeat split.
    + by rewrite Ha1, Ha2, <- List.app_assoc.
    + by rewrite Hb2, Hb1, rev_app_distr, <- List.app_assoc.
    + simpl. lia.
    + simpl. intros n. destruct (max_len r1) as [a|]; [|done].
      destruct (max_len r2) as [b|]; [|done]. intros [= <-].
      specialize (Hmax1 a eq_refl). specialize (Hmax2 b eq_refl). lia.
    + intros [H1 H2]. apply Forall_app. auto.
  - cbn [exec] in Hin. apply in_app_iff in Hin as [Hin|Hin].
    + destruct (IH1 _ _ Hin) as (p1 & Ha1 & Hb1 & Hmin1 & Hmax1 & Hc1).
      exists p1. repeat split; auto.
      * simpl. lia.
      * simpl. intros n. destruct (max_len r1) as [a|]; [|done].
        destruct (max_len r2) as [b|]; [|done]. intros [= <-].
        specialize (Hmax1 a eq_refl). lia.
      * intros [H1 _]. auto.
    + destruct (IH2 _ _ Hin) as (p2 & Ha2 & Hb2 & Hmin2 & Hmax2 & Hc2).
      exists p2. repeat split; auto.
      * simpl. lia.
      * simpl. intros n. destruct (max_len r1) as [a|]; [|done].
        destruct (max_len r2) as [b|]; [|done]. intros [= <-].
        specialize (Hmax2 b eq_refl). lia.
      * intros [_ H2]. auto.
  - destruct s as [b a g]. rewrite exec_star in Hin.
    apply star_in in Hin as (pre & post & -> & Hall & ->).
    exists pre. split; [done|]. split; [done|]. split; [simpl; lia|].
    split; [done|].
    intros H. eapply Forall_impl; [exact Hall|]. exact H.
  - rewrite exec_grp in Hin. apply in_map_iff in Hin as (z & <- & Hz).
    destruct (IH _ _ Hz) as (pre & Ha & Hb & Hmin & Hmax & Hc).
    exists pre. repeat split; auto.
  - simpl in Hin. exists [].
    assert (st = s) as ->
      by (destruct (m_before s); [by destruct Hin as [<-|[]]|destruct Hin]).
    by took_nothing.
  - simpl in Hin. exists [].
    assert (st = s) as ->.
    { destruct (m_after s) as [|c [|]]; [by destruct Hin as [<-|[]]| |destruct Hin].
      destruct (is_code 10 c); [by destruct Hin as [<-|[]]|destruct Hin]. }
    by took_nothing.
  - simpl in Hin. exists [].
    assert (st = s) as ->
      by (destruct (xorb _ _); [by destruct Hin as [<-|[]]|destruct Hin]).
    by took_nothing.
Qed.

(** A pattern without groups leaves the closed groups as they were. *)
Lemma exec_groupless r : forall s st,
  groupless r = true -> In st (exec r s) -> m_groups st = m_groups s.
Proof.
  induction r as [|p|r1 IH1 r2 IH2|r1 IH1 r2 IH2|p|n r IH| | |]; intros s st Hg Hin.
  - by destruct Hin as [<-|[]].
  - simpl in Hin. destruct (m_after s) as [|c t]; [destruct Hin|].
    destruct (p c); [|destruct Hin]. by destruct Hin as [<-|[]].
  - simpl in Hg. apply andb_true_iff in Hg as [Hg1 Hg2].
    rewrite exec_seq in Hin. apply in_flat_map in Hin as (mid & Hmid & Hst).
    rewrite (IH2 _ _ Hg2 Hst). by apply IH1.
  - simpl in Hg. apply andb_true_iff in Hg as [Hg1 Hg2].
    cbn [exec] in Hin. apply in_app_iff in Hin as [Hin|Hin]; auto.
  - destruct s as [b a g]. rewrite exec_star in Hin.
    by apply star_in in Hin as (pre & post & _ & _ & ->).
  - discriminate.
  - simpl in Hin. destruct (m_before s); [|destruct Hin]. by destruct Hin as [<-|[]].
  - simpl in Hin. destruct (m_after s) as [|c [|]]; [by destruct Hin as [<-|[]]| |destruct Hin].
    destruct (is_code 10 c); [by destruct Hin as [<-|[]]|destruct Hin].
  - simpl in Hin. destruct (xorb _ _); [|destruct Hin]. by destruct Hin as [<-|[]].
Qed.

(** A group around a pattern without groups records the text the pattern
    took. *)
Lemma exec_group_text (P : ascii -> Prop) n r s st :
  groupless r = true -> In st (exec (Grp n r) s) ->
  exists pre,
    m_after s = pre ++ m_after st /\ m_before st = rev pre ++ m_before s /\
    m_groups st = (n, pre) :: m_groups s /\
    min_len r <= length pre /\
    (forall k, max_len r = Some k -> length pre <= k) /\
    (classes_in P r -> Forall P pre).
Proof.
  intros Hg Hin. rewrite exec_grp in Hin. apply in_map_iff in Hin as (z & <- & Hz).
  destruct (exec_consumes P _ _ _ Hz) as (pre & Ha & Hb & Hmin & Hmax & Hc).
  exists pre. unfold close_group. cbn [m_after m_before m_groups].
  repeat split; auto.
  rewrite (exec_groupless _ _ _ Hg Hz), Hb. by rewrite firstn_rev_app.
Qed.

(** A search reports the first way the pattern matches at some position of
    the text. *)
Lemma search_from_some r m : forall a b,
  search_from r b a = Some m ->
  exists pre post, a = pre ++ post /\ mo_start m = rev pre ++ b /\
                   first_is (exec r (MState (rev pre ++ b) post [])) (mo_end m).
Proof.
  induction a as [|c t IH]; intros b; cbn [search_from]; unfold try_at.
  - destruct (exec r (MState b [] [])) as [|st more] eqn:E; [done|].
    intros [= <-]. exists [], []. repeat split. by exists more.
  - destruct (exec r (MState b (c :: t) [])) as [|st more] eqn:E.
    + intros H. apply IH in H as (pre & post & -> & Hs & Hf).
      exists (c :: pre), post. rewrite rev_cons_app. auto.
    + intros [= <-]. exists [], (c :: t). repeat split. by exists more.
Qed.

Lemma re_search_some r s m :
  re_search r s = Some m ->
  exists pre post, s = pre ++ post /\ mo_start m = rev pre /\
                   first_is (exec r (MState (rev pre) post [])) (mo_end m).
Proof.
  intros H. apply search_from_some in H as (pre & post & -> & Hs & Hf).
  rewrite app_nil_r in *. eauto.
Qed.

Lemma first_is_in l st : first_is l st -> In st l.
Proof. intros [o ->]. by left. Qed.


(** ** The date prefix *)

Ltac date_tests :=
  repeat (cbn -[isdecimal chr_eqb]; try reflexivity;
          match goal with
          | |- context [isdecimal ?c] => destruct (isdecimal c) eqn:?
          | |- context [chr_eqb ?c ?a] => destruct (chr_eqb c a) eqn:?
          end).

Lemma parse_date_prefix_eq txt :
  parse_date_prefix txt
  = if date_shape (firstn 10 txt) then firstn 10 txt else txt.
Proof.
  unfold parse_date_prefix, re_match, try_at, re_date, is_chr.
  do 10 (destruct txt as [|? txt]; [by date_tests|]).
  by date_tests.
Qed.

(** X1. [parse_date_prefix] keeps the first ten characters of a text that
    starts with four digits, a hyphen, two digits, a hyphen and two digits -
    whatever the digits are, no calendar is consulted - and returns every
    other text as it is.  Applying it twice changes nothing more. *)
Theorem parse_date_prefix_spec txt :
  parse_date_prefix txt
  = (if date_shape (firstn 10 txt) then firstn 10 txt else txt)
  /\ parse_date_prefix (parse_date_prefix txt) = parse_date_prefix txt.
Proof.
  split; [apply parse_date_prefix_eq|].
  rewrite (parse_date_prefix_eq txt).
  destruct (date_shape (firstn 10 txt)) eqn:E; rewrite parse_date_prefix_eq.
  - rewrite firstn_firstn, Nat.min_id. by rewrite E.
  - by rewrite E.
Qed.

(** ** The rating pair *)

Lemma startswith_nil s : startswith s [] = true.
Proof. by destruct s. Qed.

Lemma arrow_split a b :
  contains a (L "=>") = false ->
  contains (a ++ L "=>" ++ b) (L "=>") = true
  /\ partition_at (L "=>") (a ++ L "=>" ++ b) = Some (a, b).
Proof.
  induction a as [|c a IH]; intros Hno.
  { split; cbn; by rewrite startswith_nil. }
  cbn [contains] in Hno. apply orb_false_iff in Hno as [Hs Hno].
  destruct (IH Hno) as [IHc IHp].
  assert (Hs' : startswith ((c :: a) ++ L "=>" ++ b) (L "=>") = false).
  { clear IH IHc IHp Hno. destruct a as [|d a].
    - cbn. apply andb_false_iff. right. reflexivity.
    - cbn in *. rewrite startswith_nil in *. exact Hs. }
  split.
  - change ((c :: a) ++ L "=>" ++ b) with (c :: (a ++ L "=>" ++ b)).
    cbn [contains]. rewrite IHc. apply orb_true_r.
  - change ((c :: a) ++ L "=>" ++ b) with (c :: (a ++ L "=>" ++ b)) in *.
    cbn [partition_at]. rewrite Hs', IHp. reflexivity.
Qed.

Lemma strip_strip s : strip (strip s) = strip s.
Proof. apply strip_id; [apply strip_head|apply strip_last]. Qed.

(** X2. [parse_rating_pair] cuts a text at its first arrow and strips
    both sides; a text without an arrow is stripped and paired with the
    empty string.  Neither component ever starts or ends with whitespace. *)
Theorem parse_rating_pair_spec :
  (forall a b, contains a (L "=>") = false ->
     parse_rating_pair (a ++ L "=>" ++ b) = (strip a, strip b))
  /\ (forall txt, contains txt (L "=>") = false ->
        parse_rating_pair txt = (strip txt, []))
  /\ (forall txt, strip (fst (parse_rating_pair txt)) = fst (parse_rating_pair txt)
               /\ strip (snd (parse_rating_pair txt)) = snd (parse_rating_pair txt)).
Proof.
  split; [|split].
  - intros a b Hno. destruct (arrow_split a b Hno) as [Hc Hp].
    unfold parse_rating_pair. by rewrite Hc, Hp.
  - intros txt Hno. unfold parse_rating_pair. by rewrite Hno.
  - intros txt. unfold parse_rating_pair.
    destruct (contains txt (L "=>")); [destruct (partition_at _ _) as [[l r]|]|];
      simpl; split; try apply strip_strip; reflexivity.
Qed.

Lemma parse_rating_pair_spec_witness :
  parse_rating_pair (L "1294 => 1451 => 1500") = (L "1294", L "1451 => 1500")
  /\ parse_rating_pair (L " 1294 ") = (L "1294", []).
Proof.
  destruct parse_rating_pair_spec as (H1 & H2 & _). split.
  - apply (H1 (L "1294 ") (L " 1451 => 1500")). reflexivity.
  - apply (H2 (L " 1294 ")). reflexivity.
Defined.


(** ** The tournament list *)

Lemma firstn_S_sub {A} (c : A) l n m :
  m <= n -> firstn (S n - m) (c :: l) = c :: firstn (n - m) l.
Proof. intros H. by replace (S n - m) with (S (n - m)) by lia. Qed.

Lemma firstn_sub_diag {A} (l : list A) n : firstn (n - n) l = [].
Proof. by rewrite Nat.sub_diag. Qed.

Ltac event_id_tests :=
  repeat (cbn -[isdecimal Nat.sub]; try reflexivity;
          match goal with
          | |- context [isdecimal ?c] => destruct (isdecimal c) eqn:?
          end);
  cbn -[isdecimal Nat.sub];
  rewrite ?firstn_S_sub by (cbn; lia); rewrite ?firstn_sub_diag; try reflexivity.

(** The pattern of the event id at one position: it matches when at least
    nine digits follow, and takes twelve of them at most. *)
Lemma try_at_event_id b s :
  option_map (group 1) (try_at re_event_id b s)
  = if 9 <=? length (digit_run s) then Some (firstn 12 (digit_run s)) else None.
Proof.
  unfold try_at, re_event_id, group.
  do 12 (destruct s as [|? s]; [by event_id_tests|]).
  by event_id_tests.
Qed.

(** A search with the pattern of the event id finds the leftmost run of at
    least nine digits and takes its first twelve at most. *)
Lemma search_event_id s : forall b,
  match search_from re_event_id b s with
  | Some me => group 1 me
  | None => []
  end = event_id_scan s.
Proof.
  induction s as [|c t IH]; intros b.
  - cbn [search_from]. pose proof (try_at_event_id b []) as H.
    destruct (try_at re_event_id b []); [discriminate|done].
  - cbn [search_from event_id_scan]. pose proof (try_at_event_id b (c :: t)) as H.
    destruct (try_at re_event_id b (c :: t)) as [m|];
      destruct (9 <=? length (digit_run (c :: t))); simpl in H; try discriminate.
    + by injection H.
    + apply IH.
Qed.

Lemma digit_run_digits s : all isdecimal (digit_run s).
Proof.
  induction s as [|c t IH]; simpl; [constructor|].
  destruct (isdecimal c) eqn:E; [by constructor|constructor].
Qed.

Lemma event_id_scan_shape s :
  event_id_scan s = [] \/
  (all isdecimal (event_id_scan s) /\ 9 <= length (event_id_scan s) <= 12).
Proof.
  induction s as [|c t IH]; [by left|]. cbn [event_id_scan].
  destruct (9 <=? length (digit_run (c :: t))) eqn:E; [|exact IH].
  right. apply Nat.leb_le in E. split.
  - apply Forall_take, digit_run_digits.
  - rewrite length_take. lia.
Qed.

(** The words of a text hold no whitespace. *)
Lemma split_ws_aux_no_space s : forall cur,
  no_space cur -> Forall no_space (split_ws_aux cur s).
Proof.
  induction s as [|c t IH]; intros cur Hcur; simpl.
  - destruct cur; [constructor|]. constructor; [by apply Forall_rev|constructor].
  - destruct (isspace c) eqn:Ec.
    + destruct cur; [apply IH; constructor|].
      constructor; [by apply Forall_rev|apply IH; constructor].
    + apply IH. by constructor.
Qed.

Lemma first_token_no_space s : no_space (first_token s).
Proof.
  unfold first_token, split_ws.
  assert (H : Forall no_space (split_ws_aux [] s)) by (apply split_ws_aux_no_space; constructor).
  destruct (split_ws_aux [] s); simpl; [constructor|]. by inversion H.
Qed.

(** A text without whitespace is its own single word. *)
Lemma split_ws_aux_word s : forall cur,
  no_space s -> cur ++ s <> [] -> split_ws_aux cur s = [rev cur ++ s].
Proof.
  induction s as [|c t IH]; intros cur Hs Hne; simpl.
  - rewrite app_nil_r in *. by destruct cur.
  - inversion Hs as [|? ? Hc Ht]; subst. rewrite Hc, IH; [|done|done].
    by rewrite rev_cons_app.
Qed.

Lemma first_token_word s : no_space s -> first_token s = s.
Proof.
  intros Hs. destruct s as [|c t]; [done|].
  unfold first_token, split_ws. by rewrite split_ws_aux_word.
Qed.

Lemma parse_rating_pair_stripped txt :
  strip (fst (parse_rating_pair txt)) = fst (parse_rating_pair txt)
  /\ strip (snd (parse_rating_pair txt)) = snd (parse_rating_pair txt).
Proof.
  unfold parse_rating_pair.
  destruct (contains txt (L "=>")); [destruct (partition_at _ _) as [[l r]|]|];
    simpl; split; try apply strip_strip; reflexivity.
Qed.

Lemma event_of_row_fields r ev :
  event_of_row r = Some ev ->
  exists td0 td1 td2 td3 td4 more,
    find_all (L "td") r = td0 :: td1 :: td2 :: td3 :: td4 :: more /\
    ev_end_date ev = (if truthy (get_text [] td0)
                      then first_token (get_text [] td0) else []) /\
    ev_event_id ev = event_id_scan (get_text [] td0) /\
    ev_event_name ev = get_text [] td1 /\
    (ev_reg_before ev, ev_reg_after ev) = parse_rating_pair (get_text [] td2) /\
    (ev_quick_before ev, ev_quick_after ev) = parse_rating_pair (get_text [] td3) /\
    (ev_blitz_before ev, ev_blitz_after ev) = parse_rating_pair (get_text [] td4).
Proof.
  unfold event_of_row.
  destruct (find_all (L "td") r) as [|td0 [|td1 [|td2 [|td3 [|td4 more]]]]]; try done.
  destruct (parse_rating_pair (get_text [] td2)) as [rb ra] eqn:E2.
  destruct (parse_rating_pair (get_text [] td3)) as [qb qa] eqn:E3.
  destruct (parse_rating_pair (get_text [] td4)) as [bb ba] eqn:E4.
  intros [= <-]. exists td0, td1, td2, td3, td4, more.
  cbn [ev_end_date ev_event_id ev_event_name ev_reg_before ev_reg_after
       ev_quick_before ev_quick_after ev_blitz_before ev_blitz_after].
  split; [done|]. split; [done|]. split; [apply search_event_id|].
  by rewrite E2, E3, E4.
Qed.

Section TournamentList.

Variable BeautifulSoup : str -> node.

(** X3. Every event [parse_tournament_list] returns is well formed: its
    id is empty or a run of nine to twelve digits, its end date holds no
    whitespace, and none of its six rating fields starts or ends with
    whitespace. *)
Theorem tournament_events_well_formed html ev :
  In ev (parse_tournament_list BeautifulSoup html) ->
  (ev_event_id ev = [] \/
   (all isdecimal (ev_event_id ev) /\ 9 <= length (ev_event_id ev) <= 12))
  /\ no_space (ev_end_date ev)
  /\ Forall (fun field => strip field = field)
       [ev_reg_before ev; ev_reg_after ev; ev_quick_before ev;
        ev_quick_after ev; ev_blitz_before ev; ev_blitz_after ev].
Proof.
  unfold parse_tournament_list, parse_tournament_list_soup. intros Hin.
  apply list_elem_of_In, list_elem_of_omap in Hin as (r & _ & Hev).
  apply event_of_row_fields in Hev
    as (td0 & td1 & td2 & td3 & td4 & more & _ & Hd & Hid & _ & Hr & Hq & Hb).
  split; [rewrite Hid; apply event_id_scan_shape|]. split.
  - rewrite Hd. destruct (truthy _); [apply first_token_no_space|constructor].
  - pose proof (parse_rating_pair_stripped (get_text [] td2)) as [R1 R2].
    pose proof (parse_rating_pair_stripped (get_text [] td3)) as [Q1 Q2].
    pose proof (parse_rating_pair_stripped (get_text [] td4)) as [B1 B2].
    rewrite <- Hr in R1, R2. rewrite <- Hq in Q1, Q2. rewrite <- Hb in B1, B2.
    repeat constructor; assumption.
Qed.

End TournamentList.

Lemma tournament_events_well_formed_witness :
  In history_event (parse_tournament_list (constant_parser history_page) [])
  /\ no_space (ev_end_date history_event)
  /\ 9 <= length (ev_event_id history_event) <= 12.
Proof.
  assert (Hin : In history_event
                   (parse_tournament_list (constant_parser history_page) []))
    by (left; reflexivity).
  destruct (tournament_events_well_formed (constant_parser history_page) []
              history_event Hin) as (Hid & Hdate & _).
  split; [exact Hin|]. split; [exact Hdate|].
  destruct Hid as [Hid|[_ Hid]]; [discriminate|exact Hid].
Defined.

Lemma date_then_id date id :
  date_shape date = true -> all isdecimal id -> length id = 12 ->
  event_id_scan (date ++ id) = skipn 8 date ++ firstn 10 id
  /\ no_space (date ++ id)
  /\ firstn 10 (date ++ id) = date.
Proof.
  intros Hd Hid Hlen.
  do 11 (destruct date as [|? date]; try discriminate Hd).
  do 13 (destruct id as [|? id]; try discriminate Hlen).
  cbn [date_shape] in Hd.
  do 9 (apply andb_true_iff in Hd as [Hd ?]).
  repeat match goal with H : chr_eqb _ _ = true |- _ => apply chr_eqb_eq in H; subst end.
  unfold all in Hid.
  repeat match goal with H : Forall _ (_ :: _) |- _ =>
    inversion H as [|? ? ? ?]; clear H; subst end.
  split; [|split].
  - cbn -[isdecimal].
    repeat (match goal with
            | H : isdecimal ?c = true |- context [isdecimal ?c] => rewrite H
            end; cbn -[isdecimal]).
    reflexivity.
  - repeat constructor; try (by apply digit_not_space).
  - reflexivity.
Qed.

(** X4. The strings of the first cell are joined without a separator.
    For a row whose first cell holds a date string and an id string of
    twelve digits, the end date of the event is the date followed by the id,
    and the event id - the leftmost run of nine to twelve digits - is the
    two day digits of the date followed by the first ten digits of the id.
    [parse_date_prefix] recovers the date from that end date. *)
Theorem event_id_joined_to_date r td0 tds date id :
  find_all (L "td") r = td0 :: tds -> 4 <= length tds ->
  stripped_strings td0 = [date; id] ->
  date_shape date = true -> all isdecimal id -> length id = 12 ->
  exists ev, event_of_row r = Some ev
    /\ ev_end_date ev = date ++ id
    /\ ev_event_id ev = skipn 8 date ++ firstn 10 id
    /\ parse_date_prefix (ev_end_date ev) = date.
Proof.
  intros Hr Hn Hs Hd Hid Hlen.
  destruct (date_then_id date id Hd Hid Hlen) as (Hscan & Hns & Hten).
  do 4 (destruct tds as [|? tds]; [simpl in Hn; lia|]).
  assert (Htext : get_text [] td0 = date ++ id)
    by (unfold get_text; rewrite Hs; reflexivity).
  destruct (event_of_row r) as [ev|] eqn:Ev.
  - pose proof (event_of_row_fields r ev Ev)
      as (c0 & c1 & c2 & c3 & c4 & more & Hf & Hdate & Hevid & _).
    rewrite Hr in Hf. injection Hf as <- _. rewrite Htext in Hdate, Hevid.
    assert (Hend : ev_end_date ev = date ++ id).
    { rewrite Hdate. destruct (date ++ id) eqn:E; [done|]. simpl.
      rewrite <- E. apply first_token_word. by rewrite E. }
    exists ev. split; [done|]. split; [done|]. split; [by rewrite Hevid|].
    rewrite Hend, parse_date_prefix_eq, Hten. by rewrite Hd.
  - unfold event_of_row in Ev. rewrite Hr in Ev.
    destruct (parse_rating_pair (get_text [] n0)) as [? ?].
    destruct (parse_rating_pair (get_text [] n1)) as [? ?].
    destruct (parse_rating_pair (get_text [] n2)) as [? ?]. discriminate.
Qed.

Lemma event_id_joined_to_date_witness :
  event_of_row history_row = Some history_event
  /\ ev_event_id history_event = L "15" ++ L "2019091512"
  /\ parse_date_prefix (ev_end_date history_event) = L "2019-09-15".
Proof.
  destruct (event_id_joined_to_date history_row
              (Tag (L "td") [(L "width", L "120")]
                 [NavigableString (L "2019-09-15"); Tag (L "br") [] [];
                  Tag (L "small") [] [NavigableString (L "201909151232")]])
              (skipn 1 (find_all (L "td") history_row))
              (L "2019-09-15") (L "201909151232"))
    as (ev & Hev & _ & Hid & Hdate).
  - reflexivity.
  - simpl. lia.
  - reflexivity.
  - reflexivity.
  - repeat constructor.
  - reflexivity.
  - assert (E : ev = history_event)
      by (apply (f_equal (fun o => match o with Some e => e | None => ev end)) in Hev;
          symmetry; exact Hev).
    subst ev. split; [reflexivity|]. split; [exact Hid|exact Hdate].
Defined.


(** ** The all-sections link *)

Lemma first_lit l : forall b rest g,
  first_is (exec (Lit l) (MState b (l ++ rest) g)) (MState (rev l ++ b) rest g).
Proof.
  induction l as [|c l IH]; intros b rest g; [by exists []|].
  cbn [Lit]. eapply first_seq; [apply first_chr, is_chr_refl|].
  rewrite rev_cons_app. apply IH.
Qed.

Lemma re_search_first r s st :
  first_is (exec r (MState [] s [])) st -> re_search r s = Some (MatchObj [] st).
Proof.
  intros [more H]. unfold re_search.
  destruct s; cbn [search_from]; unfold try_at; by rewrite H.
Qed.

(** The link the page is searched for is the link that comes back. *)
Lemma find_zero_link soup zero :
  match find_all_attrs (L "a") [(L "href", zero)] soup with
  | link_ :: _ =>
      match get_attr (L "href") link_ with
      | Some h => h
      | None => zero
      end
  | [] => zero
  end = zero.
Proof.
  destruct (find_all_attrs _ _ soup) as [|link_ more] eqn:E; [done|].
  assert (Hin : In link_ (find_all_attrs (L "a") [(L "href", zero)] soup))
    by (rewrite E; by left).
  unfold find_all_attrs in Hin. apply filter_In in Hin as [_ Hin].
  apply andb_true_iff in Hin as [_ Hin]. unfold has_attrs in Hin.
  cbn [forallb fst snd] in Hin. rewrite andb_true_r in Hin.
  destruct (get_attr (L "href") link_) as [v|]; [|done].
  by apply str_eqb_eq in Hin.
Qed.

(** X5. The page plays no part in the result of [find_all_sections_link]:
    the link it looks up in the page is the link it returns when the page
    has none. *)
Theorem find_all_sections_link_ignores_page soup soup' xlink :
  find_all_sections_link soup xlink = find_all_sections_link soup' xlink.
Proof.
  unfold find_all_sections_link. destruct (re_search re_xtbl_main xlink) as [m|]; [|done].
  cbv zeta. by rewrite !find_zero_link.
Qed.

Lemma xtbl_main_groups eid pid rest :
  eid <> [] -> all isdecimal eid -> pid <> [] -> all isdecimal pid ->
  next_in isdecimal rest = false ->
  exists m, re_search re_xtbl_main
              (L "XtblMain.php?" ++ eid ++ "-"%char :: pid ++ rest) = Some m
            /\ group 1 m = eid /\ group 2 m = pid.
Proof.
  intros Hne He Hnp Hp Hr.
  destruct eid as [|e eid]; [done|]. destruct pid as [|p pid]; [done|].
  inversion He as [|? ? He1 He2]; inversion Hp as [|? ? Hp1 Hp2]; subst.
  eexists. split.
  - apply re_search_first. unfold re_xtbl_main. cbn [Seqs].
    eapply first_seq; [apply first_lit|].
    eapply first_seq.
    { apply first_grp. simpl app. apply first_plus; [exact He1|exact He2|reflexivity]. }
    rewrite close_group_digits.
    eapply first_seq; [by apply first_chr|].
    apply first_grp. simpl app. by apply first_plus.
  - rewrite close_group_digits. split; reflexivity.
Qed.

Lemma not_X_digit c : isdecimal c = true -> is_chr "X" c = false.
Proof.
  intros H. destruct (is_chr "X" c) eqn:E; [|done].
  apply is_chr_true in E. by subst.
Qed.

(** A pattern that starts with a literal character matches nowhere in a
    text without that character. *)
Lemma search_from_no_first c r1 r2 a : forall b,
  Forall (fun d => is_chr c d = false) a ->
  search_from (Seq (Seq (Chr (is_chr c)) r1) r2) b a = None.
Proof.
  induction a as [|d a IH]; intros b Ha; cbn [search_from]; unfold try_at.
  - by rewrite !exec_seq, exec_chr_nil.
  - inversion Ha as [|? ? Hd Ha']; subst.
    rewrite !exec_seq, exec_chr, Hd. cbn [flat_map]. by apply IH.
Qed.

Lemma digits_then_dot eid tail : forall pre za,
  all isdecimal eid -> all isdecimal pre ->
  eid ++ "."%char :: tail = pre ++ "-"%char :: za -> False.
Proof.
  induction eid as [|e eid IH]; intros pre za He Hpre Ha.
  - destruct pre as [|x pre]; [discriminate|]. injection Ha as <- _.
    inversion Hpre; subst. discriminate.
  - inversion He as [|? ? He1 He2]; subst.
    destruct pre as [|x pre].
    + injection Ha as -> _. discriminate.
    + injection Ha as <- Ha. inversion Hpre; subst. by apply (IH pre za).
Qed.

Lemma xtbl_main_no_dot eid tail :
  all isdecimal eid ->
  exec re_xtbl_main (MState [] (L "XtblMain.php?" ++ eid ++ "."%char :: tail) []) = [].
Proof.
  intros He. destruct (exec re_xtbl_main _) as [|st more] eqn:E; [done|exfalso].
  assert (Hin : In st (exec re_xtbl_main
            (MState [] (L "XtblMain.php?" ++ eid ++ "."%char :: tail) [])))
    by (rewrite E; by left).
  clear E. unfold re_xtbl_main in Hin. cbn [Seqs] in Hin.
  rewrite exec_seq in Hin. apply in_flat_map in Hin as (z1 & Hz1 & Hin).
  assert (z1 = MState (rev (L "XtblMain.php?")) (eid ++ "."%char :: tail) []) as ->.
  { cbn in Hz1. by destruct Hz1 as [<-|[]]. }
  rewrite exec_seq in Hin. apply in_flat_map in Hin as (z2 & Hz2 & Hin).
  apply (exec_group_text (fun c => isdecimal c = true)) in Hz2
    as (pre & Ha & _ & _ & _ & _ & Hc); [|reflexivity].
  cbn [m_after] in Ha.
  assert (Hpre : all isdecimal pre) by (apply Hc; simpl; auto).
  rewrite exec_seq in Hin. apply in_flat_map in Hin as (z3 & Hz3 & _).
  destruct z2 as [zb za zg]. cbn [m_after] in Ha. destruct za as [|c za]; [done|].
  rewrite exec_chr in Hz3. destruct (is_chr "-" c) eqn:Ec; [|done].
  apply is_chr_true in Ec. subst c.
  by apply (digits_then_dot eid tail pre za).
Qed.

(** X6. The all-sections variant of a crosstable link puts ".0" behind
    the event number: the link is rebuilt from the two runs of digits around
    the hyphen, and whatever follows them is dropped.  A link that is
    already an all-sections variant has no variant of its own: the result is
    the empty string. *)
Theorem find_all_sections_link_value soup :
  (forall eid pid rest,
     eid <> [] -> all isdecimal eid -> pid <> [] -> all isdecimal pid ->
     next_in isdecimal rest = false ->
     find_all_sections_link soup
       (L "XtblMain.php?" ++ eid ++ "-"%char :: pid ++ rest)
     = L "XtblMain.php?" ++ eid ++ L ".0-" ++ pid)
  /\ (forall eid pid,
        all isdecimal eid -> all isdecimal pid ->
        find_all_sections_link soup (L "XtblMain.php?" ++ eid ++ L ".0-" ++ pid) = []).
Proof.
  split.
  - intros eid pid rest Hne He Hnp Hp Hr.
    destruct (xtbl_main_groups eid pid rest Hne He Hnp Hp Hr) as (m & Hm & H1 & H2).
    unfold find_all_sections_link. rewrite Hm. cbv zeta.
    by rewrite find_zero_link, H1, H2.
  - intros eid pid He Hp. unfold find_all_sections_link.
    replace (re_search re_xtbl_main (L "XtblMain.php?" ++ eid ++ L ".0-" ++ pid))
      with (@None match_obj); [done|].
    symmetry. unfold re_search.
    change (L "XtblMain.php?" ++ eid ++ L ".0-" ++ pid)
      with ("X"%char :: (L "tblMain.php?" ++ eid ++ L ".0-" ++ pid)).
    cbn [search_from]. unfold try_at.
    change ("X"%char :: (L "tblMain.php?" ++ eid ++ L ".0-" ++ pid))
      with (L "XtblMain.php?" ++ eid ++ "."%char :: (L "0-" ++ pid)).
    rewrite xtbl_main_no_dot by done.
    apply search_from_no_first.
    repeat (apply Forall_cons; split; [reflexivity|]).
    apply Forall_app. split.
    + eapply Forall_impl; [exact He|]. apply not_X_digit.
    + repeat (apply Forall_cons; split; [reflexivity|]).
      eapply Forall_impl; [exact Hp|]. apply not_X_digit.
Qed.

Lemma find_all_sections_link_value_witness :
  find_all_sections_link blank_soup (L "XtblMain.php?201909151232-12641216")
  = L "XtblMain.php?201909151232.0-12641216"
  /\ find_all_sections_link blank_soup (L "XtblMain.php?201909151232.0-12641216") = [].
Proof.
  destruct (find_all_sections_link_value blank_soup) as [H1 H2]. split.
  - apply (H1 (L "201909151232") (L "12641216") []);
      [discriminate|repeat constructor|discriminate|repeat constructor|reflexivity].
  - apply (H2 (L "201909151232") (L "12641216")); repeat constructor.
Defined.


(** ** The summary table *)

Lemma lower_char_lower c : lower_char (lower_char c) = lower_char c.
Proof. destruct c as [[] [] [] [] [] [] [] []]; reflexivity. Qed.

Lemma lower_lower s : lower (lower s) = lower s.
Proof.
  unfold lower. rewrite map_map. apply map_ext. intros c. apply lower_char_lower.
Qed.

Lemma parse_summary_table_rows soup :
  parse_summary_table soup
  = match summary_table soup with
    | Some big => fold_left summary_row (find_all (L "tr") big) ∅
    | None => ∅
    end.
Proof.
  unfold parse_summary_table, summary_table.
  destruct (find_all_attrs _ _ soup); [|done].
  by destruct (find_all_attrs _ _ soup).
Qed.

Lemma summary_row_entry data r :
  summary_row data r
  = match summary_entry r with
    | Some (k, v) => <[k := v]> data
    | None => data
    end.
Proof.
  unfold summary_row, summary_entry.
  by destruct (find_all (L "td") r) as [|c0 [|c1 more]].
Qed.

(** What the loop over the rows leaves under a key: the value of the last
    row with that label, or what was there before. *)
Lemma summary_fold_last rows : forall data k,
  fold_left summary_row rows data !! k
  = match rows with
    | [] => data !! k
    | _ =>
        match List.find (fun e => str_eqb (fst e) k) (rev (omap summary_entry rows)) with
        | Some e => Some (snd e)
        | None => data !! k
        end
    end.
Proof.
  induction rows as [|r rows IH] using rev_ind; intros data k; [done|].
  rewrite fold_left_app. cbn [fold_left]. rewrite summary_row_entry.
  assert (Hne : match rows ++ [r] with [] => data !! k | _ =>
    match List.find (fun e => str_eqb (fst e) k) (rev (omap summary_entry (rows ++ [r]))) with
    | Some e => Some (snd e) | None => data !! k end end
    = match List.find (fun e => str_eqb (fst e) k) (rev (omap summary_entry (rows ++ [r]))) with
      | Some e => Some (snd e) | None => data !! k end) by (by destruct rows).
  rewrite Hne. clear Hne. rewrite omap_app, rev_app_distr. cbn [omap list_omap].
  assert (Hprev : fold_left summary_row rows data !! k
            = match List.find (fun e => str_eqb (fst e) k) (rev (omap summary_entry rows)) with
              | Some e => Some (snd e) | None => data !! k end).
  { rewrite IH. by destruct rows. }
  destruct (summary_entry r) as [[k' v']|]; cbn [rev app].
  - cbn [List.find fst snd]. destruct (str_eqb k' k) eqn:E.
    + apply str_eqb_eq in E. subst. by rewrite lookup_insert_eq.
    + assert (k' <> k) by (intros ->; by rewrite str_eqb_refl in E).
      rewrite lookup_insert_ne by done. exact Hprev.
  - exact Hprev.
Qed.

Lemma find_rev_last {A} (f : A -> bool) l1 x l2 :
  f x = true -> Forall (fun y => f y = false) l2 ->
  List.find f (rev (l1 ++ x :: l2)) = Some x.
Proof.
  intros Hx Hl2. rewrite rev_app_distr. cbn [rev]. rewrite <- List.app_assoc.
  apply Forall_rev in Hl2.
  induction Hl2 as [|y l Hy _ IH]; cbn; [by rewrite Hx|]. by rewrite Hy.
Qed.

Lemma summary_entry_key r k v :
  summary_entry r = Some (k, v) ->
  lower k = k /\ (k = L "location" -> exists raw, v = fix_location raw).
Proof.
  unfold summary_entry. destruct (find_all (L "td") r) as [|c0 [|c1 more]]; try done.
  cbv zeta. intros [= <- <-]. split; [apply lower_lower|].
  intros ->. rewrite str_eqb_refl. by eexists.
Qed.

(** X7. When two rows of the summary table carry the same label, the value
    of the later row is the one [parse_summary_table] reports. *)
Theorem summary_last_label_wins soup big l1 r l2 k v :
  summary_table soup = Some big ->
  find_all (L "tr") big = l1 ++ r :: l2 ->
  summary_entry r = Some (k, v) ->
  Forall (fun r' => forall v', summary_entry r' <> Some (k, v')) l2 ->
  parse_summary_table soup !! k = Some v.
Proof.
  intros Hbig Hrows Hr Hl2.
  rewrite parse_summary_table_rows, Hbig, summary_fold_last, Hrows.
  destruct (l1 ++ r :: l2) eqn:E; [by destruct l1|]. rewrite <- E. clear E.
  rewrite omap_app. cbn [omap list_omap]. rewrite Hr.
  rewrite (find_rev_last _ _ (k, v)); [done|apply str_eqb_refl|].
  apply Forall_forall. intros [k' v'] Hin. cbn [fst].
  apply list_elem_of_omap in Hin as (r' & Hr' & He).
  destruct (str_eqb k' k) eqn:Ek; [|done]. apply str_eqb_eq in Ek. subst k'.
  rewrite Forall_forall in Hl2. by destruct (Hl2 r' Hr' v').
Qed.

Lemma summary_last_label_wins_witness :
  parse_summary_table summary_page !! L "location" = Some (L "LAS VEGAS, NV").
Proof.
  apply (summary_last_label_wins summary_page
           (Tag (L "table") [(L "bgcolor", L "FFFFFF"); (L "width", L "750")]
              [tr [td [] "Location"; td [] "RENO, NV 89501"];
               tr [td [] "Event Date(s)"; td [] "2019-09-14 thru 2019-09-15"];
               tr [td [] "LOCATION"; td [] "LAS VEGAS, NV  89103"]])
           [tr [td [] "Location"; td [] "RENO, NV 89501"];
            tr [td [] "Event Date(s)"; td [] "2019-09-14 thru 2019-09-15"]]
           (tr [td [] "LOCATION"; td [] "LAS VEGAS, NV  89103"]) []).
  - reflexivity.
  - reflexivity.
  - reflexivity.
  - constructor.
Defined.

(** X8. A page without a table of either signature gives the empty summary.
    Every entry of a summary comes from a row of the table read: its key is
    in lower case, and the value under "location" has been through
    [fix_location]. *)
Theorem summary_entries_normalised soup :
  (summary_table soup = None -> parse_summary_table soup = ∅)
  /\ (forall k v, parse_summary_table soup !! k = Some v ->
        lower k = k
        /\ (exists big r, summary_table soup = Some big /\
                          In r (find_all (L "tr") big) /\
                          summary_entry r = Some (k, v))
        /\ (k = L "location" -> exists raw, v = fix_location raw)).
Proof.
  split; [intros H; by rewrite parse_summary_table_rows, H|].
  intros k v. rewrite parse_summary_table_rows.
  destruct (summary_table soup) as [big|]; [|by rewrite lookup_empty].
  rewrite summary_fold_last. destruct (find_all (L "tr") big) as [|r0 rows] eqn:Er;
    [by rewrite lookup_empty|]. rewrite <- Er.
  destruct (List.find _ _) as [[k' v']|] eqn:Ef; [|by rewrite lookup_empty].
  cbn [snd]. intros [= ->]. apply find_some in Ef as [Hin Hk]. cbn [fst] in Hk.
  apply str_eqb_eq in Hk. subst k'.
  apply in_rev, list_elem_of_In, list_elem_of_omap in Hin as (r & Hr & He).
  destruct (summary_entry_key r k v He) as [Hlow Hloc].
  split; [done|]. split; [|done].
  exists big, r. split; [done|]. split; [by apply list_elem_of_In|done].
Qed.

Lemma summary_entries_normalised_witness :
  lower (L "event date(s)") = L "event date(s)"
  /\ exists raw, L "LAS VEGAS, NV" = fix_location raw.
Proof.
  destruct (summary_entries_normalised summary_page) as [_ H].
  destruct (H (L "event date(s)") (L "2019-09-14 thru 2019-09-15") eq_refl)
    as (Hlow & _ & _).
  destruct (H (L "location") (L "LAS VEGAS, NV") eq_refl) as (_ & _ & Hloc).
  split; [exact Hlow|]. by apply Hloc.
Defined.


(** ** The fields of a game record *)

Lemma split_ws_aux_app w : forall cur s,
  no_space w -> split_ws_aux cur (w ++ s) = split_ws_aux (rev w ++ cur) s.
Proof.
  induction w as [|c w IH]; intros cur s Hw; [done|].
  inversion Hw as [|? ? Hc Hw']; subst. rewrite rev_cons_app.
  change ((c :: w) ++ s) with (c :: (w ++ s)). cbn [split_ws_aux].
  by rewrite Hc, IH.
Qed.

Lemma split_ws_join ws :
  Forall (fun w => w <> [] /\ no_space w) ws -> split_ws (join (L " ") ws) = ws.
Proof.
  unfold split_ws. induction 1 as [|w ws [Hne Hw] Hws IH]; [done|].
  destruct ws as [|w' ws].
  - cbn [join]. rewrite split_ws_aux_word; [done|done|by destruct w].
  - rewrite join_cons2, split_ws_aux_app by done. rewrite app_nil_r.
    cbn [L list_ascii_of_string app split_ws_aux].
    change (isspace " ") with true. cbv iota.
    destruct (rev w) eqn:E.
    + apply (f_equal (@rev _)) in E. rewrite rev_involutive in E. by subst.
    + rewrite <- E, rev_involutive. f_equal. exact IH.
Qed.

Lemma split_ws_words s : Forall (fun w => w <> [] /\ no_space w) (split_ws s).
Proof.
  apply Forall_and. split.
  - eapply Forall_impl; [apply (split_ws_aux_words s []); by left|].
    by intros w [H _].
  - apply split_ws_aux_no_space. constructor.
Qed.

(** Collapsing whitespace twice is collapsing it once. *)
Lemma collapse_ws_idem raw : collapse_ws (collapse_ws raw) = collapse_ws raw.
Proof. unfold collapse_ws. by rewrite split_ws_join by apply split_ws_words. Qed.

Lemma collapse_ws_stripped raw : strip (collapse_ws raw) = collapse_ws raw.
Proof. rewrite <- collapse_words. apply strip_strip. Qed.

Lemma cell_text_collapsed c_ : collapse_ws (cell_text c_) = cell_text c_.
Proof. unfold cell_text. rewrite collapse_words. apply collapse_ws_idem. Qed.

Lemma col_collapsed i tr :
  collapse_ws (col i (text_cols_of tr)) = col i (text_cols_of tr).
Proof.
  unfold col, text_cols_of.
  destruct (nth_in_or_default i (map cell_text (remove_filler (find_all_direct (L "td") tr))) [])
    as [Hin| ->]; [|done].
  apply in_map_iff in Hin as (x & <- & _). apply cell_text_collapsed.
Qed.

(** *** The rating prefix *)

Lemma sub_from_bol r repl a : forall b,
  b <> [] -> sub_from (Seq Bol r) repl b a 0 = a.
Proof.
  induction a as [|c a IH]; intros b Hb; cbn [sub_from]; unfold try_at;
    rewrite exec_seq; destruct b as [|x b]; try done; cbn [exec m_before flat_map].
  f_equal. by apply IH.
Qed.

Lemma lstrip_block blk rest :
  all isspace blk -> next_in isspace rest = false -> lstrip (blk ++ rest) = rest.
Proof.
  induction 1 as [|c blk Hc _ IH]; intros Hr; [by apply lstrip_id|].
  simpl. rewrite Hc. by apply IH.
Qed.

Lemma exec_bol_start a g : exec Bol (MState [] a g) = [MState [] a g].
Proof. reflexivity. Qed.

Lemma exec_eps st : exec Eps st = [st].
Proof. reflexivity. Qed.

Lemma strip_rating_prefix_eq s : strip_rating_prefix s = drop_rating_prefix s.
Proof.
  unfold strip_rating_prefix, re_sub, re_rating_prefix, drop_rating_prefix.
  cbn [Seqs LitCI L list_ascii_of_string].
  destruct s as [|c1 s]; [reflexivity|].
  cbn [sub_from]. unfold try_at.
  rewrite exec_seq, exec_bol_start, flat_map_one, !exec_seq, exec_chr.
  destruct (is_chr_ci "R" c1) eqn:E1; cbn [andb flat_map].
  2:{ destruct s as [|c2 s]; (f_equal; by apply sub_from_bol). }
  rewrite app_nil_r, exec_seq. destruct s as [|c2 s].
  { rewrite exec_chr_nil. cbn [flat_map]. f_equal. }
  rewrite exec_chr. destruct (is_chr_ci ":" c2) eqn:E2; cbn [andb flat_map].
  2:{ f_equal. by apply sub_from_bol. }
  rewrite !app_nil_r, exec_eps, flat_map_one, exec_star.
  destruct (leading_spaces s) as (blk & rest & -> & Hb & Hr).
  destruct (star_run isspace [] blk [c2; c1] rest Hb Hr) as (tl & -> & _).
  unfold matched_len. cbn [mo_end mo_start m_before length].
  rewrite length_app, length_rev. cbn [length].
  replace (length blk + 2 - 0) with (S (S (length blk))) by lia.
  cbn [app].
  change (c2 :: blk ++ rest) with ((c2 :: blk) ++ rest).
  rewrite (sub_skip _ _ (c2 :: blk) [c1] rest).
  rewrite sub_from_bol, lstrip_block; [done|done|done|].
  simpl. by destruct (rev blk ++ [c2]).
Qed.

(** X9. Removing the rating prefix takes the letter R in either case, the
    colon and the whitespace behind it from the start of a text, once: a
    second prefix behind the first stays, and a text that starts otherwise
    is not touched. *)
Theorem strip_rating_prefix_spec s :
  strip_rating_prefix s = drop_rating_prefix s.
Proof. apply strip_rating_prefix_eq. Qed.

Lemma stripped_ends s :
  strip s = s -> next_in isspace s = false /\ next_in isspace (rev s) = false.
Proof. intros <-. split; [apply strip_head|apply strip_last]. Qed.

Lemma lstrip_keeps_end s :
  next_in isspace (rev s) = false -> next_in isspace (rev (lstrip s)) = false.
Proof.
  intros H. destruct (lstrip_suffix s) as [pre Hpre].
  destruct (lstrip s) as [|c t] eqn:E; [done|].
  rewrite Hpre, rev_app_distr in H.
  destruct (rev (c :: t)) eqn:Er; [|exact H].
  apply (f_equal (@length _)) in Er. rewrite length_rev in Er. discriminate.
Qed.

Lemma drop_rating_prefix_stripped s :
  strip s = s -> strip (drop_rating_prefix s) = drop_rating_prefix s.
Proof.
  intros Hs. unfold drop_rating_prefix.
  destruct s as [|c1 [|c2 rest]]; try done.
  destruct (_ && _); [|done].
  apply stripped_ends in Hs as [_ Hend].
  apply strip_id; [apply lstrip_head|]. apply lstrip_keeps_end.
  change (rev (c1 :: c2 :: rest)) with ((rev rest ++ [c2]) ++ [c1]) in Hend.
  destruct (rev rest); [done|exact Hend].
Qed.

(** What the name pattern finds, whenever it finds something: the text
    before a parenthesised run of digits, and the digits. *)
Lemma extract_embedded_id_shape s :
  extract_embedded_id s = (s, [])
  \/ exists a ds rest,
       s = a ++ "("%char :: ds ++ ")"%char :: rest /\ ds <> [] /\ all isdecimal ds /\
       extract_embedded_id s = (strip a, ds).
Proof.
  unfold extract_embedded_id, re_match, try_at.
  destruct (exec re_name_id (MState [] s [])) as [|st more] eqn:E; [by left|right].
  assert (Hin : In st (exec re_name_id (MState [] s []))) by (rewrite E; by left).
  rewrite name_id_exec in Hin. apply in_flat_map in Hin as (z & Hz & Hst).
  apply in_map_iff in Hz as (z0 & <- & Hz0).
  apply star_in in Hz0 as (pre & post & -> & _ & ->).
  rewrite app_nil_r, close_group_start in Hst.
  pose proof (name_id_tail_inv _ _ _ _ Hst) as (ds & rest & -> & Hne & Hds).
  rewrite name_id_tail_ok in Hst by done. destruct Hst as [<-|[]].
  exists pre, ds, rest. unfold group. cbn [mo_end m_groups assoc_nat Nat.eqb].
  by rewrite (strip_digits ds).
Qed.

Lemma game_fields_normal games_table pass_label g :
  In g (parse_games_in_table games_table pass_label) ->
  collapse_ws (color g) = color g
  /\ collapse_ws (opp_score g) = opp_score g
  /\ strip (opp_name g) = opp_name g
  /\ (opp_id g = [] \/ (opp_id g <> [] /\ all isdecimal (opp_id g)))
  /\ strip (opp_pre g) = opp_pre g
  /\ strip (opp_post g) = opp_post g.
Proof.
  unfold parse_games_in_table. intros Hin.
  apply games_of_rows_in in Hin as (tr & _ & Hg). rewrite row_game_gate in Hg.
  destruct (shape_gate (text_cols_of tr)); [|done]. injection Hg as <-.
  assert (Hcol : forall i, strip (col i (text_cols_of tr)) = col i (text_cols_of tr)).
  { intros i. rewrite <- (col_collapsed i tr). apply collapse_ws_stripped. }
  unfold game_of_cols.
  destruct (extract_embedded_id_shape (col 5 (text_cols_of tr)))
    as [E|(a & ds & rest & _ & Hne & Hds & E)]; rewrite E;
    cbn [color opp_score opp_name opp_id opp_pre opp_post];
    rewrite !strip_rating_prefix_eq.
  - split; [apply col_collapsed|]. split; [apply col_collapsed|].
    split; [apply Hcol|]. split; [by left|].
    split; apply drop_rating_prefix_stripped, Hcol.
  - split; [apply col_collapsed|]. split; [apply col_collapsed|].
    split; [apply strip_strip|]. split; [by right|].
    split; apply drop_rating_prefix_stripped, Hcol.
Qed.

(** X10. Every record of [parse_games_in_table] is normalised: colour and
    opponent score are their own words joined by single spaces, the
    opponent's name and both opponent ratings neither start nor end with
    whitespace, and the opponent id is empty or a run of digits. *)
Theorem game_records_normalised games_table pass_label g :
  In g (parse_games_in_table games_table pass_label) ->
  collapse_ws (color g) = color g
  /\ collapse_ws (opp_score g) = opp_score g
  /\ strip (opp_name g) = opp_name g
  /\ (opp_id g = [] \/ (opp_id g <> [] /\ all isdecimal (opp_id g)))
  /\ strip (opp_pre g) = opp_pre g
  /\ strip (opp_post g) = opp_post g.
Proof. apply game_fields_normal. Qed.

Lemma game_records_normalised_witness :
  In spec_game (parse_games_in_table (Tag (L "table") [] [spec_row]) (L "Pass1"))
  /\ strip (opp_name spec_game) = opp_name spec_game
  /\ (opp_id spec_game = [] \/
      (opp_id spec_game <> [] /\ all isdecimal (opp_id spec_game))).
Proof.
  assert (Hin : In spec_game
                   (parse_games_in_table (Tag (L "table") [] [spec_row]) (L "Pass1")))
    by (left; reflexivity).
  destruct (game_records_normalised _ _ spec_game Hin) as (_ & _ & Hn & Hid & _).
  split; [exact Hin|]. split; [exact Hn|exact Hid].
Defined.


(** ** The shape of the player's ratings *)

Lemma first_hit_some {A B} (f : A -> option B) l y :
  first_hit f l = Some y -> exists x, In x l /\ f x = Some y.
Proof.
  induction l as [|x l IH]; simpl; [discriminate|].
  destruct (f x) eqn:E.
  - intros [= <-]. exists x. auto.
  - intros H. destruct (IH H) as (x' & Hx' & Hf). exists x'. auto.
Qed.

Lemma in_exec_seq r1 r2 s st :
  In st (exec (Seq r1 r2) s) -> exists mid, In mid (exec r1 s) /\ In st (exec r2 mid).
Proof. rewrite exec_seq. apply in_flat_map. Qed.

(** Whatever the rating pattern matches, its two groups are runs of digits,
    neither of them empty. *)
Lemma my_rating_digits s m :
  re_search re_my_rating s = Some m ->
  group 1 m <> [] /\ all isdecimal (group 1 m) /\
  group 2 m <> [] /\ all isdecimal (group 2 m).
Proof.
  intros H. apply re_search_some in H as (pre & post & _ & _ & Hf).
  apply first_is_in in Hf. unfold re_my_rating in Hf. cbn [Seqs] in Hf.
  apply in_exec_seq in Hf as (z1 & _ & Hf).
  apply in_exec_seq in Hf as (z2 & _ & Hf).
  apply in_exec_seq in Hf as (z3 & Hz3 & Hf).
  apply in_exec_seq in Hf as (z4 & Hz4 & Hf).
  apply in_exec_seq in Hf as (z5 & Hz5 & Hf).
  apply in_exec_seq in Hf as (z6 & Hz6 & Hf).
  apply (exec_group_text (fun c => isdecimal c = true)) in Hz3
    as (d1 & _ & _ & Hg3 & Hmin1 & _ & Hc1); [|reflexivity].
  apply (exec_group_text (fun c => isdecimal c = true)) in Hf
    as (d2 & _ & _ & Hg & Hmin2 & _ & Hc2); [|reflexivity].
  apply exec_groupless in Hz4; [|reflexivity].
  apply exec_groupless in Hz5; [|reflexivity].
  apply exec_groupless in Hz6; [|reflexivity].
  unfold group. rewrite Hg, Hz6, Hz5, Hz4, Hg3. cbn [assoc_nat Nat.eqb].
  cbn [min_len Plus] in Hmin1, Hmin2.
  split; [by destruct d1; [simpl in Hmin1; lia|]|].
  split; [apply Hc1; simpl; auto|].
  split; [by destruct d2; [simpl in Hmin2; lia|]|].
  apply Hc2; simpl; auto.
Qed.

(** X11. The two ratings [parse_player_rating_table] returns are either both
    empty or both non-empty runs of digits. *)
Theorem player_ratings_are_digits soup :
  parse_player_rating_table soup = ([], [])
  \/ exists pre post,
       parse_player_rating_table soup = (pre, post) /\
       pre <> [] /\ all isdecimal pre /\ post <> [] /\ all isdecimal post.
Proof.
  unfold parse_player_rating_table.
  destruct (first_hit _ _) as [[pre post]|] eqn:E; [right|by left].
  exists pre, post. split; [done|].
  apply first_hit_some in E as (t_ & _ & E).
  apply first_hit_some in E as (r_ & _ & E).
  apply rating_of_row_some in E as (c0 & c1 & others & mrat & _ & _ & Hm & -> & ->).
  by apply (my_rating_digits _ _ Hm).
Qed.

(** ** The games heading *)

Lemma chr_eqb_sym a b : chr_eqb a b = chr_eqb b a.
Proof. unfold chr_eqb. apply N.eqb_sym. Qed.

(** A literal pattern read without regard to case matches at a position
    when the text there, in lower case, starts with the literal in lower
    case. *)
Lemma exec_litci p : forall s b g,
  exec (LitCI p) (MState b s g) = [] <-> startswith (lower s) (lower p) = false.
Proof.
  induction p as [|x p IH]; intros s b g.
  - cbn [LitCI lower map]. rewrite startswith_nil. by split.
  - cbn [LitCI]. rewrite exec_seq. destruct s as [|c s].
    + rewrite exec_chr_nil. by split.
    + rewrite exec_chr. cbn [lower map startswith].
      unfold is_chr_ci. rewrite (chr_eqb_sym (lower_char x)).
      destruct (chr_eqb (lower_char c) (lower_char x)); cbn [andb flat_map].
      * rewrite app_nil_r. apply IH.
      * by split.
Qed.

Lemma try_at_litci p s b :
  is_match (try_at (LitCI p) b s) = startswith (lower s) (lower p).
Proof.
  unfold try_at. destruct (exec (LitCI p) (MState b s [])) eqn:E.
  - apply exec_litci in E. by rewrite E.
  - destruct (startswith (lower s) (lower p)) eqn:Es; [done|].
    apply exec_litci with (b := b) (g := []) in Es. congruence.
Qed.

Lemma search_litci p s : forall b,
  is_match (search_from (LitCI p) b s) = contains (lower s) (lower p).
Proof.
  induction s as [|c s IH]; intros b; cbn [search_from];
    pose proof (fun s0 => try_at_litci p s0 b) as Ht.
  - specialize (Ht []). cbn [lower map contains]. cbn [lower map] in Ht.
    rewrite orb_false_r, <- Ht. by destruct (try_at (LitCI p) b []).
  - specialize (Ht (c :: s)).
    change (contains (lower (c :: s)) (lower p))
      with (startswith (lower (c :: s)) (lower p) || contains (lower s) (lower p)).
    rewrite <- Ht. destruct (try_at (LitCI p) b (c :: s)); [done|].
    cbn [is_match orb]. apply IH.
Qed.

(** X12. The test for the games heading looks for the letters "games"
    anywhere in the single string of a bold element, in any mix of upper and
    lower case. *)
Theorem games_heading_is_substring t_ :
  has_games_heading t_
  = existsb (fun b => match tag_string b with
                      | Some s => contains (lower s) (L "games")
                      | None => false
                      end) (find_all (L "b") t_).
Proof.
  unfold has_games_heading.
  induction (find_all (L "b") t_) as [|b bs IH]; [done|].
  cbn [existsb]. rewrite IH. f_equal.
  destruct (tag_string b) as [s|]; [|done]. apply search_litci.
Qed.

Lemma has_games_heading_up A B :
  In B (descendants A) -> has_games_heading B = true -> has_games_heading A = true.
Proof.
  unfold has_games_heading. rewrite !existsb_exists.
  intros HB (b & Hb & Hs). exists b. split; [|done].
  unfold find_all in *. apply filter_In in Hb as [Hb Hn]. apply filter_In.
  split; [|done]. by apply (descendants_trans A B b).
Qed.

(** X13. A table that holds the games heading passes the heading on to
    every table around it, so the table [parse_player_specific_page] takes
    is an outermost one: when the heading lies in a table nested in the
    first table of the page, the first table is the games table. *)
Theorem games_table_is_outermost :
  (forall A B, In B (descendants A) -> has_games_heading B = true ->
               has_games_heading A = true)
  /\ (forall soup first others inner,
        find_all (L "table") soup = first :: others ->
        In inner (find_all (L "table") first) ->
        has_games_heading inner = true ->
        find_games_table soup = Some first).
Proof.
  split; [apply has_games_heading_up|].
  intros soup first others inner Hs Hin Hh. unfold find_games_table. rewrite Hs.
  unfold find_all in Hin. apply filter_In in Hin as [Hin _].
  rewrite filter_cons_True; [done|].
  apply Is_true_true. by apply (has_games_heading_up first inner).
Qed.

Lemma games_table_is_outermost_witness :
  find_games_table layout_page = Some layout_table.
Proof.
  apply (proj2 games_table_is_outermost layout_page layout_table
           (skipn 1 (find_all (L "table") layout_page)) nested_games_table).
  - reflexivity.
  - left. reflexivity.
  - reflexivity.
Defined.


(** ** The fetches of one crosstable *)

Lemma all_sections_link_of soup xlink :
  find_all_sections_link soup xlink = find_all_sections_link blank_soup xlink.
Proof.
  unfold find_all_sections_link. destruct (re_search re_xtbl_main xlink) as [m|]; [|done].
  cbv zeta. by rewrite !find_zero_link.
Qed.

(** The link [find_user_link] returns, when it returns one, names the
    player page and holds the player's id. *)
Lemma find_user_link_holds soup player_id :
  truthy (find_user_link soup player_id) = true ->
  contains (find_user_link soup player_id) (L "XtblPlr.php?") = true
  /\ contains (find_user_link soup player_id) player_id = true.
Proof.
  unfold find_user_link.
  destruct (List.filter _ _) as [|h more] eqn:E; [discriminate|]. intros _.
  assert (Hin : In h (h :: more)) by (by left). rewrite <- E in Hin.
  apply filter_In in Hin as [_ Hin]. by apply andb_true_iff in Hin.
Qed.

Section Fetches.

Variable BeautifulSoup : str -> node.
Variable requests_get : list io_event -> str -> Z -> response.

Lemma player_fetch_log timeout_sec max_retries summ userlink w :
  truthy userlink = true ->
  fetch_log (snd ((let* _ := log_fetch PlayerPage userlink in
      let* plr_html := fetch_html requests_get (BASE_URL ++ userlink) timeout_sec
                         max_retries sleep_default in
      let parsed := parse_player_specific_page BeautifulSoup plr_html in
      ret {| summary := summ;
             player_games := games parsed;
             player_rating_pre := player_pre_rating parsed;
             player_rating_post := player_post_rating parsed |}) w))
  = fetch_log w ++ [(PlayerPage, userlink)].
Proof.
  intros _. unfold bind at 1, log_fetch. set (w1 := World _ _ _). unfold bind at 1.
  pose proof (fetch_html_frame requests_get (BASE_URL ++ userlink) timeout_sec
                max_retries sleep_default w1) as [_ Hl].
  destruct (fetch_html _ _ _ _ _ w1) as [[html|e] w2]; unfold ret;
    cbn [snd] in *; by rewrite Hl.
Qed.

(** X14. One call of [parse_crosstable] fetches three pages at most and in
    a fixed order: the crosstable itself, then the all-sections variant,
    then the player page.  It fetches nothing for a link already visited;
    the all-sections link depends on the crosstable link alone; and the
    player link names the player page and holds the player's id. *)
Theorem crosstable_fetches xlink player_id timeout_sec max_retries w :
  exists sections player,
    fetch_log (snd (parse_crosstable BeautifulSoup requests_get xlink player_id
                                     timeout_sec max_retries w))
    = fetch_log w ++ (if decide (xlink ∈ visited w) then []
                      else (CrossTable, xlink) :: sections ++ player)
    /\ (sections = [] \/
        sections = [(AllSections, find_all_sections_link blank_soup xlink)])
    /\ (player = [] \/
        exists u, player = [(PlayerPage, u)] /\
                  contains u (L "XtblPlr.php?") = true /\
                  contains u player_id = true).
Proof.
  unfold parse_crosstable. unfold bind at 1. unfold get_visited at 1.
  destruct (decide (xlink ∈ visited w)) as [Hin|Hnew].
  { exists [], []. cbn. rewrite app_nil_r. auto. }
  unfold bind at 1. unfold visited_add at 1. unfold bind at 1. unfold log_fetch at 1.
  cbn [visited fetch_log io]. set (w1 := World _ _ _). unfold bind at 1.
  pose proof (fetch_html_frame requests_get (BASE_URL ++ xlink) timeout_sec
                max_retries sleep_default w1) as [_ Hl1].
  destruct (fetch_html _ _ _ _ _ w1) as [[raw|e] w2]; cbn [snd] in Hl1.
  2:{ exists [], []. cbn [snd app]. rewrite Hl1. cbn [w1 fetch_log]. auto. }
  cbv zeta. set (soup := BeautifulSoup raw).
  destruct (truthy (find_user_link soup player_id)) eqn:Eu.
  - (* the player link is on the crosstable page *)
    unfold bind at 1. unfold ret at 1. rewrite Eu.
    rewrite player_fetch_log by done. rewrite Hl1. cbn [w1 fetch_log].
    exists [], [(PlayerPage, find_user_link soup player_id)].
    rewrite <- ?List.app_assoc; cbn [app]. split; [done|]. split; [by left|right].
    eexists. split; [done|]. by apply find_user_link_holds.
  - unfold bind at 1. unfold bind at 1. unfold get_visited at 1.
    rewrite (all_sections_link_of soup xlink).
    set (zero := find_all_sections_link blank_soup xlink).
    destruct (truthy zero && negb (bool_decide (zero ∈ visited w2))) eqn:Ez.
    + (* the all-sections page is fetched *)
      unfold bind at 1. unfold visited_add at 1. unfold bind at 1. unfold log_fetch at 1.
      cbn [visited fetch_log io]. set (w3 := World _ _ _). unfold bind at 1.
      pose proof (fetch_html_frame requests_get (BASE_URL ++ zero) timeout_sec
                    max_retries sleep_default w3) as [_ Hl3].
      destruct (fetch_html _ _ _ _ _ w3) as [[all_html|e] w4]; cbn [snd] in Hl3.
      2:{ exists [(AllSections, zero)], []. cbn [snd app]. rewrite Hl3.
          cbn [w3 fetch_log]. rewrite Hl1. cbn [w1 fetch_log].
          rewrite <- ?List.app_assoc; cbn [app]. auto. }
      cbv zeta. unfold ret at 1.
      destruct (truthy (find_user_link (BeautifulSoup all_html) player_id)) eqn:Eu2.
      * rewrite player_fetch_log by done. rewrite Hl3. cbn [w3 fetch_log].
        rewrite Hl1. cbn [w1 fetch_log].
        exists [(AllSections, zero)],
               [(PlayerPage, find_user_link (BeautifulSoup all_html) player_id)].
        rewrite <- ?List.app_assoc; cbn [app]. split; [done|]. split; [by right|right].
        eexists. split; [done|]. by apply find_user_link_holds.
      * unfold ret. cbn [snd]. rewrite Hl3. cbn [w3 fetch_log].
        rewrite Hl1. cbn [w1 fetch_log].
        exists [(AllSections, zero)], []. rewrite <- ?List.app_assoc; cbn [app]. auto.
    + unfold ret at 1. rewrite Eu. unfold ret. cbn [snd]. rewrite Hl1.
      cbn [w1 fetch_log]. exists [], []. rewrite <- ?List.app_assoc; cbn [app]. auto.
Qed.

End Fetches.


(** ** The event loop *)

Lemma initial_row_defaults player_id ev :
  set_player_ratings [] [] (set_summary_fields empty_crosstable (initial_row player_id ev))
  = initial_row player_id ev.
Proof.
  unfold set_player_ratings, set_summary_fields, empty_crosstable. cbn [truthy summary].
  unfold get_default. rewrite !lookup_empty.
  rewrite insert_id; [|reflexivity]. rewrite insert_id; [|reflexivity].
  rewrite insert_id; [|reflexivity]. reflexivity.
Qed.

Lemma game_result_token games_table pass_label g :
  In g (parse_games_in_table games_table pass_label) ->
  result g <> [] /\ no_space (result g).
Proof.
  unfold parse_games_in_table. rewrite games_of_rows_in. intros (tr & _ & Hg).
  assert (Hsh : exists g, row_game tr = Some g) by eauto.
  apply row_game_some_iff in Hsh as (_ & c & ws & ds & Hcol & Hc & Hws & Hds).
  rewrite row_game_gate in Hg.
  destruct (shape_gate (text_cols_of tr)); [|discriminate].
  injection Hg as <-. unfold game_of_cols.
  destruct (extract_embedded_id _). cbn [result].
  split; [|apply first_token_no_space].
  rewrite Hcol, first_token_shape by done. by destruct ws.
Qed.

Lemma game_row_of_ok events ev my_pre my_post r g :
  In ev events ->
  (exists gt, In g (parse_games_in_table gt (L "Pass1"))) ->
  game_row_ok events (game_row_of ev my_pre my_post r g).
Proof.
  intros Hev [gt Hg]. unfold game_row_ok, game_row_of.
  cbn [pg_section_name pg_round pg_event_id pg_event_name pg_result pg_opp_id
       pg_opp_name pg_opp_rating_pre pg_opp_rating_post].
  destruct (game_result_token _ _ _ Hg) as [Hne Hns].
  destruct (game_fields_normal _ _ _ Hg) as (_ & _ & Hname & Hid & Hpre & Hpost).
  split; [done|]. split; [done|]. split; [by exists ev|]. auto 10.
Qed.

Lemma game_row_ok_more events events' gr :
  (forall ev, In ev events -> In ev events') ->
  game_row_ok events gr -> game_row_ok events' gr.
Proof.
  intros Hsub (H1 & H2 & (ev & Hev & H3) & H4). split; [done|]. split; [done|].
  split; [|done]. exists ev. auto.
Qed.

Section EventLoop.

Variable BeautifulSoup : str -> node.
Variable requests_get : list io_event -> str -> Z -> response.

(** X15. A second call of [parse_crosstable] with the same link, whatever
    the first call did, fetches nothing and returns the empty data. *)
Theorem parse_crosstable_once xlink player_id timeout_sec max_retries w :
  let w' := snd (parse_crosstable BeautifulSoup requests_get xlink player_id
                                  timeout_sec max_retries w) in
  parse_crosstable BeautifulSoup requests_get xlink player_id timeout_sec
                   max_retries w'
  = (Return empty_crosstable, w').
Proof. intros w'. apply parse_crosstable_visited, parse_crosstable_marks. Qed.

(** X16. An event without a link, and an event whose link was visited
    before, cost no fetch: the row keeps the values of the tournament list
    with empty location, dates and director, and there are no game rows. *)
Theorem main_event_without_fetch player_id timeout_sec max_retries ev w :
  truthy (ev_xlink ev) = false \/ ev_xlink ev ∈ visited w ->
  main_event BeautifulSoup requests_get player_id timeout_sec max_retries ev w
  = (Return (initial_row player_id ev, []), w).
Proof.
  intros H. unfold main_event, bind.
  assert (Hc : (if truthy (ev_xlink ev)
                then parse_crosstable BeautifulSoup requests_get (ev_xlink ev)
                       player_id timeout_sec max_retries
                else ret empty_crosstable) w = (Return empty_crosstable, w)).
  { destruct (truthy (ev_xlink ev)) eqn:E; [|done].
    destruct H as [H|H]; [done|]. by apply parse_crosstable_visited. }
  rewrite Hc. unfold ret. cbn [player_rating_pre player_rating_post player_games
                                empty_crosstable map].
  by rewrite initial_row_defaults.
Qed.

(** The games of a crosstable are read from one table of the player page
    by [parse_games_in_table]. *)
Lemma player_page_games html g :
  In g (games (parse_player_specific_page BeautifulSoup html)) ->
  exists gt, In g (parse_games_in_table gt (L "Pass1")).
Proof.
  unfold parse_player_specific_page, parse_player_specific_soup.
  destruct (parse_player_rating_table _) as [mypre mypost].
  destruct (find_games_table _) as [gt|]; cbn [games]; [|done].
  rewrite games_of_table_pass1. eauto.
Qed.

Lemma player_fetch_games timeout_sec max_retries summ userlink w cdata w' :
  (let* _ := log_fetch PlayerPage userlink in
   let* plr_html := fetch_html requests_get (BASE_URL ++ userlink) timeout_sec
                      max_retries sleep_default in
   let parsed := parse_player_specific_page BeautifulSoup plr_html in
   ret {| summary := summ;
          player_games := games parsed;
          player_rating_pre := player_pre_rating parsed;
          player_rating_post := player_post_rating parsed |}) w
  = (Return cdata, w') ->
  exists html, player_games cdata = games (parse_player_specific_page BeautifulSoup html).
Proof.
  unfold bind at 1. unfold log_fetch at 1. unfold bind at 1.
  destruct (fetch_html _ _ _ _ _ _) as [[html|e] w2]; [|discriminate].
  unfold ret. intros [= <- _]. by exists html.
Qed.

Lemma parse_crosstable_games xlink player_id timeout_sec max_retries w cdata w' :
  parse_crosstable BeautifulSoup requests_get xlink player_id timeout_sec
                   max_retries w = (Return cdata, w') ->
  player_games cdata = [] \/
  exists html, player_games cdata = games (parse_player_specific_page BeautifulSoup html).
Proof.
  unfold parse_crosstable. unfold bind at 1. unfold get_visited at 1.
  destruct (decide (xlink ∈ visited w)) as [Hin|Hnew].
  { unfold ret. intros [= <- _]. by left. }
  unfold bind at 1. unfold visited_add at 1. unfold bind at 1. unfold log_fetch at 1.
  unfold bind at 1.
  destruct (fetch_html _ _ _ _ _ _) as [[raw|e] w2]; [|discriminate].
  cbv zeta. destruct (truthy (find_user_link (BeautifulSoup raw) player_id)) eqn:Eu.
  - unfold bind at 1. unfold ret at 1. rewrite Eu.
    intros H. right. by apply player_fetch_games in H.
  - unfold bind at 1. unfold bind at 1. unfold get_visited at 1.
    destruct (truthy _ && negb _).
    + unfold bind at 1. unfold visited_add at 1. unfold bind at 1.
      unfold log_fetch at 1. unfold bind at 1.
      destruct (fetch_html _ _ _ _ _ _) as [[all_html|e] w4]; [|discriminate].
      cbv zeta. unfold ret at 1.
      destruct (truthy (find_user_link (BeautifulSoup all_html) player_id)).
      * intros H. right. by apply player_fetch_games in H.
      * unfold ret. intros [= <- _]. by left.
    + unfold ret at 1. rewrite Eu. unfold ret. intros [= <- _]. by left.
Qed.

Lemma main_event_result player_id timeout_sec max_retries ev w r gms w' :
  main_event BeautifulSoup requests_get player_id timeout_sec max_retries ev w
  = (Return (r, gms), w') ->
  exists cdata,
    r = final_row player_id ev cdata /\
    gms = map (game_row_of ev (player_rating_pre cdata) (player_rating_post cdata) r)
              (player_games cdata) /\
    Forall (fun g => exists gt, In g (parse_games_in_table gt (L "Pass1")))
           (player_games cdata).
Proof.
  unfold main_event. unfold bind at 1.
  destruct (truthy (ev_xlink ev)).
  - destruct (parse_crosstable _ _ _ _ _ _ w) as [[cdata|e] w1] eqn:E; [|discriminate].
    unfold ret. intros [= <- <- _]. exists cdata. split; [done|]. split; [done|].
    apply parse_crosstable_games in E as [->|[html ->]]; [constructor|].
    apply Forall_forall. intros g Hg. apply list_elem_of_In in Hg.
    by apply (player_page_games html).
  - unfold ret. intros [= <- <- _]. exists empty_crosstable.
    split; [done|]. split; [done|]. constructor.
Qed.

(** The rows and the game rows of the event loop. *)
Lemma main_events_rows player_id timeout_sec max_retries events :
  forall w all_data per_game w',
    main_events BeautifulSoup requests_get player_id timeout_sec max_retries
                events w = (Return (all_data, per_game), w') ->
    Forall2 (fun r ev => exists cdata, r = final_row player_id ev cdata)
            all_data events
    /\ Forall (game_row_ok events) per_game.
Proof.
  induction events as [|ev rest IH]; intros w all_data per_game w'.
  - cbn [main_events]. unfold ret. intros [= <- <- _]. split; constructor.
  - cbn [main_events]. unfold bind at 1.
    destruct (main_event _ _ _ _ _ ev w) as [[[r gms]|e] w1] eqn:Eev; [|discriminate].
    unfold bind at 1.
    destruct (main_events _ _ _ _ _ rest w1) as [[[rows grs]|e] w2] eqn:Erest;
      [|discriminate].
    unfold ret. intros [= <- <- _].
    destruct (IH _ _ _ _ Erest) as [Hrows Hgrs].
    apply main_event_result in Eev as (cdata & Hr & Hgms & Hfrom).
    split.
    + constructor; [by exists cdata|done].
    + apply Forall_app. split.
      * rewrite Hgms. apply Forall_map. eapply Forall_impl; [exact Hfrom|].
        intros g Hg. apply game_row_of_ok; [by left|done].
      * eapply Forall_impl; [exact Hgrs|]. intros gr.
        apply game_row_ok_more. intros ev' Hev'. by right.
Qed.

Lemma final_row_keys player_id ev cdata :
  final_row player_id ev cdata !! L "player_id" = Some player_id
  /\ final_row player_id ev cdata !! L "event_id" = Some (ev_event_id ev)
  /\ final_row player_id ev cdata !! L "end_date" = Some (ev_end_date ev).
Proof.
  unfold final_row. rewrite !set_player_ratings_frame by discriminate.
  rewrite !set_summary_fields_frame by discriminate. by unfold initial_row.
Qed.

Lemma rows_of_events (player_id : str) (all_data : list row)
    (events : list event) :
  Forall2 (fun (r : row) (ev : event) =>
             exists cdata, r = final_row player_id ev cdata)
          all_data events ->
  map (fun r : row => r !! L "event_id") all_data
  = map (fun ev => Some (ev_event_id ev)) events
  /\ map (fun r : row => r !! L "end_date") all_data
     = map (fun ev => Some (ev_end_date ev)) events
  /\ Forall (fun r : row => r !! L "player_id" = Some player_id) all_data
  /\ (forall y, Forall (fun ev => startswith (ev_end_date ev) y = true) events ->
        Forall (fun r : row => exists d, r !! L "end_date" = Some d /\
                                         startswith d y = true) all_data).
Proof.
  induction 1 as [|r ev rows evs [cdata ->] _ (IH1 & IH2 & IH3 & IH4)].
  - split; [done|]. split; [done|]. split; [constructor|]. intros. constructor.
  - destruct (final_row_keys player_id ev cdata) as (Hp & Hid & Hd).
    cbn [map]. rewrite Hid, Hd, IH1, IH2.
    split; [done|]. split; [done|]. split; [by constructor|].
    intros y Hy. inversion Hy; subst.
    constructor; [by exists (ev_end_date ev)|by apply IH4].
Qed.

(** X17. The rows [main] returns follow the events of the tournament list
    one to one and in order - of the events whose end date starts with the
    filter year, when one is given - and carry their ids and end dates. *)
Theorem main_rows_follow_events player_id filter_year timeout_sec max_retries
    w all_data per_game w' :
  main BeautifulSoup requests_get player_id filter_year timeout_sec max_retries w
  = (Return (all_data, per_game), w') ->
  exists main_html,
    let w0 := World (visited w)
                    (fetch_log w ++ [(History, L "MbrDtlTnmtHst.php?" ++ player_id)])
                    (io w) in
    let events := year_filter filter_year
                    (parse_tournament_list BeautifulSoup main_html) in
    fst (fetch_html requests_get (TOURN_HISTORY_URL player_id) timeout_sec
                    max_retries sleep_default w0) = Return main_html
    /\ map (fun r : row => r !! L "event_id") all_data
       = map (fun ev => Some (ev_event_id ev)) events
    /\ map (fun r : row => r !! L "end_date") all_data
       = map (fun ev => Some (ev_end_date ev)) events
    /\ Forall (fun r : row => r !! L "player_id" = Some player_id) all_data
    /\ (forall y, filter_year = Some y -> truthy y = true ->
          Forall (fun r : row => exists d, r !! L "end_date" = Some d /\
                                           startswith d y = true) all_data).
Proof.
  unfold main. unfold bind at 1. unfold log_fetch at 1.
  set (w0 := World _ _ _). unfold bind at 1.
  destruct (fetch_html _ _ _ _ _ w0) as [[main_html|e] w1]; [|discriminate].
  cbv zeta. fold (year_filter filter_year (parse_tournament_list BeautifulSoup main_html)).
  set (events := year_filter _ _). unfold bind at 1. unfold set_visited at 1.
  intros H. apply main_events_rows in H as [Hrows _].
  exists main_html. split; [done|]. cbv zeta.
  destruct (rows_of_events player_id all_data events Hrows) as (H1 & H2 & H3 & H4).
  split; [done|]. split; [done|]. split; [done|].
  intros y -> Hy. apply H4. unfold events, year_filter. rewrite Hy.
  apply Forall_forall. intros ev Hev. apply list_elem_of_In, filter_In in Hev.
  tauto.
Qed.

(** X18. Every line [main] hands to the CSV writer has the fourteen fields
    of the header.  In every game line the section name and the round are
    empty, the result is a single word, the opponent id is empty or a run
    of digits, and the opponent's name and ratings carry no outer
    whitespace. *)
Theorem csv_lines_well_formed player_id filter_year timeout_sec max_retries
    w all_data per_game w' :
  main BeautifulSoup requests_get player_id filter_year timeout_sec max_retries w
  = (Return (all_data, per_game), w') ->
  Forall (fun line => length line = length csv_header) (csv_lines per_game)
  /\ Forall (fun line =>
               nth 2 line [] = [] /\ nth 3 line [] = []
               /\ nth 4 line [] <> [] /\ no_space (nth 4 line [])
               /\ (nth 8 line [] = [] \/
                   (nth 8 line [] <> [] /\ all isdecimal (nth 8 line [])))
               /\ strip (nth 9 line []) = nth 9 line []
               /\ strip (nth 10 line []) = nth 10 line []
               /\ strip (nth 11 line []) = nth 11 line [])
            (map csv_row per_game).
Proof.
  unfold main. unfold bind at 1. unfold log_fetch at 1.
  set (w0 := World _ _ _). unfold bind at 1.
  destruct (fetch_html _ _ _ _ _ w0) as [[main_html|e] w1]; [|discriminate].
  cbv zeta. unfold bind at 1. unfold set_visited at 1.
  intros H. apply main_events_rows in H as [_ Hgrs]. split.
  - unfold csv_lines. constructor; [done|]. apply Forall_map.
    apply Forall_forall. by intros gr _.
  - apply Forall_map. eapply Forall_impl; [exact Hgrs|].
    intros gr (Hs & Hr & _ & Hne & Hns & Hid & Hname & Hpre & Hpost).
    unfold csv_row. cbn [nth]. rewrite !strip_rating_prefix_eq.
    split; [done|]. split; [done|]. split; [done|]. split; [done|].
    split; [done|]. split; [done|].
    split; by apply drop_rating_prefix_stripped.
Qed.

End EventLoop.

Lemma main_event_without_fetch_witness :
  main_event blank_parser always_timeout (L "12641216") 15 3 linkless_event world0
  = (Return (initial_row (L "12641216") linkless_event, []), world0).
Proof.
  apply (main_event_without_fetch blank_parser always_timeout (L "12641216") 15 3
           linkless_event world0).
  left. reflexivity.
Defined.

Lemma main_rows_follow_events_witness :
  exists all_data per_game w',
    site_run = (Return (all_data, per_game), w')
    /\ Forall (fun r : row => r !! L "player_id" = Some (L "12641216")) all_data
    /\ Forall (fun r : row => exists d, r !! L "end_date" = Some d /\
                                        startswith d (L "2019") = true) all_data.
Proof.
  destruct site_run as [[[all_data per_game]|e] w'] eqn:E.
  - exists all_data, per_game, w'. split; [reflexivity|].
    destruct (main_rows_follow_events site_parser echo_network (L "12641216")
                (Some (L "2019")) 15 3 world0 all_data per_game w' E)
      as (main_html & _ & _ & _ & Hp & Hy).
    split; [exact Hp|]. by apply (Hy (L "2019")).
  - exfalso. assert (H : returned site_run = true) by (vm_compute; reflexivity).
    rewrite E in H. discriminate.
Defined.

Lemma csv_lines_well_formed_witness :
  exists all_data per_game w',
    site_run = (Return (all_data, per_game), w')
    /\ length per_game = 2
    /\ Forall (fun line => length line = length csv_header) (csv_lines per_game).
Proof.
  destruct site_run as [[[all_data per_game]|e] w'] eqn:E.
  - exists all_data, per_game, w'. split; [reflexivity|]. split.
    + assert (H : match fst site_run with
                  | Return (_, p) => length p
                  | Raise _ => 0
                  end = 2) by (vm_compute; reflexivity).
      by rewrite E in H.
    + exact (proj1 (csv_lines_well_formed site_parser echo_network (L "12641216")
                      (Some (L "2019")) 15 3 world0 all_data per_game w' E)).
  - exfalso. assert (H : returned site_run = true) by (vm_compute; reflexivity).
    rewrite E in H. discriminate.
Defined.


(** ** The text of a cell *)

(** A text splits at its first closing bracket, if it has one. *)
Lemma first_gt t :
  (existsb (fun x => chr_eqb x ">") t = false /\ all (not_chr ">") t)
  \/ exists run rest, t = run ++ ">"%char :: rest /\ all (not_chr ">") run /\
                      existsb (fun x => chr_eqb x ">") t = true.
Proof.
  induction t as [|c t IH]; [left; split; [done|constructor]|].
  cbn [existsb]. destruct (chr_eqb c ">") eqn:Ec.
  - right. apply chr_eqb_eq in Ec. subst c. exists [], t. repeat split. constructor.
  - destruct IH as [[Hno Hall]|(run & rest & -> & Hrun & Hex)].
    + left. split; [done|]. constructor; [|done]. unfold not_chr. by rewrite Ec.
    + right. exists (c :: run), rest. split; [done|]. split; [|done].
      constructor; [|done]. unfold not_chr. by rewrite Ec.
Qed.

Lemma markup_exec b a :
  exec re_markup (MState b a [])
  = match a with
    | c :: t =>
        if is_chr "<" c
        then flat_map (exec (Chr (is_chr ">"))) (star (not_chr ">") (c :: b) t [])
        else []
    | [] => []
    end.
Proof.
  unfold re_markup. cbn [Seqs]. rewrite exec_seq. destruct a as [|c t]; [done|].
  rewrite exec_chr. destruct (is_chr "<" c); [|done].
  by rewrite flat_map_one, exec_seq, exec_star.
Qed.

Lemma markup_no_gt b t :
  all (not_chr ">") t ->
  flat_map (exec (Chr (is_chr ">"))) (star (not_chr ">") b t []) = [].
Proof.
  intros Hall. apply flat_map_nil_iff. intros z Hz.
  apply star_in in Hz as (pre & post & -> & _ & ->).
  apply Forall_app in Hall as [_ Hpost].
  destruct post as [|c post]; [done|]. rewrite exec_chr.
  inversion Hpost as [|? ? Hc _]; subst. unfold not_chr in Hc.
  unfold is_chr. by destruct (chr_eqb c ">").
Qed.

Lemma markup_gt b run rest :
  all (not_chr ">") run ->
  exists more,
    flat_map (exec (Chr (is_chr ">"))) (star (not_chr ">") b (run ++ ">"%char :: rest) [])
    = MState (">"%char :: rev run ++ b) rest [] :: more.
Proof.
  intros Hrun.
  destruct (star_run (not_chr ">") [] run b (">"%char :: rest) Hrun eq_refl)
    as (tl & -> & _).
  cbn [flat_map]. rewrite exec_chr, is_chr_refl. by eexists.
Qed.

Lemma drop_markup_tag run rest :
  all (not_chr ">") run ->
  drop_markup true (run ++ ">"%char :: rest) = drop_markup false rest.
Proof.
  induction 1 as [|c run Hc _ IH]; [done|]. simpl.
  unfold not_chr in Hc. destruct (chr_eqb c ">"); [done|exact IH].
Qed.

Lemma sub_markup : forall n a b,
  length a <= n -> sub_from re_markup [] b a 0 = drop_markup false a.
Proof.
  induction n as [|n IH]; intros a b Hn.
  - destruct a; [|simpl in Hn; lia]. cbn [sub_from]. unfold try_at.
    by rewrite markup_exec.
  - destruct a as [|c t]; [cbn [sub_from]; unfold try_at; by rewrite markup_exec|].
    cbn [sub_from drop_markup]. unfold try_at. rewrite markup_exec.
    simpl in Hn. change (is_chr "<" c) with (chr_eqb c "<").
    destruct (chr_eqb c "<") eqn:Ec; cbn [andb].
    2:{ f_equal. apply IH. lia. }
    destruct (first_gt t) as [[Hno Hall]|(run & rest & -> & Hrun & Hex)].
    + rewrite markup_no_gt, Hno by done. f_equal. apply IH. lia.
    + destruct (markup_gt (c :: b) run rest Hrun) as [more ->]. rewrite Hex.
      unfold matched_len. cbn [mo_end mo_start m_before length].
      rewrite length_app, length_rev. cbn [length].
      replace (S (length run + S (length b)) - length b) with (S (S (length run)))
        by lia.
      cbn [app].
      replace (run ++ ">"%char :: rest) with ((run ++ [">"%char]) ++ rest)
        by (by rewrite <- List.app_assoc).
      replace (S (length run)) with (length (run ++ [">"%char]))
        by (rewrite length_app; simpl; lia).
      rewrite sub_skip, <- List.app_assoc. cbn [app].
      rewrite drop_markup_tag by done. apply IH.
      rewrite !length_app in Hn. simpl in Hn. lia.
Qed.

Lemma re_sub_markup s : re_sub re_markup [] s = drop_markup false s.
Proof. unfold re_sub. by apply (sub_markup (length s)). Qed.

Lemma free_of_not_chr a s : free_of a s <-> all (not_chr a) s.
Proof.
  unfold free_of, all, not_chr. split; intros H; eapply Forall_impl; try exact H;
    intros c Hc; simpl in *; by destruct (chr_eqb c a).
Qed.

Lemma drop_markup_plain body rest :
  free_of "<" body -> drop_markup false (body ++ rest) = body ++ drop_markup false rest.
Proof.
  induction 1 as [|c body Hc _ IH]; [done|]. simpl. rewrite Hc. cbn [andb].
  by rewrite IH.
Qed.

Lemma drop_markup_cell A body :
  free_of ">" A -> free_of "<" body ->
  drop_markup false (L "<td" ++ A ++ L ">" ++ body ++ L "</td>") = body.
Proof.
  intros HA Hbody.
  change (L "<td" ++ A ++ L ">" ++ body ++ L "</td>")
    with ("<"%char :: (L "td" ++ A) ++ ">"%char :: (body ++ L "</td>")).
  cbn [drop_markup]. rewrite chr_eqb_refl. cbn [andb].
  rewrite existsb_app. cbn [existsb]. rewrite chr_eqb_refl.
  rewrite orb_true_r, drop_markup_tag.
  - rewrite drop_markup_plain by done. cbn. apply app_nil_r.
  - apply free_of_not_chr. apply Forall_app. split; [|done].
    repeat constructor.
Qed.

Lemma replace_all_free a by_ s : free_of a by_ -> free_of a (replace_all a by_ s).
Proof.
  intros Hby. induction s as [|c s IH]; [constructor|]. simpl.
  apply Forall_app. split; [|exact IH].
  destruct (chr_eqb c a) eqn:E; [done|]. by constructor.
Qed.

Lemma replace_all_keeps c a by_ s :
  free_of c by_ -> free_of c s -> free_of c (replace_all a by_ s).
Proof.
  intros Hby. induction 1 as [|x s Hx _ IH]; [constructor|]. simpl.
  apply Forall_app. split; [|exact IH].
  destruct (chr_eqb x a); [done|]. by constructor.
Qed.

Lemma substitute_xml_free s :
  free_of "<" (substitute_xml s) /\ free_of ">" (substitute_xml s).
Proof.
  unfold substitute_xml. split.
  - apply replace_all_keeps; [repeat constructor|].
    apply replace_all_free. repeat constructor.
  - apply replace_all_free. repeat constructor.
Qed.

Lemma quoted_attribute_value_free v :
  free_of ">" v -> free_of ">" (quoted_attribute_value v).
Proof.
  intros Hv. unfold quoted_attribute_value.
  destruct (existsb _ v); [destruct (existsb _ v)|];
    repeat (apply Forall_app; split); try done; try (repeat constructor).
  apply replace_all_keeps; [repeat constructor|done].
Qed.

Lemma decode_attrs_free attrs :
  Forall (fun kv => free_of ">" (fst kv)) attrs -> free_of ">" (decode_attrs attrs).
Proof.
  induction 1 as [|[k v] attrs Hk _ IH]; [constructor|].
  unfold decode_attrs. cbn [flat_map fst snd].
  repeat (apply Forall_app; split); try done; try (repeat constructor).
  apply quoted_attribute_value_free, substitute_xml_free.
Qed.

Lemma split_ws_aux_nbsp s : forall cur,
  split_ws_aux cur (replace_chr nbsp " " s) = split_ws_aux cur s.
Proof.
  unfold replace_chr. induction s as [|c s IH]; intros cur; [done|].
  cbn [map split_ws_aux]. destruct (chr_eqb c nbsp) eqn:E.
  - apply chr_eqb_eq in E. subst c.
    change (isspace " ") with true. change (isspace nbsp) with true. cbv iota.
    destruct cur; by rewrite IH.
  - destruct (isspace c); [destruct cur|]; by rewrite IH.
Qed.

(** The text of a cell: the markup of the cell without its tags, the words
    joined by single spaces. *)
Lemma cell_text_eq c_ : cell_text c_ = collapse_ws (drop_markup false (decode c_)).
Proof.
  unfold cell_text. rewrite collapse_words, re_sub_markup.
  unfold collapse_ws, split_ws. by rewrite split_ws_aux_nbsp.
Qed.

(** X19. The text of a cell is read from the markup of the cell, not from
    its strings: for a cell that holds one string, the text is that string
    with the characters &, < and > written as entities, its words joined by
    single spaces. *)
Theorem cell_text_keeps_entities attrs s :
  Forall (fun kv => free_of ">" (fst kv)) attrs ->
  cell_text (Tag (L "td") attrs [NavigableString s])
  = collapse_ws (substitute_xml s).
Proof.
  intros Hattrs. rewrite cell_text_eq. f_equal.
  cbn [decode]. rewrite app_nil_r.
  change (L "<" ++ L "td" ++ decode_attrs attrs ++ L ">" ++ substitute_xml s
            ++ L "</" ++ L "td" ++ L ">")
    with (L "<td" ++ decode_attrs attrs ++ L ">" ++ substitute_xml s ++ L "</td>").
  apply drop_markup_cell; [by apply decode_attrs_free|apply substitute_xml_free].
Qed.

Lemma cell_text_keeps_entities_witness :
  cell_text (Tag (L "td") [(L "width", L "120")] [NavigableString (L "SMITH & JONES")])
  = L "SMITH &amp; JONES".
Proof.
  apply (cell_text_keeps_entities [(L "width", L "120")] (L "SMITH & JONES")).
  repeat constructor.
Defined.


(** ** Filler cells *)




















(** ** Normal forms of the location *)

(** What the location pattern finds in a text without line breaks: the
    longest prefix of the form it looks for, if there is one. *)
Lemma location_match_cases s :
  all dot s ->
  match re_match re_location s with
  | Some m =>
      location_prefix s (group 1 m) /\
      forall p, location_prefix s p -> length p <= length (group 1 m)
  | None => forall p, ~ location_prefix s p
  end.
Proof.
  intros Hdot. unfold re_match, try_at. rewrite location_exec.
  set (splits := match s with
                 | c :: t => if dot c then star dot [c] t [] else []
                 | [] => []
                 end).
  assert (Hin : forall p, location_prefix s p ->
            exists text ws c1 c2 rest,
              p = text ++ ","%char :: ws ++ [c1; c2] /\ s = p ++ rest /\
              all isspace ws /\ isword c1 = true /\ isword c2 = true /\
              In (MState (rev text) (","%char :: ws ++ c1 :: c2 :: rest) []) splits /\
              location_from s (MState (rev text) (","%char :: ws ++ c1 :: c2 :: rest) [])
              <> []).
  { intros p (text & ws & c1 & c2 & rest & Hp & Hs & Hne & Hws & H1 & H2 & Hb).
    exists text, ws, c1, c2, rest. repeat split; auto.
    - by apply (location_prefix_in s p).
    - by rewrite location_from_ok. }
  destruct (flat_map (location_from s) splits) as [|st more] eqn:E.
  - intros p Hp.
    destruct (Hin p Hp) as (text & ws & c1 & c2 & rest & _ & _ & _ & _ & _ & Hz & Hne).
    apply Hne. by apply (proj1 (flat_map_nil_iff _ _) E).
  - apply flat_map_hd_inv in E as (l1 & x & l2 & ys & Hsplits & Hnone & Hx).
    assert (Hxin : In x splits) by (rewrite Hsplits; apply in_app_iff; right; by left).
    apply plus_dot_in in Hxin as (text & post & Hs & Hne & ->).
    assert (Hst : In st (location_from s (MState (rev text) post [])))
      by (rewrite Hx; by left).
    apply location_from_inv in Hst as (ws & c1 & c2 & rest & -> & Hws & H1 & H2 & Hb & Hg).
    unfold group. cbn [mo_end]. rewrite Hg. cbn [assoc_nat Nat.eqb].
    set (p := text ++ ","%char :: ws ++ [c1; c2]).
    split.
    { exists text, ws, c1, c2, rest. repeat split; auto.
      rewrite Hs. unfold p. by rewrite prefix_rest. }
    intros p' Hp'.
    destruct (Hin p' Hp') as (text' & ws' & c1' & c2' & rest' & -> & Hs' & Hws' & H1'
                              & H2' & Hz' & Hne').
    rewrite Hsplits in Hz'. apply in_app_iff in Hz' as [Hz'|[Hz'|Hz']].
    + by destruct Hne'; apply Hnone.
    + injection Hz' as Hrev Hpost. apply (f_equal (@rev ascii)) in Hrev.
      rewrite !rev_involutive in Hrev. subst text'.
      apply code_position in Hpost; auto. unfold p. rewrite !length_app. simpl.
      rewrite !length_app. simpl. lia.
    + apply in_split in Hz' as (l2a & l2b & ->).
      assert (Hlen : length text' < length text).
      { replace (l1 ++ MState (rev text) (","%char :: ws ++ c1 :: c2 :: rest) []
                    :: l2a ++ MState (rev text') (","%char :: ws' ++ c1' :: c2' :: rest') []
                    :: l2b)
          with ((l1 ++ MState (rev text) (","%char :: ws ++ c1 :: c2 :: rest) [] :: l2a)
                ++ MState (rev text') (","%char :: ws' ++ c1' :: c2' :: rest') [] :: l2b)
          in Hsplits by (by rewrite <- List.app_assoc).
        pose proof (plus_dot_order s _ _ _
                      (MState (rev text) (","%char :: ws ++ c1 :: c2 :: rest) [])
                      Hsplits) as Ho.
        cbn [m_before] in Ho. rewrite !length_rev in Ho. apply Ho.
        apply in_app_iff. right. by left. }
      rewrite Hs, prefix_rest in Hs'.
      apply app_eq_inv in Hs' as [(k & Ht & Hk)|(k & Ht & Hk)].
      * destruct k as [|a k].
        { rewrite app_nil_r in Ht. subst. lia. }
        injection Hk as <- Hk.
        apply comma_after_code in Hk; auto.
        unfold p. subst text. rewrite !length_app. simpl. rewrite !length_app. simpl.
        lia.
      * subst text'. rewrite length_app in Hlen. lia.
Qed.

Lemma collapse_ws_word p : no_space p -> collapse_ws p = p.
Proof.
  intros Hp. unfold collapse_ws, split_ws. destruct p as [|c p]; [done|].
  by rewrite split_ws_aux_word.
Qed.

Lemma no_space_prefix (p k : str) : no_space (p ++ k) -> no_space p.
Proof. intros H. by apply Forall_app in H as [H _]. Qed.

(** A prefix of collapsed text that does not end in whitespace is collapsed
    text. *)
Lemma collapsed_prefix ws :
  Forall (fun w => w <> [] /\ no_space w) ws ->
  forall p rest, join (L " ") ws = p ++ rest ->
                 next_in isspace (rev p) = false -> collapse_ws p = p.
Proof.
  induction 1 as [|w ws [Hne Hw] Hws IH]; intros p rest Hj Hend.
  - simpl in Hj. symmetry in Hj. apply app_eq_nil in Hj as [-> _]. done.
  - destruct ws as [|w' ws].
    + cbn [join] in Hj. rewrite Hj in Hw.
      by apply collapse_ws_word, (no_space_prefix p rest).
    + rewrite join_cons2 in Hj. cbn [L list_ascii_of_string app] in Hj.
      symmetry in Hj.
      apply app_eq_inv in Hj as [(k & Hp & Hk)|(k & Hp & Hk)].
      2:{ (* p lies within the first word *)
          rewrite Hp in Hw. by apply collapse_ws_word, (no_space_prefix p k). }
      * subst p. destruct k as [|c p'].
        { rewrite app_nil_r. by apply collapse_ws_word. }
        injection Hk as <- Hk. destruct p' as [|x p'].
        { rewrite rev_app_distr in Hend. simpl in Hend. discriminate. }
        assert (Hp' : collapse_ws (x :: p') = x :: p').
        { apply (IH (x :: p') rest); [by rewrite <- Hk|].
          rewrite rev_app_distr in Hend.
          change (rev (" "%char :: x :: p')) with ((rev (x :: p')) ++ [" "%char]) in Hend.
          rewrite <- List.app_assoc in Hend.
          destruct (rev (x :: p')) eqn:E; [|exact Hend].
          apply (f_equal (@length _)) in E. rewrite length_rev in E. discriminate. }
        unfold collapse_ws, split_ws in *.
        rewrite split_ws_aux_app by done. rewrite app_nil_r.
        change (split_ws_aux (rev w) (" "%char :: x :: p'))
          with (if isspace " "
                then match rev w with
                     | [] => split_ws_aux [] (x :: p')
                     | _ => rev (rev w) :: split_ws_aux [] (x :: p')
                     end
                else split_ws_aux (" "%char :: rev w) (x :: p')).
        change (isspace " ") with true. cbv iota.
        destruct (rev w) eqn:Erw.
        { apply (f_equal (@rev _)) in Erw. rewrite rev_involutive in Erw. by subst. }
        rewrite <- Erw, rev_involutive.
        destruct (split_ws_aux [] (x :: p')) as [|t ts] eqn:Et; [discriminate Hp'|].
        rewrite join_cons2, Hp'. reflexivity.
Qed.

(** The prefix [fix_location] cuts out of collapsed text is collapsed text
    and has no line break. *)
Lemma location_prefix_collapsed raw p :
  location_prefix (collapse_ws raw) p -> collapse_ws p = p /\ all dot p.
Proof.
  intros (text & ws & c1 & c2 & rest & Hp & Hs & _ & _ & _ & H2 & _). split.
  - apply (collapsed_prefix (split_ws raw) (split_ws_words raw) p rest); [exact Hs|].
    rewrite Hp. rewrite app_comm_cons, List.app_assoc, rev_app_distr. simpl.
    by apply word_not_space.
  - pose proof (collapse_ws_dot raw) as Hdot. rewrite Hs in Hdot.
    by apply Forall_app in Hdot as [Hdot _].
Qed.

Lemma location_prefix_self s p :
  location_prefix s p -> location_prefix p p.
Proof.
  intros (text & ws & c1 & c2 & rest & Hp & _ & Hne & Hws & H1 & H2 & _).
  exists text, ws, c1, c2, []. rewrite app_nil_r. repeat split; auto.
Qed.

Lemma fix_location_eq raw :
  fix_location raw
  = match re_match re_location (collapse_ws raw) with
    | Some m => group 1 m
    | None => collapse_ws raw
    end.
Proof. unfold fix_location. by rewrite collapse_words. Qed.

Lemma fix_location_again raw : fix_location (fix_location raw) = fix_location raw.
Proof.
  rewrite (fix_location_eq raw).
  pose proof (location_match_cases (collapse_ws raw) (collapse_ws_dot raw)) as Hcase.
  destruct (re_match re_location (collapse_ws raw)) as [m|] eqn:Em.
  - destruct Hcase as [Hp _]. set (p := group 1 m) in *.
    destruct (location_prefix_collapsed raw p Hp) as [Hcol Hdot].
    rewrite fix_location_eq, Hcol.
    pose proof (location_match_cases p Hdot) as Hcase'.
    destruct (re_match re_location p) as [m'|].
    + destruct Hcase' as [Hp' Hmax].
      specialize (Hmax p (location_prefix_self _ _ Hp)).
      destruct Hp' as (text & ws & c1 & c2 & rest & Hg & Hs & _).
      assert (Hlen : length p = length (group 1 m') + length rest)
        by (by rewrite Hs at 1; rewrite length_app).
      destruct rest; [|simpl in Hlen; lia].
      rewrite app_nil_r in Hs. symmetry. exact Hs.
    + by destruct (Hcase' p (location_prefix_self _ _ Hp)).
  - rewrite fix_location_eq, collapse_ws_idem. by rewrite Em.
Qed.

(** X21. [fix_location] is idempotent: a location it has returned comes
    back unchanged when it is passed through again. *)
Theorem fix_location_idempotent raw :
  fix_location (fix_location raw) = fix_location raw.
Proof. apply fix_location_again. Qed.

(** ** The location of a row *)

Lemma summary_lookup_entry soup k v :
  parse_summary_table soup !! k = Some v ->
  exists r, summary_entry r = Some (k, v).
Proof.
  rewrite parse_summary_table_rows.
  destruct (summary_table soup) as [big|]; [|by rewrite lookup_empty].
  rewrite summary_fold_last. destruct (find_all (L "tr") big) as [|r0 rows] eqn:Er;
    [by rewrite lookup_empty|]. rewrite <- Er.
  destruct (List.find _ _) as [[k' v']|] eqn:Ef; [|by rewrite lookup_empty].
  cbn [snd]. intros [= ->]. apply find_some in Ef as [Hin Hk]. cbn [fst] in Hk.
  apply str_eqb_eq in Hk. subst k'.
  apply in_rev, list_elem_of_In, list_elem_of_omap in Hin as (r & _ & He). eauto.
Qed.

Lemma summary_location_fixed soup :
  fix_location (get_default (L "location") (parse_summary_table soup))
  = get_default (L "location") (parse_summary_table soup).
Proof.
  unfold get_default.
  destruct (parse_summary_table soup !! L "location") as [v|] eqn:E; [|reflexivity].
  apply summary_lookup_entry in E as [r Hr].
  destruct (proj2 (summary_entry_key r _ _ Hr) eq_refl) as [raw ->].
  apply fix_location_again.
Qed.

Lemma merged_location_fixed soup2 soup :
  fix_location (get_default (L "location")
                  (parse_summary_table soup2 ∪ parse_summary_table soup))
  = get_default (L "location") (parse_summary_table soup2 ∪ parse_summary_table soup).
Proof.
  pose proof (summary_location_fixed soup2) as H2.
  pose proof (summary_location_fixed soup) as H1.
  unfold get_default in *. rewrite lookup_union.
  destruct (parse_summary_table soup2 !! L "location") as [v2|];
    destruct (parse_summary_table soup !! L "location") as [v1|]; done.
Qed.

Section Locations.

Variable BeautifulSoup : str -> node.
Variable requests_get : list io_event -> str -> Z -> response.

Lemma player_fetch_summary timeout_sec max_retries summ userlink w cdata w' :
  (let* _ := log_fetch PlayerPage userlink in
   let* plr_html := fetch_html requests_get (BASE_URL ++ userlink) timeout_sec
                      max_retries sleep_default in
   let parsed := parse_player_specific_page BeautifulSoup plr_html in
   ret {| summary := summ;
          player_games := games parsed;
          player_rating_pre := player_pre_rating parsed;
          player_rating_post := player_post_rating parsed |}) w
  = (Return cdata, w') ->
  summary cdata = summ.
Proof.
  unfold bind at 1. unfold log_fetch at 1. unfold bind at 1.
  destruct (fetch_html _ _ _ _ _ _) as [[html|e] w2]; [|discriminate].
  unfold ret. by intros [= <- _].
Qed.

Lemma parse_crosstable_location xlink player_id timeout_sec max_retries w cdata w' :
  parse_crosstable BeautifulSoup requests_get xlink player_id timeout_sec
                   max_retries w = (Return cdata, w') ->
  fix_location (get_default (L "location") (summary cdata))
  = get_default (L "location") (summary cdata).
Proof.
  unfold parse_crosstable. unfold bind at 1. unfold get_visited at 1.
  destruct (decide (xlink ∈ visited w)) as [Hin|Hnew].
  { unfold ret. by intros [= <- _]. }
  unfold bind at 1. unfold visited_add at 1. unfold bind at 1. unfold log_fetch at 1.
  unfold bind at 1.
  destruct (fetch_html _ _ _ _ _ _) as [[raw|e] w2]; [|discriminate].
  cbv zeta. destruct (truthy (find_user_link (BeautifulSoup raw) player_id)) eqn:Eu.
  - unfold bind at 1. unfold ret at 1. rewrite Eu.
    intros H. apply player_fetch_summary in H as ->. apply summary_location_fixed.
  - unfold bind at 1. unfold bind at 1. unfold get_visited at 1.
    destruct (truthy _ && negb _).
    + unfold bind at 1. unfold visited_add at 1. unfold bind at 1.
      unfold log_fetch at 1. unfold bind at 1.
      destruct (fetch_html _ _ _ _ _ _) as [[all_html|e] w4]; [|discriminate].
      cbv zeta. unfold ret at 1.
      destruct (truthy (find_user_link (BeautifulSoup all_html) player_id)).
      * intros H. apply player_fetch_summary in H as ->. apply merged_location_fixed.
      * unfold ret. intros [= <- _]. apply merged_location_fixed.
    + unfold ret at 1. rewrite Eu. unfold ret. intros [= <- _].
      apply summary_location_fixed.
Qed.

Lemma final_row_location player_id ev cdata :
  final_row player_id ev cdata !! L "location"
  = Some (get_default (L "location") (summary cdata)).
Proof.
  unfold final_row. rewrite set_player_ratings_frame by discriminate.
  unfold set_summary_fields. rewrite !lookup_insert_ne by discriminate.
  by rewrite lookup_insert_eq.
Qed.

Lemma main_event_location player_id timeout_sec max_retries ev w r gms w' :
  main_event BeautifulSoup requests_get player_id timeout_sec max_retries ev w
  = (Return (r, gms), w') ->
  exists loc, r !! L "location" = Some loc /\ fix_location loc = loc /\
              Forall (fun gr => pg_location gr = loc) gms.
Proof.
  unfold main_event. unfold bind at 1.
  destruct ((if truthy (ev_xlink ev)
             then parse_crosstable BeautifulSoup requests_get (ev_xlink ev)
                    player_id timeout_sec max_retries
             else ret empty_crosstable) w) as [[cdata|e] w1] eqn:E; [|discriminate].
  unfold ret. intros [= <- <- _].
  fold (final_row player_id ev cdata).
  exists (get_default (L "location") (summary cdata)).
  split; [apply final_row_location|]. split.
  - destruct (truthy (ev_xlink ev)).
    + by apply parse_crosstable_location in E.
    + unfold ret in E. by injection E as <- _.
  - apply Forall_map, Forall_forall. intros g _. unfold game_row_of.
    cbn [pg_location]. unfold get_default. by rewrite final_row_location.
Qed.

(** X22. The location of every row [main] returns, and of every game row,
    is normalised: it is empty or a text that [fix_location] leaves as it
    is. *)
Theorem row_locations_normalised player_id filter_year timeout_sec max_retries
    w all_data per_game w' :
  main BeautifulSoup requests_get player_id filter_year timeout_sec max_retries w
  = (Return (all_data, per_game), w') ->
  Forall (fun r : row => exists loc, r !! L "location" = Some loc /\
                                     fix_location loc = loc) all_data
  /\ Forall (fun gr => fix_location (pg_location gr) = pg_location gr) per_game.
Proof.
  unfold main. unfold bind at 1. unfold log_fetch at 1.
  set (w0 := World _ _ _). unfold bind at 1.
  destruct (fetch_html _ _ _ _ _ w0) as [[main_html|e] w1]; [|discriminate].
  cbv zeta. unfold bind at 1. unfold set_visited at 1.
  match goal with
  | |- main_events _ _ _ _ _ ?evs ?w2 = _ -> _ => generalize evs w2
  end.
  clear. intros events. revert all_data per_game w'.
  induction events as [|ev rest IH]; intros all_data per_game w' w.
  - cbn [main_events]. unfold ret. intros [= <- <- _]. split; constructor.
  - cbn [main_events]. unfold bind at 1.
    destruct (main_event _ _ _ _ _ ev w) as [[[r gms]|e] w1] eqn:Eev; [|discriminate].
    unfold bind at 1.
    destruct (main_events _ _ _ _ _ rest w1) as [[[rows grs]|e] w2] eqn:Erest;
      [|discriminate].
    unfold ret. intros [= <- <- _].
    destruct (IH _ _ _ _ Erest) as [Hrows Hgrs].
    apply main_event_location in Eev as (loc & Hloc & Hfix & Hgms).
    split.
    + constructor; [by exists loc|done].
    + apply Forall_app. split; [|done].
      eapply Forall_impl; [exact Hgms|]. intros gr ->. exact Hfix.
Qed.

End Locations.

Lemma row_locations_normalised_witness :
  exists all_data per_game w',
    site_run = (Return (all_data, per_game), w')
    /\ Forall (fun gr => fix_location (pg_location gr) = pg_location gr) per_game
    /\ map pg_location per_game = [L "LAS VEGAS, NV"; L "LAS VEGAS, NV"].
Proof.
  destruct site_run as [[[all_data per_game]|e] w'] eqn:E.
  - exists all_data, per_game, w'. split; [reflexivity|]. split.
    + exact (proj2 (row_locations_normalised site_parser echo_network (L "12641216")
                      (Some (L "2019")) 15 3 world0 all_data per_game w' E)).
    + assert (H : match fst site_run with
                  | Return (_, p) => map pg_location p
                  | Raise _ => []
                  end = [L "LAS VEGAS, NV"; L "LAS VEGAS, NV"])
        by (vm_compute; reflexivity).
      by rewrite E in H.
  - exfalso. assert (H : returned site_run = true) by (vm_compute; reflexivity).
    rewrite E in H. discriminate.
Defined.


(** ** The summary of a crosstable in two pages *)

Section Reliable.

Variable BeautifulSoup : str -> node.
Variable requests_get : list io_event -> str -> Z -> response.

(** A network that answers every request, with a page that depends on the
    URL alone. *)
Variable pages : str -> str.
Hypothesis reliable : forall h url t, requests_get h url t = Body (pages url).

Lemma fetch_html_reliable url timeout_sec max_retries w :
  (0 < max_retries)%Z ->
  exists w', fetch_html requests_get url timeout_sec max_retries sleep_default w
             = (Return (pages url), w')
             /\ visited w' = visited w.
Proof.
  intros Hm. unfold fetch_html.
  destruct (Z.to_nat max_retries) as [|n] eqn:En; [lia|].
  cbn [fetch_attempts]. unfold bind, sleep, catch, http_get. cbn [io visited fetch_log].
  rewrite reliable. eexists. split; reflexivity.
Qed.

Lemma parse_crosstable_reliable xlink player_id timeout_sec max_retries w :
  (0 < max_retries)%Z -> xlink ∉ visited w ->
  let soup := BeautifulSoup (pages (BASE_URL ++ xlink)) in
  let zero := find_all_sections_link soup xlink in
  let soup2 := BeautifulSoup (pages (BASE_URL ++ zero)) in
  exists cdata w',
    parse_crosstable BeautifulSoup requests_get xlink player_id timeout_sec
                     max_retries w = (Return cdata, w')
    /\ summary cdata
       = if truthy (find_user_link soup player_id) then parse_summary_table soup
         else if truthy zero && negb (bool_decide (zero ∈ {[xlink]} ∪ visited w))
         then parse_summary_table soup2 ∪ parse_summary_table soup
         else parse_summary_table soup.
Proof.
  intros Hm Hnew soup zero soup2.
  assert (Hplayer : forall summ userlink w1, exists cdata w',
    (let* _ := log_fetch PlayerPage userlink in
     let* plr_html := fetch_html requests_get (BASE_URL ++ userlink) timeout_sec
                        max_retries sleep_default in
     let parsed := parse_player_specific_page BeautifulSoup plr_html in
     ret {| summary := summ;
            player_games := games parsed;
            player_rating_pre := player_pre_rating parsed;
            player_rating_post := player_post_rating parsed |}) w1
    = (Return cdata, w') /\ summary cdata = summ).
  { intros summ userlink w1. unfold bind at 1. unfold log_fetch at 1. unfold bind at 1.
    set (w2 := World _ _ _).
    destruct (fetch_html_reliable (BASE_URL ++ userlink) timeout_sec max_retries w2 Hm)
      as (w3 & -> & _).
    unfold ret. eexists _, _. split; reflexivity. }
  unfold parse_crosstable. unfold bind at 1. unfold get_visited at 1.
  destruct (decide (xlink ∈ visited w)) as [Hin|_]; [done|].
  unfold bind at 1. unfold visited_add at 1. unfold bind at 1. unfold log_fetch at 1.
  unfold bind at 1. cbn [visited fetch_log io].
  set (w1 := World _ _ _).
  destruct (fetch_html_reliable (BASE_URL ++ xlink) timeout_sec max_retries w1 Hm)
    as (w2 & -> & Hv2).
  cbv zeta. fold soup. fold zero.
  destruct (truthy (find_user_link soup player_id)) eqn:Eu.
  - unfold bind at 1. unfold ret at 1. rewrite Eu. apply Hplayer.
  - unfold bind at 1. unfold bind at 1. unfold get_visited at 1.
    rewrite Hv2. subst w1. cbn [visited].
    destruct (truthy zero && negb (bool_decide (zero ∈ {[xlink]} ∪ visited w))).
    + unfold bind at 1. unfold visited_add at 1. unfold bind at 1.
      unfold log_fetch at 1. unfold bind at 1.
      set (w3 := World _ _ _).
      destruct (fetch_html_reliable (BASE_URL ++ zero) timeout_sec max_retries w3 Hm)
        as (w4 & -> & _).
      cbv zeta. fold soup2. unfold ret at 1.
      destruct (truthy (find_user_link soup2 player_id)).
      * apply Hplayer.
      * unfold ret. eexists _, _. split; reflexivity.
    + unfold ret at 1. rewrite Eu. unfold ret. eexists _, _. split; reflexivity.
Qed.

(** X23. On a network that answers every request, [parse_crosstable]
    returns for a link it has not visited.  When the crosstable page has no
    link to the player and its all-sections page is new, the summary holds
    the labels of both pages, and for a label both pages carry the value of
    the all-sections page wins.  Otherwise the summary is that of the
    crosstable page alone. *)
Theorem crosstable_summary_merge xlink player_id timeout_sec max_retries w :
  (0 < max_retries)%Z -> xlink ∉ visited w ->
  let soup := BeautifulSoup (pages (BASE_URL ++ xlink)) in
  let zero := find_all_sections_link soup xlink in
  let soup2 := BeautifulSoup (pages (BASE_URL ++ zero)) in
  exists cdata w',
    parse_crosstable BeautifulSoup requests_get xlink player_id timeout_sec
                     max_retries w = (Return cdata, w')
    /\ (find_user_link soup player_id = [] -> zero <> [] ->
        zero <> xlink -> zero ∉ visited w ->
        forall k, summary cdata !! k
                  = match parse_summary_table soup2 !! k with
                    | Some v => Some v
                    | None => parse_summary_table soup !! k
                    end)
    /\ (find_user_link soup player_id <> [] \/ zero = [] \/ zero = xlink
        \/ zero ∈ visited w ->
        summary cdata = parse_summary_table soup).
Proof.
  intros Hm Hnew soup zero soup2.
  destruct (parse_crosstable_reliable xlink player_id timeout_sec max_retries w Hm Hnew)
    as (cdata & w' & Hrun & Hsum).
  fold soup zero soup2 in Hsum. fold soup zero soup2.
  exists cdata, w'. split; [exact Hrun|]. split.
  - intros Hu Hz Hzx Hzv k. rewrite Hsum, Hu. cbn [truthy].
    assert (Ht : truthy zero = true) by (by destruct zero).
    rewrite Ht. rewrite bool_decide_eq_false_2 by set_solver.
    cbn [negb andb]. rewrite lookup_union.
    by destruct (parse_summary_table soup2 !! k), (parse_summary_table soup !! k).
  - intros Hcase. rewrite Hsum.
    destruct (truthy (find_user_link soup player_id)) eqn:Eu; [done|].
    destruct Hcase as [Hu|[Hz|[Hz|Hz]]].
    + by destruct (find_user_link soup player_id).
    + by rewrite Hz.
    + rewrite bool_decide_eq_true_2 by set_solver. by rewrite andb_false_r.
    + rewrite bool_decide_eq_true_2 by set_solver. by rewrite andb_false_r.
Qed.

End Reliable.

Lemma crosstable_summary_merge_witness :
  exists cdata w',
    parse_crosstable two_page_parser echo_network
      (L "XtblMain.php?201909151232-12641216") (L "12641216") 15 3 world0
    = (Return cdata, w')
    /\ summary cdata !! L "location" = Some (L "LAS VEGAS, NV")
    /\ summary cdata !! L "chief td" = Some (L "A. SMITH").
Proof.
  destruct (crosstable_summary_merge two_page_parser echo_network (fun u => u)
              (fun _ _ _ => eq_refl) (L "XtblMain.php?201909151232-12641216")
              (L "12641216") 15 3 world0 eq_refl (not_elem_of_empty _))
    as (cdata & w' & Hrun & Hmerge & _).
  exists cdata, w'. split; [exact Hrun|].
  assert (H1 : find_user_link
                 (two_page_parser (BASE_URL ++ L "XtblMain.php?201909151232-12641216"))
                 (L "12641216") = []) by (vm_compute; reflexivity).
  assert (H2 : find_all_sections_link
                 (two_page_parser (BASE_URL ++ L "XtblMain.php?201909151232-12641216"))
                 (L "XtblMain.php?201909151232-12641216")
               = L "XtblMain.php?201909151232.0-12641216") by (vm_compute; reflexivity).
  cbv zeta in Hmerge. rewrite H2 in Hmerge.
  specialize (Hmerge H1 ltac:(discriminate) ltac:(discriminate) (not_elem_of_empty _)).
  split; rewrite Hmerge; vm_compute; reflexivity.
Defined.
